(** * Orchestra: consensus engine and debate coordinator

    A shallow embedding of [packages/core/src/consensus.ts] (class
    [ConsensusEngine]), [orchestra.ts] (class [Orchestra]) and
    [registry.ts] (class [ProviderRegistry]), with the properties the
    design document states about them.

    Conventions of the embedding.
    - JavaScript strings are [string]: sequences of code units, here in the
      range 0..255 (Latin-1).  Case folding and the whitespace class of
      regular expressions are written out for that range.
    - JavaScript numbers: sizes, indices and counters are [nat].  A
      quotient of two sizes that the code compares or returns as it is,
      and the thresholds it is compared with, are exact rationals ([Q]).
      Numbers that the code accumulates, the total cost of a consensus and
      the agreement of a debate round, are IEEE doubles ([float]), where
      every addition and division rounds: see [Double].
    - A promise is its eventual [Outcome]: fulfilled with a value or
      rejected with a reason.
    - Objects that are compared by identity carry an object identifier
      ([oid]). *)

From Stdlib Require Import Ascii String QArith Qminmax Floats.
From stdpp Require Import base list gmap strings sorting.
From Equations Require Import Equations.

Local Open Scope string_scope.
Local Open Scope list_scope.

(** ** Strings: [toLowerCase] and [split(/\s+/)] *)

Module Js.

(** [String.prototype.toLowerCase] on code units below 256: the upper-case
    letters are A..Z, and in the Latin-1 supplement U+00C0..U+00DE without
    the multiplication sign U+00D7; each maps to the code unit 32 above. *)
Definition is_upper (c : ascii) : bool :=
  let n := nat_of_ascii c in
  ((65 <=? n) && (n <=? 90))%nat
  || ((192 <=? n) && (n <=? 222) && negb (n =? 215))%nat.

Definition lower_char (c : ascii) : ascii :=
  if is_upper c then ascii_of_nat (nat_of_ascii c + 32) else c.

Fixpoint toLowerCase (s : string) : string :=
  match s with
  | EmptyString => EmptyString
  | String c s' => String (lower_char c) (toLowerCase s')
  end.

(** The class [\s] of a regular expression, below 256: TAB, LF, VT, FF, CR,
    SPACE and NO-BREAK SPACE. *)
Definition is_space (c : ascii) : bool :=
  let n := nat_of_ascii c in
  ((9 <=? n) && (n <=? 13))%nat || (n =? 32)%nat || (n =? 160)%nat.

(** [s.split(/\s+/)]: the pieces of [s] between the maximal runs of
    whitespace.  A run at the start or at the end of [s] leaves an empty
    piece there, and the empty string splits into one empty piece: the
    result is never the empty array.  [cur] is the piece being read and
    [in_run] tells that the previous code unit was whitespace. *)
Fixpoint split_from (cur : string) (in_run : bool) (s : string) : list string :=
  match s with
  | EmptyString => [cur]
  | String c s' =>
      if is_space c then
        if in_run then split_from cur true s'
        else cur :: split_from EmptyString true s'
      else split_from (cur +:+ String c EmptyString) false s'
  end.

Definition split_ws (s : string) : list string :=
  split_from EmptyString false s.

(** [s.substring(0, n)] *)
Fixpoint substring0 (n : nat) (s : string) : string :=
  match n, s with
  | S n', String c s' => String c (substring0 n' s')
  | _, _ => EmptyString
  end.

(** [xs.join(sep)] *)
Fixpoint join (sep : string) (xs : list string) : string :=
  match xs with
  | [] => EmptyString
  | [x] => x
  | x :: xs' => x +:+ sep +:+ join sep xs'
  end.

Definition dquote : string := String (ascii_of_nat 34) EmptyString.
Definition nl : string := String (ascii_of_nat 10) EmptyString.

End Js.

(** ** Numbers *)

Definition Qltb (a b : Q) : bool := negb (Qle_bool b a).

Definition Qnat (n : nat) : Q := inject_Z (Z.of_nat n).

(** ** Doubles

    The arithmetic of the numbers that the code accumulates: [+] and [/]
    are the operations of IEEE 754 binary64, which round to the nearest
    double. *)
Module Double.

(** A size or a counter as a double; the conversion is exact below
    2^53. *)
Definition ofNat (n : nat) : float :=
  PrimFloat.of_uint63 (Uint63.of_Z (Z.of_nat n)).

(** The literal [0.001]: the double nearest to 1/1000. *)
Definition milli : float := 0x1.0624dd2f1a9fcp-10%float.

(** The literal [0.7]: the double nearest to 7/10. *)
Definition seven_tenths : float := 0x1.6666666666666p-1%float.

(** A number that is given as a rational stands for the double nearest
    to it, which the quotient of its numerator and denominator is when
    both are below 2^53. *)
Definition ofQ (q : Q) : float :=
  let n := PrimFloat.of_uint63 (Uint63.of_Z (Z.abs (Qnum q))) in
  let d := PrimFloat.of_uint63 (Uint63.of_Z (Z.pos (Qden q))) in
  if (Qnum q <? 0)%Z then (- (n / d))%float else (n / d)%float.

(** [a || b] on doubles: 0, -0 and NaN are falsy, and so is [undefined]. *)
Definition or (a : option float) (b : float) : float :=
  match a with
  | Some x => if PrimFloat.eqb x 0 || PrimFloat.is_nan x then b else x
  | None => b
  end.

(** The sum of an array, added from the left as [reduce] and the loops
    do. *)
Definition sum (l : list float) : float := foldl PrimFloat.add 0%float l.

End Double.

(** ** Data model ([types.ts]) *)

(** [Response], without the clock reading [latency]. *)
Record Response := mkResponse {
  content : string;
  provider : string;
  model : option string;
  tokens : option (nat * nat * nat);
  cost : option float
}.

(** A reference to a response object: the identity of the object and its
    fields.  The engine keeps arrays of such references and
    [Array.prototype.includes] compares the identities. *)
Record Obj := mkObj {
  oid : nat;
  fields :> Response
}.

(** Values that are thrown, or that a promise is rejected with. *)
Inductive Thrown :=
  | Error (message : string)     (* [throw new Error(message)] *)
  | TypeError                    (* raised by the runtime *)
  | Reason (cause : string).     (* what a provider's own promise rejects with *)

Inductive Outcome (A : Type) :=
  | Fulfilled (v : A)
  | Rejected (e : Thrown).
Arguments Fulfilled {A} v.
Arguments Rejected {A} e.

#[global] Instance Outcome_ret : MRet Outcome := λ A v, Fulfilled v.
#[global] Instance Outcome_bind : MBind Outcome := λ A B f m,
  match m with
  | Fulfilled v => f v
  | Rejected e => Rejected e
  end.

#[global] Instance Outcome_fmap : FMap Outcome := λ A B f m,
  match m with
  | Fulfilled v => Fulfilled (f v)
  | Rejected e => Rejected e
  end.

(** A value that is [undefined] where the code needs an object. *)
Definition orThrow {A} (x : option A) : Outcome A :=
  match x with
  | Some v => Fulfilled v
  | None => Rejected TypeError
  end.

(** [Promise.all]: fulfilled with all values, in the order of the array,
    when every promise is fulfilled; rejected with the reason of the
    promise that is rejected first otherwise.  Which one is first is
    decided by the timing of the calls: it is the parameter [race], of
    which the results below use at most that it picks one of the reasons
    it is given. *)
Definition Scheduler := list Thrown → Thrown.

Definition picks (race : Scheduler) : Prop :=
  ∀ es, es ≠ [] → race es ∈ es.

Definition rejections {A} (ps : list (Outcome A)) : list Thrown :=
  omap (λ p, match p with Rejected e => Some e | Fulfilled _ => None end) ps.

Definition values {A} (ps : list (Outcome A)) : list A :=
  omap (λ p, match p with Fulfilled v => Some v | Rejected _ => None end) ps.

Definition Promise_all {A} (race : Scheduler) (ps : list (Outcome A))
    : Outcome (list A) :=
  match rejections ps with
  | [] => Fulfilled (values ps)
  | e :: es => Rejected (race (e :: es))
  end.

Module QueryOptions.
Record t := mk {
  provider : option string;
  maxTokens : option nat;
  temperature : option Q;
  stream : option bool
}.
End QueryOptions.

Module ProviderConfig.
Record t := mk {
  apiKey : string;
  endpoint : option string;
  model : option string;
  maxTokens : option nat;
  temperature : option Q
}.
End ProviderConfig.

Inductive Mode := democratic | weighted | hierarchical.

Module ConsensusOptions.
Record t := mk {
  providers : option (list string);
  mode : option Mode;
  weights : option (gmap string Q);
  threshold : option Q;
  maxRounds : option nat;
  showDebate : option bool
}.
End ConsensusOptions.

(** [maxRounds] counts rounds and [threshold] is a ratio. *)
Module DebateOptions.
Record t := mk {
  providers : option (list string);
  maxRounds : option nat;
  threshold : option Q;
  stream : option bool
}.
End DebateOptions.

(** [providers] lists the entries of the object in the order of
    [Object.entries] and [Object.keys]. *)
Module OrchestraConfig.
Record t := mk {
  providers : list (string * ProviderConfig.t);
  defaultProvider : option string;
  consensusThreshold : option Q;
  maxDebateRounds : option nat;
  timeout : option nat;
  cache : option bool
}.
End OrchestraConfig.

Module DebateRound.
Record t := mk {
  round : nat;
  arguments : list Response;
  agreement : Q;
  synthesis : option string
}.
End DebateRound.

Module DebateResult.
Record t := mk {
  decision : string;
  rounds : list DebateRound.t;
  agreement : Q;
  participants : list string;
  confidence : Q
}.
End DebateResult.

(** [a || b] on the values the code applies it to: the number 0, the empty
    string and [undefined] are falsy. *)
Definition orNat (a : option nat) (b : nat) : nat :=
  match a with
  | Some (S n) => S n
  | _ => b
  end.

Definition orQ (a : option Q) (b : Q) : Q :=
  match a with
  | Some x => if Qeq_bool x 0 then b else x
  | None => b
  end.

Definition orString (a : option string) (b : string) : string :=
  match a with
  | Some (String c s) => String c s
  | _ => b
  end.

(** ** [provider.ts]: the interface [IProvider]

    [complete] and the optional [healthCheck] return promises; [stream] is
    not used by the engine. *)
Module IProvider.
Record t := mk {
  name : string;
  complete : string → option QueryOptions.t → Outcome Response;
  healthCheck : option (Outcome bool)
}.
End IProvider.

(** ** [provider.ts]: the abstract class [Provider]

    A subclass supplies [name] and [complete]; the base class gives it a
    [healthCheck] that tries a one-token completion. *)
Module Provider.

(** [try { await this.complete('test', { maxTokens: 1 }); return true }
     catch { return false }] *)
Definition healthCheck
    (complete : string → option QueryOptions.t → Outcome Response)
    : Outcome bool :=
  match complete "test" (Some (QueryOptions.mk None (Some 1) None None)) with
  | Fulfilled _ => Fulfilled true
  | Rejected _ => Fulfilled false
  end.

(** An instance of a subclass that overrides nothing else. *)
Definition extend (name : string)
    (complete : string → option QueryOptions.t → Outcome Response)
    : IProvider.t :=
  {| IProvider.name := name;
     IProvider.complete := complete;
     IProvider.healthCheck := Some (healthCheck complete) |}.

End Provider.

(** ** [registry.ts]: class [ProviderRegistry]

    The field [providers] is a [Map]: its keys are distinct and are
    listed in the order in which they were first inserted. *)
Module ProviderRegistry.

Definition t := list (string * IProvider.t).

(** [new Map()] *)
Definition empty : t := [].

(** [providers.set(name, p)]: a present key keeps its place. *)
Fixpoint set (name : string) (p : IProvider.t) (m : t) : t :=
  match m with
  | [] => [(name, p)]
  | (k, v) :: m' =>
      if decide (k = name) then (k, p) :: m' else (k, v) :: set name p m'
  end.

(** [providers.get(name)] *)
Fixpoint get (name : string) (m : t) : option IProvider.t :=
  match m with
  | [] => None
  | (k, v) :: m' => if decide (k = name) then Some v else get name m'
  end.

(** [providers.delete(name)] *)
Definition remove (name : string) (m : t) : t :=
  filter (λ kv, kv.1 ≠ name) m.

(** [Array.from(providers.keys())] *)
Definition list (m : t) : list string := m.*1.

(** The mock provider of the initial release. *)
Definition createProvider (name : string) (config : ProviderConfig.t)
    : IProvider.t :=
  {| IProvider.name := name;
     IProvider.complete := λ prompt _,
       Fulfilled
         {| content := "Response from " +:+ name
                         +:+ ": This is a simulated response to "
                         +:+ Js.dquote +:+ prompt +:+ Js.dquote;
            provider := name;
            model := None;
            tokens := Some (String.length prompt, 50,
                            String.length prompt + 50)%nat;
            cost := Some Double.milli |};
     IProvider.healthCheck := Some (Fulfilled true) |}.

Definition register (name : string) (config : ProviderConfig.t) (m : t) : t :=
  set name (createProvider name config) m.

End ProviderRegistry.

(** [new Set(content.split(/\s+/))] *)
Definition wordSet (s : string) : gset string :=
  list_to_set (Js.split_ws s).

(** The token set of a response: its content, in lower case, split on
    whitespace. *)
Definition wordsOf (r : Response) : gset string :=
  wordSet (Js.toLowerCase (content r)).

(** The Jaccard ratio of two sets as the design document defines it: the
    size of the intersection over the size of the union, and 0 when both
    sets are empty. *)
Definition jaccard (A B : gset string) : Q :=
  if decide (A = ∅ ∧ B = ∅) then 0%Q
  else (Qnat (size (A ∩ B)) / Qnat (size (A ∪ B)))%Q.

(** ** [ConsensusEngine] *)

Module ConsensusEngine.

(** The ratio computed by [areSimilar] before it is compared with the
    threshold. *)
Definition similarity (a b : Response) : Q :=
  let wordsA := wordSet (Js.toLowerCase (content a)) in
  let wordsB := wordSet (Js.toLowerCase (content b)) in
  let intersection : gset string := filter (λ x, x ∈ wordsB) wordsA in
  let union := wordsA ∪ wordsB in
  if (0 <? size union)%nat
  then (Qnat (size intersection) / Qnat (size union))%Q
  else 0%Q.

(** [similarity > 0.6].  The quotient of two sizes [m / n] is above three
    fifths as a rational exactly when it is as a double, as long as the
    sizes stay below 2^50. *)
Definition areSimilar (a b : Response) : bool :=
  Qltb (6 # 10) (similarity a b).

(** [groupSimilarResponses]: the body of the inner loop, for one [j].
    The state is the group being filled and the set [used] of indices.
    Both loops stay below [responses.length], so that the array reads are
    in range; the [None] branches are there for totality only. *)
Definition absorb (responses : list Obj) (seed : Obj)
    (st : list Obj * gset nat) (j : nat) : list Obj * gset nat :=
  let '(group, used) := st in
  if decide (j ∈ used) then st
  else match (responses !! j : option Obj) with
       | Some rj =>
           if areSimilar seed rj then (group ++ [rj], {[j]} ∪ used) else st
       | None => st
       end.

(** The body of the outer loop, for one [i]: the state is the array of
    groups built so far and the set [used]. *)
Definition openGroup (responses : list Obj)
    (st : list (list Obj) * gset nat) (i : nat)
    : list (list Obj) * gset nat :=
  let '(groups, used) := st in
  if decide (i ∈ used) then st
  else match (responses !! i : option Obj) with
       | Some ri =>
           let '(group, used') :=
             foldl (absorb responses ri) ([ri], {[i]} ∪ used)
                   (seq (S i) (length responses - S i)) in
           (groups ++ [group], used')
       | None => st
       end.

Definition groupSimilarResponses (responses : list Obj)
    : list (list Obj) :=
  fst (foldl (openGroup responses) ([], ∅) (seq 0 (length responses))).

(** [groups.reduce((max, group) => group.length > max.length ? group : max)]:
    without an initial value, [reduce] starts from the first element and
    throws a TypeError on an empty array ([None]). *)
Definition largest (groups : list (list Obj)) : option (list Obj) :=
  match groups with
  | [] => None
  | g0 :: gs =>
      Some (foldl (λ max group,
                     if (length max <? length group)%nat then group else max)
                  g0 gs)
  end.

Definition calculateConfidence (majorityGroup allResponses : list Obj) : Q :=
  let agreementRatio :=
    (Qnat (length majorityGroup) / Qnat (length allResponses))%Q in
  let unanimity := (length majorityGroup =? length allResponses)%nat in
  if unanimity then Qmin 1 (agreementRatio * (12 # 10))%Q else agreementRatio.

(** [group[0].content]; reading [content] of [undefined] throws. *)
Definition synthesizeResponse (group : list Obj) : option string :=
  (λ r : Obj, content r) <$> head group.

(** [largestGroup.includes(r)] compares object identities. *)
Definition includes (group : list Obj) (r : Obj) : bool :=
  existsb (λ x, (oid x =? oid r)%nat) group.

(** The part of [ConsensusResult] that [calculateConsensus] fills in.  The
    display sentence [reasoning] is not part of the model.  The arguments
    [mode] and [options] are not read: every mode is the majority vote. *)
Record Consensus := mkConsensus {
  result : string;
  confidence : Q;
  agreement : Q;
  dissenting : option (list Obj)
}.

Definition calculateConsensus (responses : list Obj) (mode : Mode)
    (options : option ConsensusOptions.t) : option Consensus :=
  let groups := groupSimilarResponses responses in
  largestGroup ← largest groups;
  let agreement := (Qnat (length largestGroup) / Qnat (length responses))%Q in
  let confidence := calculateConfidence largestGroup responses in
  let dissenting := filter (λ r : Obj, ¬ includes largestGroup r) responses in
  text ← synthesizeResponse largestGroup;
  Some {| result := text;
          confidence := confidence;
          agreement := agreement;
          dissenting := if (0 <? length dissenting)%nat
                        then Some dissenting else None |}.

(** The grouping as the design document words it: the first response that
    is still ungrouped seeds a group, which takes every later ungrouped
    response similar to the seed; the rest is grouped in the same way. *)
Equations? greedyGroups (l : list Obj) : list (list Obj)
    by wf (length l) lt :=
  greedyGroups [] := [];
  greedyGroups (s :: t) :=
    (s :: filter (λ r : Obj, areSimilar s r) t)
      :: greedyGroups (filter (λ r : Obj, ¬ areSimilar s r) t).
Proof. simpl. pose proof (length_filter (λ r : Obj, ¬ areSimilar s r) t). lia. Qed.

(** [getResponses]: one call per name, joined by [Promise.all].  Every
    call that is fulfilled yields an object of its own, identified here by
    its position in the array. *)
Definition callProvider (registry : ProviderRegistry.t) (prompt : string)
    (i : nat) (name : string) : Outcome Obj :=
  match ProviderRegistry.get name registry with
  | None => Rejected (Error ("Provider " +:+ name +:+ " not found"))
  | Some provider => mkObj i <$> IProvider.complete provider prompt None
  end.

Definition getResponses (race : Scheduler) (registry : ProviderRegistry.t)
    (prompt : string) (providerNames : list string) : Outcome (list Obj) :=
  Promise_all race (imap (callProvider registry prompt) providerNames).

(** [ConsensusResult]: the fields of [calculateConsensus], then
    [providers] and [metadata] (without the clock reading [totalTime]). *)
Record ConsensusResult := mkConsensusResult {
  consensus : Consensus;
  providers : list string;
  rounds : nat;
  totalCost : float
}.

(** [options?.providers || this.registry.list()]: an array, even an empty
    one, is truthy. *)
Definition providerNamesOf (registry : ProviderRegistry.t)
    (options : option ConsensusOptions.t) : list string :=
  default (ProviderRegistry.list registry)
          (options ≫= ConsensusOptions.providers).

Definition buildConsensus (race : Scheduler) (registry : ProviderRegistry.t)
    (prompt : string) (options : option ConsensusOptions.t)
    : Outcome ConsensusResult :=
  let providerNames := providerNamesOf registry options in
  if (length providerNames =? 0)%nat
  then Rejected (Error "No providers available for consensus")
  else
    responses ← getResponses race registry prompt providerNames;
    let mode := default democratic (options ≫= ConsensusOptions.mode) in
    result ← orThrow (calculateConsensus responses mode options);
    Fulfilled
      {| consensus := result;
         providers := providerNames;
         rounds := 1;
         totalCost :=
           foldl (λ sum r, sum + Double.or (cost (fields r)) 0)%float
                 0%float responses |}.

End ConsensusEngine.

(** ** [orchestra.ts]: class [Orchestra]

    The event emitter has no part in what the methods return and is left
    out. *)

Module Orchestra.

Record t := mk {
  config : OrchestraConfig.t;
  registry : ProviderRegistry.t
}.

(** The constructor, once [initialize] has registered every configured
    provider. *)
Definition new (config : OrchestraConfig.t) : t :=
  {| config := config;
     registry :=
       foldl (λ reg '(name, c), ProviderRegistry.register name c reg)
             ProviderRegistry.empty (OrchestraConfig.providers config) |}.

(** [query], without the clock reading [latency]. *)
Definition query (self : t) (prompt : string)
    (options : option QueryOptions.t) : Outcome Response :=
  let providerName :=
    orString (options ≫= QueryOptions.provider)
             (orString (OrchestraConfig.defaultProvider (config self))
                       "openai") in
  match ProviderRegistry.get providerName (registry self) with
  | None => Rejected (Error ("Provider " +:+ providerName +:+ " not found"))
  | Some provider =>
      response ← IProvider.complete provider prompt options;
      Fulfilled
        {| content := content response;
           provider := providerName;
           model := model response;
           tokens := tokens response;
           cost := cost response |}
  end.

Definition consensus (race : Scheduler) (self : t) (prompt : string)
    (options : option ConsensusOptions.t)
    : Outcome ConsensusEngine.ConsensusResult :=
  ConsensusEngine.buildConsensus race (registry self) prompt options.

(** [calculateSimilarity] *)
Definition calculateSimilarity (a b : string) : Q :=
  let wordsA := wordSet a in
  let wordsB := wordSet b in
  let intersection : gset string := filter (λ x, x ∈ wordsB) wordsA in
  let union := wordsA ∪ wordsB in
  if (0 <? size union)%nat
  then (Qnat (size intersection) / Qnat (size union))%Q
  else 0%Q.

(** [calculateAgreement], read in exact arithmetic: the state of the two
    loops is [(totalSimilarity, comparisons)].  The code adds and divides
    doubles, so that its value can differ from this one by rounding: see
    [Float64.calculateAgreement]. *)
Definition compare (contents : list string) (i : nat)
    (st : Q * nat) (j : nat) : Q * nat :=
  match contents !! i, contents !! j with
  | Some a, Some b => ((st.1 + calculateSimilarity a b)%Q, S st.2)
  | _, _ => st
  end.

Definition calculateAgreement (responses : list Response) : Q :=
  if (length responses <=? 1)%nat then 1%Q
  else
    let contents := map (λ r, Js.toLowerCase (content r)) responses in
    let '(totalSimilarity, comparisons) :=
      foldl (λ st i,
               foldl (compare contents i) st
                     (seq (S i) (length contents - S i)))
            (0%Q, 0%nat) (seq 0 (length contents)) in
    if (0 <? comparisons)%nat
    then (totalSimilarity / Qnat comparisons)%Q
    else 0%Q.

(** [buildDebatePrompt]; [rounds[rounds.length - 1]] is [undefined] for
    an empty array. *)
Definition buildDebatePrompt (originalPrompt : string)
    (rounds : list DebateRound.t) : option string :=
  lastRound ← last rounds;
  let perspectives :=
    Js.join Js.nl
      (map (λ arg, provider arg +:+ ": "
                     +:+ Js.substring0 200 (content arg) +:+ "...")
           (DebateRound.arguments lastRound)) in
  Some (Js.nl +:+ "Original question: " +:+ originalPrompt +:+ Js.nl
          +:+ Js.nl +:+ "Previous perspectives:" +:+ Js.nl
          +:+ perspectives +:+ Js.nl
          +:+ Js.nl
          +:+ "Please reconsider your response taking into account these other viewpoints."
          +:+ Js.nl
          +:+ "Aim for consensus while maintaining your analytical rigor.").

(** [synthesizeDecision] *)
Definition synthesizeDecision (rounds : list DebateRound.t) : option string :=
  lastRound ← last rounds;
  bestResponse ← head (DebateRound.arguments lastRound);
  Some (content bestResponse).

(** The variables of the loop of [debate]. *)
Record Loop := mkLoop {
  prompt : string;
  rounds : list DebateRound.t;
  agreement : Q;
  round : nat
}.

(** One turn of the loop body. *)
Definition debateRound (race : Scheduler) (self : t) (threshold : Q)
    (maxRounds : nat) (providers : list string) (st : Loop) : Outcome Loop :=
  let round := S (round st) in
  responses ←
    Promise_all race
      (map (λ p, query self (prompt st)
                   (Some (QueryOptions.mk (Some p) None None None)))
           providers);
  let agreement := calculateAgreement responses in
  let rounds :=
    rounds st ++ [DebateRound.mk round responses agreement None] in
  prompt ←
    (if Qltb agreement threshold && (round <? maxRounds)%nat
     then orThrow (buildDebatePrompt (prompt st) rounds)
     else Fulfilled (prompt st));
  Fulfilled {| prompt := prompt; rounds := rounds;
               agreement := agreement; round := round |}.

(** [while (agreement < threshold && round < maxRounds) { ... }], unrolled
    at most [fuel] times; [None] when the fuel does not suffice. *)
Fixpoint debateLoop (race : Scheduler) (self : t) (threshold : Q)
    (maxRounds : nat) (providers : list string) (fuel : nat) (st : Loop)
    : option (Outcome Loop) :=
  if Qltb (agreement st) threshold && (round st <? maxRounds)%nat then
    match fuel with
    | 0 => None
    | S fuel' =>
        match debateRound race self threshold maxRounds providers st with
        | Fulfilled st' =>
            debateLoop race self threshold maxRounds providers fuel' st'
        | Rejected e => Some (Rejected e)
        end
    end
  else Some (Fulfilled st).

Definition maxRoundsOf (self : t) (options : option DebateOptions.t) : nat :=
  orNat (options ≫= DebateOptions.maxRounds)
        (orNat (OrchestraConfig.maxDebateRounds (config self)) 3).

Definition thresholdOf (self : t) (options : option DebateOptions.t) : Q :=
  orQ (options ≫= DebateOptions.threshold)
      (orQ (OrchestraConfig.consensusThreshold (config self)) (7 # 10)).

Definition participantsOf (self : t) (options : option DebateOptions.t)
    : list string :=
  default (OrchestraConfig.providers (config self)).*1
          (options ≫= DebateOptions.providers).

Definition debateWith (fuel : nat) (race : Scheduler) (self : t)
    (prompt : string) (options : option DebateOptions.t)
    : option (Outcome DebateResult.t) :=
  let maxRounds := maxRoundsOf self options in
  let threshold := thresholdOf self options in
  let providers := participantsOf self options in
  out ← debateLoop race self threshold maxRounds providers fuel
         {| prompt := prompt; rounds := []; agreement := 0%Q; round := 0 |};
  Some (st ← out;
        decision ← orThrow (synthesizeDecision (rounds st));
        Fulfilled
          {| DebateResult.decision := decision;
             DebateResult.rounds := rounds st;
             DebateResult.agreement := agreement st;
             DebateResult.participants := providers;
             DebateResult.confidence := agreement st |}).

(** The loop makes at most [maxRounds] turns, which is fuel enough (see
    [Debate.debate_total]). *)
Definition debate (race : Scheduler) (self : t) (prompt : string)
    (options : option DebateOptions.t) : option (Outcome DebateResult.t) :=
  debateWith (maxRoundsOf self options) race self prompt options.

Definition addProvider (self : t) (name : string)
    (config : ProviderConfig.t) : t :=
  {| config := Orchestra.config self;
     registry := ProviderRegistry.register name config (registry self) |}.

Definition removeProvider (self : t) (name : string) : t :=
  {| config := config self;
     registry := ProviderRegistry.remove name (registry self) |}.

Definition getProviders (self : t) : list string :=
  ProviderRegistry.list (registry self).

(** [healthCheck]: the [try] block for one provider, then the loop with
    its [catch]. *)
Definition probe (self : t) (provider : string) : Outcome bool :=
  match ProviderRegistry.get provider (registry self) with
  | Some p =>
      match IProvider.healthCheck p with
      | Some check => check
      | None => Fulfilled true
      end
  | None => Fulfilled true
  end.

(** [health[provider] = value] on the object literal [{}]: the key
    [__proto__] names the accessor that the object inherits, whose setter
    ignores a boolean, so that this one assignment adds no entry. *)
Definition setEntry (provider : string) (value : bool)
    (health : gmap string bool) : gmap string bool :=
  if decide (provider = "__proto__") then health
  else <[provider := value]> health.

Definition healthCheck (self : t) : Outcome (gmap string bool) :=
  Fulfilled
    (foldl (λ health provider,
              match probe self provider with
              | Fulfilled b => setEntry provider b health
              | Rejected _ => setEntry provider false health
              end)
           ∅ (ProviderRegistry.list (registry self))).

End Orchestra.

(** ** The agreement and the debate in double arithmetic

    [Orchestra.calculateAgreement] and the loop of [Orchestra.debate] read
    the code in exact arithmetic, which decides what does not depend on
    rounding.  These are the same methods with the numbers of the code:
    the similarities are doubles, they are added one by one, and the
    agreement is compared with the threshold as a double. *)
Module Float64.
Import Orchestra.

(** [calculateSimilarity] *)
Definition calculateSimilarity (a b : string) : float :=
  let wordsA := wordSet a in
  let wordsB := wordSet b in
  let intersection : gset string := filter (λ x, x ∈ wordsB) wordsA in
  let union := wordsA ∪ wordsB in
  if (0 <? size union)%nat
  then (Double.ofNat (size intersection) / Double.ofNat (size union))%float
  else 0%float.

(** [calculateAgreement]: the state of the two loops is
    [(totalSimilarity, comparisons)]; the counter [comparisons] is a
    [nat], which is the double it stands for as long as it is below
    2^53. *)
Definition compare (contents : list string) (i : nat)
    (st : float * nat) (j : nat) : float * nat :=
  match contents !! i, contents !! j with
  | Some a, Some b => ((st.1 + calculateSimilarity a b)%float, S st.2)
  | _, _ => st
  end.

Definition calculateAgreement (responses : list Response) : float :=
  if (length responses <=? 1)%nat then 1%float
  else
    let contents := map (λ r, Js.toLowerCase (content r)) responses in
    let '(totalSimilarity, comparisons) :=
      foldl (λ st i,
               foldl (compare contents i) st
                     (seq (S i) (length contents - S i)))
            (0%float, 0%nat) (seq 0 (length contents)) in
    if (0 <? comparisons)%nat
    then (totalSimilarity / Double.ofNat comparisons)%float
    else 0%float.

Module Round.
Record t := mk {
  round : nat;
  arguments : list Response;
  agreement : float
}.
End Round.

Module Result.
Record t := mk {
  decision : string;
  rounds : list Round.t;
  agreement : float;
  participants : list string;
  confidence : float
}.
End Result.

(** [buildDebatePrompt] and [synthesizeDecision] read the arguments of the
    rounds only. *)
Definition arguments (r : Round.t) : DebateRound.t :=
  DebateRound.mk (Round.round r) (Round.arguments r) 0 None.

(** The variables of the loop of [debate]. *)
Record Loop := mkLoop {
  prompt : string;
  rounds : list Round.t;
  agreement : float;
  round : nat
}.

(** One turn of the loop body. *)
Definition debateRound (race : Scheduler) (self : Orchestra.t)
    (threshold : float) (maxRounds : nat) (providers : list string)
    (st : Loop) : Outcome Loop :=
  let round := S (round st) in
  responses ←
    Promise_all race
      (map (λ p, query self (prompt st)
                   (Some (QueryOptions.mk (Some p) None None None)))
           providers);
  let agreement := calculateAgreement responses in
  let rounds := rounds st ++ [Round.mk round responses agreement] in
  prompt ←
    (if PrimFloat.ltb agreement threshold && (round <? maxRounds)%nat
     then orThrow (buildDebatePrompt (prompt st) (arguments <$> rounds))
     else Fulfilled (prompt st));
  Fulfilled {| prompt := prompt; rounds := rounds;
               agreement := agreement; round := round |}.

(** [while (agreement < threshold && round < maxRounds) { ... }], unrolled
    at most [fuel] times; [None] when the fuel does not suffice. *)
Fixpoint debateLoop (race : Scheduler) (self : Orchestra.t)
    (threshold : float) (maxRounds : nat) (providers : list string)
    (fuel : nat) (st : Loop) : option (Outcome Loop) :=
  if PrimFloat.ltb (agreement st) threshold && (round st <? maxRounds)%nat
  then
    match fuel with
    | 0 => None
    | S fuel' =>
        match debateRound race self threshold maxRounds providers st with
        | Fulfilled st' =>
            debateLoop race self threshold maxRounds providers fuel' st'
        | Rejected e => Some (Rejected e)
        end
    end
  else Some (Fulfilled st).

(** [options?.threshold || this.config.consensusThreshold || 0.7] *)
Definition thresholdOf (self : Orchestra.t) (options : option DebateOptions.t)
    : float :=
  Double.or (Double.ofQ <$> (options ≫= DebateOptions.threshold))
    (Double.or
       (Double.ofQ <$> OrchestraConfig.consensusThreshold (config self))
       Double.seven_tenths).

(** [debate]; the loop makes at most [maxRounds] turns, which is fuel
    enough. *)
Definition debate (race : Scheduler) (self : Orchestra.t) (prompt : string)
    (options : option DebateOptions.t) : option (Outcome Result.t) :=
  let maxRounds := maxRoundsOf self options in
  let threshold := thresholdOf self options in
  let providers := participantsOf self options in
  out ← debateLoop race self threshold maxRounds providers maxRounds
         {| prompt := prompt; rounds := []; agreement := 0%float;
            round := 0 |};
  Some (st ← out;
        decision ← orThrow (synthesizeDecision (arguments <$> rounds st));
        Fulfilled
          {| Result.decision := decision;
             Result.rounds := rounds st;
             Result.agreement := agreement st;
             Result.participants := providers;
             Result.confidence := agreement st |}).

End Float64.

(** * Properties *)

Local Open Scope nat_scope.

(** ** Lists *)

Lemma elem_of_concat {A} (ls : list (list A)) (x : A) :
  x ∈ concat ls ↔ ∃ l, l ∈ ls ∧ x ∈ l.
Proof.
  induction ls as [|l ls IH]; simpl.
  - split; [by intros ?%elem_of_nil|by intros (? & ?%elem_of_nil & _)].
  - rewrite elem_of_app, IH. split.
    + intros [H|(l' & H1 & H2)]; [exists l|exists l']; split;
        try done; by constructor.
    + intros (l' & [->|H1]%elem_of_cons & H2); [by left|right; eauto].
Qed.

Lemma filter_all {A} (P : A → Prop) `{!∀ x, Decision (P x)} (l : list A) :
  (∀ x, x ∈ l → P x) → filter P l = l.
Proof.
  induction l as [|x l IH]; intros Hall; [done|].
  rewrite filter_cons_True by (apply Hall; by left).
  f_equal. apply IH. intros y Hy. apply Hall. by right.
Qed.

Lemma filter_none {A} (P : A → Prop) `{!∀ x, Decision (P x)} (l : list A) :
  (∀ x, x ∈ l → ¬ P x) → filter P l = [].
Proof.
  induction l as [|x l IH]; intros Hall; [done|].
  rewrite filter_cons_False by (apply Hall; by left).
  apply IH. intros y Hy. apply Hall. by right.
Qed.

Lemma length_concat_elem {A} (ls : list (list A)) (l : list A) :
  l ∈ ls → length l ≤ length (concat ls).
Proof.
  induction ls as [|l' ls IH]; [by intros ?%elem_of_nil|].
  intros [->|Hl]%elem_of_cons; simpl; rewrite length_app; [lia|].
  apply IH in Hl. lia.
Qed.

(** Filtering the concatenation of [groups] with a predicate that rejects
    the whole of the group at index [k] and accepts the whole of every
    other group leaves the other groups. *)
Lemma filter_concat_others {A} (P : A → Prop) `{!∀ x, Decision (P x)}
    (groups : list (list A)) (k : nat) (g : list A) :
  groups !! k = Some g →
  (∀ x, x ∈ g → ¬ P x) →
  (∀ j h x, j ≠ k → groups !! j = Some h → x ∈ h → P x) →
  g ++ filter P (concat groups) ≡ₚ concat groups.
Proof.
  revert k. induction groups as [|h hs IH]; intros k Hk Hg Hothers.
  { by rewrite lookup_nil in Hk. }
  simpl. rewrite filter_app. destruct k as [|k]; simpl in Hk.
  - injection Hk as ->. rewrite (filter_none P g Hg). simpl.
    rewrite (filter_all P (concat hs)); [done|].
    intros x (h' & Hh' & Hx)%elem_of_concat.
    apply list_elem_of_lookup in Hh' as [j Hj].
    by apply (Hothers (S j) h' x).
  - rewrite (filter_all P h) by (intros x Hx; by apply (Hothers 0 h x)).
    rewrite (Permutation_app_swap_app g h). f_equiv.
    apply (IH k); [done..|].
    intros j h' x Hj Hh' Hx. apply (Hothers (S j) h' x); [lia|done..].
Qed.

(** ** Tokens *)

Lemma split_from_nonempty (s cur : string) (in_run : bool) :
  Js.split_from cur in_run s ≠ [].
Proof.
  revert cur in_run.
  induction s as [|c s IH]; intros cur in_run; simpl; [done|].
  destruct (Js.is_space c); [destruct in_run|]; auto.
Qed.

Lemma wordSet_nonempty (s : string) : wordSet s ≠ ∅.
Proof.
  unfold wordSet, Js.split_ws.
  pose proof (split_from_nonempty s EmptyString false) as H.
  destruct (Js.split_from EmptyString false s) as [|w ws]; [done|].
  simpl. set_solver.
Qed.

Lemma wordSet_size (s : string) : 0 < size (wordSet s).
Proof.
  pose proof (wordSet_nonempty s) as H.
  destruct (decide (size (wordSet s) = 0)) as [Hz|]; [|lia].
  apply size_empty_iff in Hz. by apply leibniz_equiv in Hz.
Qed.

(** ** Rationals *)

Lemma Qltb_lt (a b : Q) : Qltb a b = true ↔ (a < b)%Q.
Proof.
  unfold Qltb. rewrite negb_true_iff, <- not_true_iff_false, Qle_bool_iff.
  split; [apply Qnot_le_lt|apply Qlt_not_le].
Qed.

Lemma Qnat_pos (n : nat) : 0 < n → (0 < Qnat n)%Q.
Proof. intros H. unfold Qnat, Qlt. simpl. lia. Qed.

Lemma Qnat_nonneg (n : nat) : (0 <= Qnat n)%Q.
Proof. unfold Qnat, Qle. simpl. lia. Qed.

Lemma Qnat_le (m n : nat) : m ≤ n → (Qnat m <= Qnat n)%Q.
Proof. intros H. unfold Qnat, Qle. simpl. lia. Qed.

Lemma Qnat_div_same (n : nat) : 0 < n → (Qnat n / Qnat n == 1)%Q.
Proof.
  intros H. apply Qmult_inv_r. intros E.
  pose proof (Qnat_pos n H) as P. rewrite E in P. by apply Qlt_irrefl in P.
Qed.

(** A ratio of sizes [m / n] with [m ≤ n] and [0 < n] lies in [0, 1]. *)
Lemma Qnat_ratio_bounds (m n : nat) :
  m ≤ n → 0 < n → (0 <= Qnat m / Qnat n)%Q ∧ (Qnat m / Qnat n <= 1)%Q.
Proof.
  intros Hmn Hn. pose proof (Qnat_pos n Hn) as P. split.
  - apply Qle_shift_div_l; [done|]. rewrite Qmult_0_l. apply Qnat_nonneg.
  - apply Qle_shift_div_r; [done|]. rewrite Qmult_1_l. by apply Qnat_le.
Qed.

(** ** Similarity *)

Lemma filter_elem_of_intersection (A B : gset string) :
  filter (λ x, x ∈ B) A = A ∩ B.
Proof.
  apply set_eq. intros x. rewrite elem_of_filter, elem_of_intersection. tauto.
Qed.

Lemma union_size_pos (s1 s2 : string) : 0 < size (wordSet s1 ∪ wordSet s2).
Proof.
  pose proof (wordSet_size s1) as H.
  pose proof (subseteq_size (wordSet s1) (wordSet s1 ∪ wordSet s2)
                (union_subseteq_l _ _)). lia.
Qed.

Lemma similarity_jaccard (a b : Response) :
  ConsensusEngine.similarity a b = jaccard (wordsOf a) (wordsOf b).
Proof.
  unfold ConsensusEngine.similarity, jaccard, wordsOf.
  rewrite filter_elem_of_intersection.
  pose proof (union_size_pos (Js.toLowerCase (content a))
                             (Js.toLowerCase (content b))) as H.
  apply Nat.ltb_lt in H. rewrite H.
  rewrite decide_False; [done|].
  intros [E _]. by apply wordSet_nonempty in E.
Qed.

Lemma jaccard_same (A : gset string) : A ≠ ∅ → (jaccard A A == 1)%Q.
Proof.
  intros H. unfold jaccard. rewrite decide_False by tauto.
  replace (A ∩ A) with A by (apply set_eq; intros x; rewrite elem_of_intersection; tauto).
  replace (A ∪ A) with A by (apply set_eq; intros x; rewrite elem_of_union; tauto).
  apply Qnat_div_same.
  destruct (decide (size A = 0)) as [Hz|]; [|lia].
  apply size_empty_iff in Hz. by apply leibniz_equiv in Hz.
Qed.

Lemma similarity_same_words (a b : Response) :
  wordsOf a = wordsOf b → (ConsensusEngine.similarity a b == 1)%Q.
Proof.
  intros E. rewrite similarity_jaccard, E. apply jaccard_same.
  apply wordSet_nonempty.
Qed.

Lemma areSimilar_same_words (a b : Response) :
  wordsOf a = wordsOf b → ConsensusEngine.areSimilar a b = true.
Proof.
  intros E. unfold ConsensusEngine.areSimilar. apply Qltb_lt.
  rewrite (similarity_same_words a b E). reflexivity.
Qed.

(** [areSimilar] reads the two responses through their token sets only. *)
Lemma areSimilar_words (a a' b b' : Response) :
  wordsOf a = wordsOf a' → wordsOf b = wordsOf b' →
  ConsensusEngine.areSimilar a b = ConsensusEngine.areSimilar a' b'.
Proof.
  intros Ea Eb. unfold ConsensusEngine.areSimilar.
  by rewrite !similarity_jaccard, Ea, Eb.
Qed.

Lemma areSimilar_sym (a b : Response) :
  ConsensusEngine.areSimilar a b = ConsensusEngine.areSimilar b a.
Proof.
  unfold ConsensusEngine.areSimilar. rewrite !similarity_jaccard.
  unfold jaccard.
  replace (wordsOf b ∩ wordsOf a) with (wordsOf a ∩ wordsOf b)
    by (apply set_eq; intros x; rewrite !elem_of_intersection; tauto).
  replace (wordsOf b ∪ wordsOf a) with (wordsOf a ∪ wordsOf b)
    by (apply set_eq; intros x; rewrite !elem_of_union; tauto).
  destruct (decide (wordsOf a = ∅ ∧ wordsOf b = ∅)),
           (decide (wordsOf b = ∅ ∧ wordsOf a = ∅)); tauto.
Qed.

Module Grouping.
Import ConsensusEngine.

(** The responses at indices [k], [k+1], ... that are not yet in [used],
    where [l] is the part of the array that starts at index [k]. *)
Fixpoint unusedFrom (used : gset nat) (k : nat) (l : list Obj) : list Obj :=
  match l with
  | [] => []
  | x :: t =>
      if decide (k ∈ used) then unusedFrom used (S k) t
      else x :: unusedFrom used (S k) t
  end.

Lemma unusedFrom_ext (U U' : gset nat) (k : nat) (l : list Obj) :
  (∀ m, k ≤ m → m ∈ U ↔ m ∈ U') →
  unusedFrom U k l = unusedFrom U' k l.
Proof.
  revert k. induction l as [|x t IH]; intros k H; simpl; [done|].
  rewrite (IH (S k)) by (intros m Hm; apply H; lia).
  destruct (decide (k ∈ U)) as [Hk|Hk], (decide (k ∈ U')) as [Hk'|Hk'];
    try done; apply H in Hk || apply H in Hk'; try done; lia.
Qed.

Lemma unusedFrom_empty (l : list Obj) (k : nat) : unusedFrom ∅ k l = l.
Proof.
  revert k. induction l as [|x t IH]; intros k; simpl; [done|].
  rewrite IH. destruct (decide (k ∈ (∅ : gset nat))) as [H|]; [|done].
  by apply not_elem_of_empty in H.
Qed.

(** The inner loop, started at index [k] on the rest [l] of the array. *)
Lemma absorb_loop (seed : Obj) (l : list Obj) :
  ∀ (k : nat) (pre group : list Obj) (used : gset nat),
    length pre = k →
    ∃ used',
      foldl (absorb (pre ++ l) seed) (group, used) (seq k (length l))
        = (group ++ filter (λ r : Obj, areSimilar seed r) (unusedFrom used k l),
           used')
      ∧ unusedFrom used' k l
          = filter (λ r : Obj, ¬ areSimilar seed r) (unusedFrom used k l)
      ∧ (∀ m, m < k → m ∈ used' ↔ m ∈ used).
Proof.
  induction l as [|x t IH]; intros k pre group used Hk; simpl.
  { exists used. rewrite filter_nil, app_nil_r. done. }
  assert (Hx : ((pre ++ x :: t) !! k : option Obj) = Some x).
  { rewrite lookup_app_r by lia. by replace (k - length pre) with 0 by lia. }
  assert (Hpre : pre ++ x :: t = (pre ++ [x]) ++ t) by by rewrite <- app_assoc.
  assert (Hlen : length (pre ++ [x]) = S k) by (rewrite length_app; simpl; lia).
  destruct (decide (k ∈ used)) as [Hin|Hin].
  - rewrite Hpre.
    destruct (IH (S k) (pre ++ [x]) group used Hlen) as (u' & E & F & G).
    exists u'. rewrite E. split_and!; [done| |intros m Hm; apply G; lia].
    rewrite decide_True by (apply G; [lia|done]). done.
  - rewrite Hx. destruct (areSimilar seed x) eqn:Hs.
    + rewrite Hpre.
      destruct (IH (S k) (pre ++ [x]) (group ++ [x]) ({[k]} ∪ used) Hlen)
        as (u' & E & F & G).
      assert (Hu : unusedFrom ({[k]} ∪ used) (S k) t = unusedFrom used (S k) t).
      { apply unusedFrom_ext. intros m Hm.
        rewrite elem_of_union, elem_of_singleton. intuition lia. }
      rewrite Hu in E, F.
      exists u'. rewrite E. split_and!.
      * rewrite filter_cons_True by by rewrite Hs. by rewrite <- app_assoc.
      * rewrite decide_True
          by (apply G; [lia|]; apply elem_of_union_l; by apply elem_of_singleton).
        rewrite filter_cons_False; [done|]. rewrite Hs. by intros H; apply H.
      * intros m Hm. rewrite G by lia.
        rewrite elem_of_union, elem_of_singleton. intuition lia.
    + rewrite Hpre.
      destruct (IH (S k) (pre ++ [x]) group used Hlen) as (u' & E & F & G).
      exists u'. rewrite E. split_and!.
      * rewrite filter_cons_False; [done|]. rewrite Hs. intros [].
      * rewrite decide_False by (intros Hk'; apply G in Hk'; [done|lia]).
        rewrite filter_cons_True by (rewrite Hs; intros []). by rewrite F.
      * intros m Hm. apply G. lia.
Qed.

(** The outer loop, started at index [k] on the rest [l] of the array. *)
Lemma openGroup_loop (l : list Obj) :
  ∀ (k : nat) (pre : list Obj) (groups : list (list Obj)) (used : gset nat),
    length pre = k →
    (foldl (openGroup (pre ++ l)) (groups, used) (seq k (length l))).1
      = groups ++ greedyGroups (unusedFrom used k l).
Proof.
  induction l as [|x t IH]; intros k pre groups used Hk.
  { simpl. simp greedyGroups. by rewrite app_nil_r. }
  assert (Hx : ((pre ++ x :: t) !! k : option Obj) = Some x).
  { rewrite lookup_app_r by lia. by replace (k - length pre) with 0 by lia. }
  assert (Hpre : pre ++ x :: t = (pre ++ [x]) ++ t) by by rewrite <- app_assoc.
  assert (Hlen : length (pre ++ [x]) = S k) by (rewrite length_app; simpl; lia).
  cbn [length seq foldl unusedFrom].
  destruct (decide (k ∈ used)) as [Hin|Hin].
  - assert (Hstep : openGroup (pre ++ x :: t) (groups, used) k = (groups, used)).
    { unfold openGroup. by rewrite decide_True. }
    rewrite Hstep, Hpre. by apply IH.
  - destruct (absorb_loop x t (S k) (pre ++ [x]) [x] ({[k]} ∪ used) Hlen)
      as (u' & E & F & G).
    assert (Hu : unusedFrom ({[k]} ∪ used) (S k) t = unusedFrom used (S k) t).
    { apply unusedFrom_ext. intros m Hm.
      rewrite elem_of_union, elem_of_singleton. intuition lia. }
    rewrite Hu in E, F.
    assert (Hstep : openGroup (pre ++ x :: t) (groups, used) k
                    = (groups ++ [[x] ++ filter (λ r : Obj, areSimilar x r)
                                               (unusedFrom used (S k) t)], u')).
    { unfold openGroup. rewrite decide_False by done. rewrite Hx.
      replace (length (pre ++ x :: t) - S k) with (length t)
        by (rewrite length_app; simpl; lia).
      rewrite Hpre, E. done. }
    rewrite Hstep, Hpre, (IH (S k) (pre ++ [x]) _ u' Hlen), F.
    simp greedyGroups. by rewrite <- app_assoc.
Qed.

(** The two loops compute the greedy grouping. *)
Lemma groupSimilarResponses_greedy (responses : list Obj) :
  groupSimilarResponses responses = greedyGroups responses.
Proof.
  unfold groupSimilarResponses.
  rewrite (openGroup_loop responses 0 [] [] ∅ eq_refl).
  by rewrite unusedFrom_empty.
Qed.

(** Induction along the recursion of [greedyGroups]. *)
Lemma greedyGroups_ind (P : list Obj → list (list Obj) → Prop) :
  P [] [] →
  (∀ (s : Obj) (t : list Obj),
     let rest := filter (λ r : Obj, ¬ areSimilar s r) t in
     P rest (greedyGroups rest) →
     P (s :: t) ((s :: filter (λ r : Obj, areSimilar s r) t)
                   :: greedyGroups rest)) →
  ∀ l, P l (greedyGroups l).
Proof.
  intros Hnil Hcons l.
  assert (H : ∀ n l, length l ≤ n → P l (greedyGroups l)).
  { clear l. induction n as [|n IH]; intros [|s t] Hl; simpl in Hl;
      simp greedyGroups; try done; try lia.
    apply Hcons, IH.
    pose proof (length_filter (λ r : Obj, ¬ areSimilar s r) t). lia. }
  by apply (H (length l)).
Qed.

Lemma areSimilar_refl (x : Response) : areSimilar x x = true.
Proof. by apply areSimilar_same_words. Qed.

(** The groups hold every response once. *)
Lemma greedyGroups_perm (l : list Obj) : concat (greedyGroups l) ≡ₚ l.
Proof.
  apply (greedyGroups_ind (λ l gs, concat gs ≡ₚ l)); [done|].
  intros s t rest IH. simpl. rewrite IH. constructor.
  apply filter_app_complement.
Qed.

Lemma greedyGroups_elem (l : list Obj) (g : list Obj) (r : Obj) :
  g ∈ greedyGroups l → r ∈ g → r ∈ l.
Proof.
  intros Hg Hr. rewrite <- (greedyGroups_perm l).
  apply elem_of_concat. eauto.
Qed.

(** A group is its seed followed by responses similar to the seed. *)
Lemma greedyGroups_seed (l : list Obj) (g : list Obj) :
  g ∈ greedyGroups l →
  ∃ seed rest, g = seed :: rest ∧ ∀ r : Obj, r ∈ g → areSimilar seed r = true.
Proof.
  apply (greedyGroups_ind
           (λ _ gs, g ∈ gs → ∃ seed rest, g = seed :: rest
                      ∧ ∀ r : Obj, r ∈ g → areSimilar seed r = true)).
  { by intros ?%elem_of_nil. }
  intros s t rest IH [->|Hg]%elem_of_cons; [|by apply IH].
  eexists _, _. split; [done|].
  intros r [->|Hr]%elem_of_cons; [apply areSimilar_refl|].
  apply list_elem_of_filter in Hr as [Hr _]. by apply Is_true_true in Hr.
Qed.

(** No response is in two groups. *)
Lemma greedyGroups_unique (l : list Obj) (i j : nat) (g h : list Obj) (r : Obj) :
  greedyGroups l !! i = Some g → greedyGroups l !! j = Some h →
  r ∈ g → r ∈ h → i = j.
Proof.
  revert i j.
  apply (greedyGroups_ind
           (λ l gs, ∀ i j, gs !! i = Some g → gs !! j = Some h →
                           r ∈ g → r ∈ h → i = j)).
  { intros i j H. by rewrite lookup_nil in H. }
  intros s t rest IH i j Hi Hj Hg Hh.
  assert (Hfirst : ∀ (g' h' : list Obj) n,
             r ∈ (s :: filter (λ r : Obj, areSimilar s r) t) →
             greedyGroups rest !! n = Some h' → r ∈ h' → False).
  { intros _ h' n Hr Hn Hr'.
    assert (Hs : areSimilar s r = true).
    { apply elem_of_cons in Hr as [->|Hr]; [apply areSimilar_refl|].
      apply list_elem_of_filter in Hr as [Hr _]. by apply Is_true_true in Hr. }
    assert (Hrest : r ∈ rest).
    { apply (greedyGroups_elem rest h'); [|done].
      apply list_elem_of_lookup. eauto. }
    apply list_elem_of_filter in Hrest as [Hn' _].
    apply Hn'. by rewrite Hs. }
  destruct i as [|i], j as [|j]; simpl in Hi, Hj.
  - done.
  - injection Hi as <-. exfalso. by apply (Hfirst h h j).
  - injection Hj as <-. exfalso. by apply (Hfirst g g i).
  - f_equal. by apply IH.
Qed.

(** Responses with the same token set are in the same group. *)
Lemma greedyGroups_same_words (l : list Obj) (x y : Obj) :
  wordsOf x = wordsOf y → x ∈ l → y ∈ l →
  ∃ g, g ∈ greedyGroups l ∧ x ∈ g ∧ y ∈ g.
Proof.
  intros E.
  apply (greedyGroups_ind
           (λ l gs, x ∈ l → y ∈ l → ∃ g, g ∈ gs ∧ x ∈ g ∧ y ∈ g)).
  { by intros ?%elem_of_nil. }
  intros s t rest IH Hx Hy.
  assert (Hsim : areSimilar s x = areSimilar s y) by by apply areSimilar_words.
  assert (Hin : ∀ z : Obj, z ∈ s :: t → areSimilar s z = true →
                  z ∈ s :: filter (λ r : Obj, areSimilar s r) t).
  { intros z [->|Hz]%elem_of_cons Hs; [left|right].
    apply list_elem_of_filter. split; [by rewrite Hs|done]. }
  assert (Hout : ∀ z : Obj, z ∈ s :: t → areSimilar s z = false → z ∈ rest).
  { intros z [->|Hz]%elem_of_cons Hs.
    - by rewrite areSimilar_refl in Hs.
    - apply list_elem_of_filter. split; [by rewrite Hs; intros []|done]. }
  destruct (areSimilar s y) eqn:Hsy.
  - eexists. split; [left|]. split; by apply Hin.
  - destruct IH as (g & Hg & Hgx & Hgy); [by apply Hout..|].
    exists g. split; [by right|done].
Qed.

(** A group keeps the order of the array. *)
Lemma greedyGroups_sublist (l g : list Obj) :
  g ∈ greedyGroups l → g `sublist_of` l.
Proof.
  apply (greedyGroups_ind (λ l gs, g ∈ gs → g `sublist_of` l)).
  { by intros ?%elem_of_nil. }
  intros s t rest IH [->|Hg]%elem_of_cons.
  - apply sublist_skip, sublist_filter.
  - apply sublist_cons. etrans; [by apply IH|apply sublist_filter].
Qed.

(** ** The grouping reads the contents only *)

Definition sameContent (x y : Obj) : Prop := content x = content y.

Lemma filter_Forall2 {A} (R : A → A → Prop) (P Q : A → Prop)
    `{!∀ x, Decision (P x)} `{!∀ x, Decision (Q x)} (l l' : list A) :
  (∀ x y, R x y → P x ↔ Q y) →
  Forall2 R l l' → Forall2 R (filter P l) (filter Q l').
Proof.
  intros HPQ. induction 1 as [|x y l l' Hxy _ IH]; [constructor|].
  destruct (decide (P x)) as [HP|HP].
  - rewrite (filter_cons_True P) by done.
    rewrite (filter_cons_True Q) by by apply (HPQ x y).
    by constructor.
  - rewrite (filter_cons_False P) by done.
    rewrite (filter_cons_False Q); [done|].
    intros HQ. by apply HP, (HPQ x y).
Qed.

Lemma areSimilar_sameContent (s s' x y : Obj) :
  sameContent s s' → sameContent x y → areSimilar s x = areSimilar s' y.
Proof.
  unfold sameContent. intros E1 E2.
  apply areSimilar_words; unfold wordsOf; congruence.
Qed.

Lemma greedyGroups_sameContent (l l' : list Obj) :
  Forall2 sameContent l l' →
  Forall2 (Forall2 sameContent) (greedyGroups l) (greedyGroups l').
Proof.
  revert l'.
  apply (greedyGroups_ind
           (λ l gs, ∀ l', Forall2 sameContent l l' →
                          Forall2 (Forall2 sameContent) gs (greedyGroups l'))).
  { intros l' ->%Forall2_nil_inv_l. simp greedyGroups. constructor. }
  intros s t rest IH l' (s' & t' & Hs & Ht & ->)%Forall2_cons_inv_l.
  simp greedyGroups. constructor.
  - constructor; [done|]. apply filter_Forall2; [|done].
    intros x y Hxy. by rewrite (areSimilar_sameContent s s' x y).
  - apply IH, filter_Forall2; [|done].
    intros x y Hxy. by rewrite (areSimilar_sameContent s s' x y).
Qed.

Lemma largest_sameContent (gs gs' : list (list Obj)) :
  Forall2 (Forall2 sameContent) gs gs' →
  option_Forall2 (Forall2 sameContent) (largest gs) (largest gs').
Proof.
  intros [|g g' hs hs' Hg Hhs]; simpl; constructor.
  revert g g' Hg. induction Hhs as [|h h' hs hs' Hh _ IH]; intros g g' Hg; [done|].
  simpl. apply IH.
  rewrite (Forall2_length _ _ _ Hg), (Forall2_length _ _ _ Hh).
  by destruct (length g' <? length h').
Qed.

(** ** The majority group *)

Lemma largest_spec (groups : list (list Obj)) (m : list Obj) :
  largest groups = Some m →
  ∃ k, groups !! k = Some m
       ∧ (∀ j g, groups !! j = Some g → length g ≤ length m)
       ∧ (∀ j g, j < k → groups !! j = Some g → length g < length m).
Proof.
  destruct groups as [|g0 gs]; [done|]. simpl. intros [= <-].
  induction gs as [|g gs IH] using rev_ind.
  { exists 0. simpl. split_and!; [done| |intros; lia].
    intros [|j] g; simpl; [by intros [= <-]|by rewrite lookup_nil]. }
  destruct IH as (k & Hk & Hmax & Hfirst).
  rewrite foldl_snoc.
  set (m := foldl (λ max group : list Obj,
                     if length max <? length group then group else max)
                  g0 gs) in *.
  assert (Hlk : k < length (g0 :: gs)) by by eapply lookup_lt_Some.
  destruct (length m <? length g) eqn:Hlt.
  - apply Nat.ltb_lt in Hlt. exists (length (g0 :: gs)).
    rewrite app_comm_cons. split_and!.
    + by rewrite lookup_app_r, Nat.sub_diag.
    + intros j h Hj. apply lookup_snoc_Some in Hj as [[_ Hj]|[_ <-]]; [|lia].
      apply Hmax in Hj. lia.
    + intros j h Hjk Hj. rewrite lookup_app_l in Hj by done.
      apply Hmax in Hj. lia.
  - apply Nat.ltb_ge in Hlt. exists k. rewrite app_comm_cons. split_and!.
    + by rewrite lookup_app_l.
    + intros j h Hj. apply lookup_snoc_Some in Hj as [[_ Hj]|[_ <-]]; [|lia].
      by apply Hmax in Hj.
    + intros j h Hjk Hj. rewrite lookup_app_l in Hj by lia.
      by apply (Hfirst j).
Qed.

Lemma largest_greedy (responses : list Obj) :
  responses ≠ [] → is_Some (largest (greedyGroups responses)).
Proof.
  destruct responses as [|s t]; [done|]. intros _.
  simp greedyGroups. by eexists.
Qed.

Lemma includes_spec (group : list Obj) (r : Obj) :
  includes group r ↔ ∃ x, x ∈ group ∧ oid x = oid r.
Proof.
  unfold includes. rewrite Is_true_true, existsb_exists.
  split; intros (x & Hx & E); exists x.
  - apply list_elem_of_In in Hx. by apply Nat.eqb_eq in E.
  - apply list_elem_of_In in Hx. split; [done|]. by apply Nat.eqb_eq.
Qed.

(** Every object has one identity: two references with the same [oid]
    are the same reference. *)
Definition identified (responses : list Obj) : Prop :=
  ∀ a b : Obj, a ∈ responses → b ∈ responses → oid a = oid b → a = b.

Lemma majority_group (responses : list Obj) :
  responses ≠ [] →
  ∃ (k : nat) (seed : Obj) (rest : list Obj),
    let groups := groupSimilarResponses responses in
    let majorityGroup := seed :: rest in
    groups !! k = Some majorityGroup
    ∧ largest groups = Some majorityGroup
    ∧ (∀ j g, groups !! j = Some g → length g ≤ length majorityGroup)
    ∧ (∀ j g, j < k → groups !! j = Some g → length g < length majorityGroup)
    ∧ length majorityGroup ≤ length responses.
Proof.
  intros Hne. rewrite groupSimilarResponses_greedy.
  destruct (largest_greedy responses Hne) as [m Hm].
  destruct (largest_spec _ _ Hm) as (k & Hk & Hmax & Hfirst).
  assert (Hin : m ∈ greedyGroups responses) by (apply list_elem_of_lookup; eauto).
  destruct (greedyGroups_seed responses m Hin) as (seed & rest & -> & _).
  exists k, seed, rest. simpl. split_and!; try done.
  rewrite <- (greedyGroups_perm responses).
  by apply (length_concat_elem _ (seed :: rest)).
Qed.

(** The responses that [largestGroup.includes] rejects are the responses
    of the other groups. *)
Lemma dissent_partition (responses : list Obj) (k : nat) (maj : list Obj) :
  identified responses →
  groupSimilarResponses responses !! k = Some maj →
  let dis := filter (λ r : Obj, ¬ includes maj r) responses in
  maj ++ dis ≡ₚ responses
  ∧ (∀ r : Obj, r ∈ dis ↔ r ∈ responses ∧ r ∉ maj).
Proof.
  intros Hid Hk dis. rewrite groupSimilarResponses_greedy in Hk.
  assert (Hin : maj ∈ greedyGroups responses) by (apply list_elem_of_lookup; eauto).
  assert (Hinc : ∀ r : Obj, r ∈ responses → includes maj r ↔ r ∈ maj).
  { intros r Hr. rewrite includes_spec. split; [|by eauto].
    intros (x & Hx & E).
    by rewrite <- (Hid x r (greedyGroups_elem _ _ _ Hin Hx) Hr E). }
  split.
  - unfold dis. etrans; [|apply greedyGroups_perm].
    rewrite <- (greedyGroups_perm responses) at 1.
    apply (filter_concat_others _ _ k); [done|..].
    + intros x Hx Hn. apply Hn, Hinc; [|done].
      by apply (greedyGroups_elem _ maj).
    + intros j h x Hj Hh Hx Hinc'.
      assert (Hh' : h ∈ greedyGroups responses) by (apply list_elem_of_lookup; eauto).
      apply Hinc in Hinc'; [|by apply (greedyGroups_elem _ h)].
      apply Hj. by apply (greedyGroups_unique responses j k h maj x).
  - intros r. unfold dis. rewrite list_elem_of_filter. split.
    + intros [Hn Hr]. split; [done|]. intros Hm. by apply Hn, Hinc.
    + intros [Hr Hn]. split; [|done]. intros Hm. by apply Hn, Hinc.
Qed.

End Grouping.


(** ** [Promise.all] *)

Lemma elem_of_rejections {A} (ps : list (Outcome A)) (e : Thrown) :
  e ∈ rejections ps ↔ Rejected e ∈ ps.
Proof.
  unfold rejections. rewrite list_elem_of_omap. split.
  - intros ([v|e'] & Hin & E); [done|]. by injection E as ->.
  - intros Hin. by exists (Rejected e).
Qed.

Lemma rejections_nil_values {A} (ps : list (Outcome A)) :
  rejections ps = [] → ps = Fulfilled <$> values ps.
Proof.
  induction ps as [|[v|e] ps IH]; simpl; intros H; [done| |done].
  f_equal. by apply IH.
Qed.

Lemma Promise_all_Fulfilled {A} (race : Scheduler) (ps : list (Outcome A))
    (vs : list A) :
  Promise_all race ps = Fulfilled vs ↔ ps = Fulfilled <$> vs.
Proof.
  unfold Promise_all. split.
  - destruct (rejections ps) eqn:E; [|done]. intros [= <-].
    by apply rejections_nil_values.
  - intros ->. replace (rejections (Fulfilled <$> vs)) with (@nil Thrown)
      by (induction vs; simpl; done).
    f_equal. induction vs; simpl; [done|by f_equal].
Qed.

Lemma Promise_all_Rejected {A} (race : Scheduler) (ps : list (Outcome A))
    (e : Thrown) :
  picks race → Promise_all race ps = Rejected e → Rejected e ∈ ps.
Proof.
  intros Hrace. unfold Promise_all.
  destruct (rejections ps) as [|e0 es] eqn:E; [done|]. intros [= <-].
  apply elem_of_rejections. rewrite E. by apply Hrace.
Qed.

Lemma Promise_all_rejects {A} (race : Scheduler) (ps : list (Outcome A))
    (e0 : Thrown) :
  Rejected e0 ∈ ps → ∃ e, Promise_all race ps = Rejected e.
Proof.
  intros Hin%elem_of_rejections. unfold Promise_all.
  destruct (rejections ps); [by apply elem_of_nil in Hin|by eexists].
Qed.

Lemma elem_of_imap {A B} (f : nat → A → B) (l : list A) (y : B) :
  y ∈ imap f l ↔ ∃ i x, l !! i = Some x ∧ y = f i x.
Proof.
  rewrite list_elem_of_lookup. split.
  - intros [i Hi]. rewrite list_lookup_imap in Hi.
    destruct (l !! i) as [x|] eqn:E; [|done]. injection Hi as <-. eauto.
  - intros (i & x & Hi & ->). exists i. by rewrite list_lookup_imap, Hi.
Qed.

(** ** The fan-out of [buildConsensus] *)

Module Fanout.
Import ConsensusEngine.

(** The scheduler that lets the first call of the array win. *)
Definition firstOf : Scheduler := λ es, default TypeError (head es).

Lemma firstOf_picks : picks firstOf.
Proof. intros [|e es] H; [done|]. by left. Qed.

Lemma callProvider_Rejected (registry : ProviderRegistry.t) (prompt : string)
    (i : nat) (name : string) (e : Thrown) :
  callProvider registry prompt i name = Rejected e
  ↔ (ProviderRegistry.get name registry = None
     ∧ e = Error ("Provider " +:+ name +:+ " not found"))
    ∨ (∃ p, ProviderRegistry.get name registry = Some p
            ∧ IProvider.complete p prompt None = Rejected e).
Proof.
  unfold callProvider.
  destruct (ProviderRegistry.get name registry) as [p|].
  - destruct (IProvider.complete p prompt None) as [v|e'] eqn:E; simpl.
    + split; [done|]. intros [[? _]|(p' & ? & H)]; [done|]. congruence.
    + split.
      * intros [= ->]. right. eauto.
      * intros [[? _]|(p' & ? & H)]; [done|]. congruence.
  - split.
    + intros [= <-]. by left.
    + intros [[_ ->]|(p' & ? & _)]; done.
Qed.

(** Without a rejection the call is fulfilled. *)
Lemma buildConsensus_Fulfilled (race : Scheduler)
    (registry : ProviderRegistry.t) (prompt : string)
    (options : option ConsensusOptions.t) :
  let names := providerNamesOf registry options in
  names ≠ [] →
  (∀ e, Rejected e ∉ imap (callProvider registry prompt) names) →
  ∃ r, buildConsensus race registry prompt options = Fulfilled r
       ∧ providers r = names.
Proof.
  intros names Hne Hnone. unfold buildConsensus. fold names.
  assert (Hl : length names ≠ 0) by by intros ?%length_zero_iff_nil.
  rewrite (proj2 (Nat.eqb_neq _ _) Hl).
  set (calls := imap (callProvider registry prompt) names) in *.
  assert (Hrej : rejections calls = []).
  { destruct (rejections calls) as [|e es] eqn:E; [done|].
    destruct (Hnone e). apply elem_of_rejections. rewrite E. by left. }
  unfold getResponses, Promise_all. fold calls. rewrite Hrej. simpl.
  assert (Hlen : values calls ≠ []).
  { apply rejections_nil_values in Hrej.
    intros E. rewrite E in Hrej. apply (f_equal length) in Hrej.
    unfold calls in Hrej. by rewrite length_imap in Hrej. }
  destruct (Grouping.majority_group _ Hlen)
    as (k & seed & rest & _ & Hlargest & _).
  unfold calculateConsensus. rewrite Hlargest. simpl. by eexists.
Qed.

(** The responses that [getResponses] collects are objects of their own:
    the one at position [i] has the identity [i]. *)
Lemma getResponses_identified (registry : ProviderRegistry.t)
    (prompt : string) (names : list string) (responses : list Obj) :
  imap (callProvider registry prompt) names = Fulfilled <$> responses →
  length responses = length names ∧ Grouping.identified responses.
Proof.
  intros E.
  assert (Hlen : length responses = length names).
  { apply (f_equal length) in E. by rewrite length_imap, length_fmap in E. }
  split; [done|].
  assert (Hoid : ∀ i (x : Obj), responses !! i = Some x → oid x = i).
  { intros i x Hx.
    assert (Hi : imap (callProvider registry prompt) names !! i
                 = Some (Fulfilled x)) by by rewrite E, list_lookup_fmap, Hx.
    rewrite list_lookup_imap in Hi.
    destruct (names !! i) as [name|]; [|done]. simpl in Hi.
    injection Hi as Hi. unfold callProvider in Hi.
    destruct (ProviderRegistry.get name registry) as [p|]; [|done].
    destruct (IProvider.complete p prompt None) as [v|e]; [|done].
    simpl in Hi. by injection Hi as <-. }
  intros a b [i Hi]%list_elem_of_lookup [j Hj]%list_elem_of_lookup Hab.
  apply Hoid in Hi as Ei. apply Hoid in Hj as Ej.
  assert (i = j) by congruence. congruence.
Qed.

(** A fulfilled call returns what [calculateConsensus] makes of the
    responses of the providers asked, in the order of their names. *)
Lemma buildConsensus_inv (race : Scheduler) (registry : ProviderRegistry.t)
    (prompt : string) (options : option ConsensusOptions.t)
    (r : ConsensusResult) :
  buildConsensus race registry prompt options = Fulfilled r →
  ∃ responses,
    imap (callProvider registry prompt) (providerNamesOf registry options)
      = Fulfilled <$> responses
    ∧ responses ≠ []
    ∧ Grouping.identified responses
    ∧ calculateConsensus responses
        (default democratic (options ≫= ConsensusOptions.mode)) options
      = Some (consensus r)
    ∧ providers r = providerNamesOf registry options
    ∧ rounds r = 1.
Proof.
  unfold buildConsensus. set (names := providerNamesOf registry options).
  destruct (length names =? 0) eqn:El; [done|]. apply Nat.eqb_neq in El.
  unfold getResponses.
  destruct (Promise_all race _) as [responses|e] eqn:Hall; simpl; [|done].
  apply Promise_all_Fulfilled in Hall.
  destruct (getResponses_identified _ _ _ _ Hall) as [Hlen Hid].
  destruct (calculateConsensus responses _ options) as [c|] eqn:Hc; simpl;
    [|done].
  intros [= <-]. exists responses. split_and!; try done.
  intros ->. simpl in Hlen. lia.
Qed.

(** When every provider asked answers, the call is fulfilled with what
    [calculateConsensus] makes of the answers. *)
Lemma buildConsensus_of (race : Scheduler) (registry : ProviderRegistry.t)
    (prompt : string) (options : option ConsensusOptions.t)
    (responses : list Obj) :
  imap (callProvider registry prompt) (providerNamesOf registry options)
    = Fulfilled <$> responses →
  responses ≠ [] →
  ∃ r,
    buildConsensus race registry prompt options = Fulfilled r
    ∧ Grouping.identified responses
    ∧ calculateConsensus responses
        (default democratic (options ≫= ConsensusOptions.mode)) options
      = Some (consensus r)
    ∧ providers r = providerNamesOf registry options.
Proof.
  intros Hcalls Hne.
  destruct (getResponses_identified _ _ _ _ Hcalls) as [Hlen Hid].
  unfold buildConsensus. set (names := providerNamesOf registry options) in *.
  assert (Hl : length names ≠ 0).
  { rewrite <- Hlen. by intros ?%length_zero_iff_nil. }
  rewrite (proj2 (Nat.eqb_neq _ _) Hl). unfold getResponses.
  rewrite (proj2 (Promise_all_Fulfilled race _ responses) Hcalls).
  cbn [mbind Outcome_bind].
  destruct (Grouping.majority_group _ Hne)
    as (k & seed & rest & _ & Hlargest & _).
  unfold calculateConsensus. rewrite Hlargest. simpl. by eexists.
Qed.

End Fanout.

(** ** The registry *)

Module Registry.

Lemma get_is_Some (name : string) (m : ProviderRegistry.t) :
  is_Some (ProviderRegistry.get name m) ↔ name ∈ ProviderRegistry.list m.
Proof.
  unfold ProviderRegistry.list. induction m as [|[k v] m IH]; simpl.
  - split; [by intros [? ?]|by intros ?%elem_of_nil].
  - rewrite elem_of_cons. destruct (decide (k = name)) as [->|Hne].
    + split; [by left|by eexists].
    + rewrite IH. split; [by right|]. by intros [->|?].
Qed.

Lemma get_set_eq (name : string) (p : IProvider.t) (m : ProviderRegistry.t) :
  ProviderRegistry.get name (ProviderRegistry.set name p m) = Some p.
Proof.
  induction m as [|[k v] m IH]; simpl.
  - by rewrite decide_True.
  - destruct (decide (k = name)) as [->|Hne]; simpl.
    + by rewrite decide_True.
    + by rewrite decide_False.
Qed.

Lemma get_set_ne (name other : string) (p : IProvider.t)
    (m : ProviderRegistry.t) :
  name ≠ other →
  ProviderRegistry.get name (ProviderRegistry.set other p m)
  = ProviderRegistry.get name m.
Proof.
  intros Hne. induction m as [|[k v] m IH]; simpl.
  - by rewrite decide_False.
  - destruct (decide (k = other)) as [->|Hk]; simpl.
    + by rewrite !decide_False.
    + destruct (decide (k = name)); [done|apply IH].
Qed.

Lemma get_remove_eq (name : string) (m : ProviderRegistry.t) :
  ProviderRegistry.get name (ProviderRegistry.remove name m) = None.
Proof.
  unfold ProviderRegistry.remove, ProviderRegistry.t. induction m as [|[k v] m IH]; [done|].
  destruct (decide (k = name)) as [->|Hne].
  - by rewrite filter_cons_False by (simpl; tauto).
  - rewrite filter_cons_True by done. simpl. by rewrite decide_False.
Qed.

Lemma list_set (name n : string) (p : IProvider.t) (m : ProviderRegistry.t) :
  n ∈ ProviderRegistry.list (ProviderRegistry.set name p m)
  ↔ n = name ∨ n ∈ ProviderRegistry.list m.
Proof.
  rewrite <- !get_is_Some. destruct (decide (n = name)) as [->|Hne].
  - rewrite get_set_eq. split; [by left|by eexists].
  - rewrite get_set_ne by done. split; [by right|by intros [?|?]].
Qed.

Lemma list_remove (name : string) (m : ProviderRegistry.t) :
  name ∉ ProviderRegistry.list (ProviderRegistry.remove name m).
Proof.
  rewrite <- get_is_Some, get_remove_eq. by intros [? ?].
Qed.

(** The registry that the constructor fills from the configuration. *)
Lemma list_registered (configs : list (string * ProviderConfig.t)) :
  ∀ (m : ProviderRegistry.t) (n : string),
    n ∈ ProviderRegistry.list
          (foldl (λ reg '(name, c), ProviderRegistry.register name c reg)
                 m configs)
    ↔ n ∈ ProviderRegistry.list m ∨ n ∈ configs.*1.
Proof.
  induction configs as [|[name c] configs IH]; intros m n; simpl.
  - split; [by left|]. by intros [?|?%elem_of_nil].
  - rewrite IH. unfold ProviderRegistry.register. rewrite list_set, elem_of_cons.
    tauto.
Qed.

End Registry.

(** ** [healthCheck] *)

Module Health.
Import Orchestra.

(** The entry that the loop of [healthCheck] writes for one provider. *)
Definition entry (self : Orchestra.t) (provider : string) : bool :=
  match probe self provider with
  | Fulfilled b => b
  | Rejected _ => false
  end.

Lemma lookup_setEntry (provider name : string) (b : bool)
    (health : gmap string bool) :
  setEntry provider b health !! name
  = if decide (name = provider ∧ name ≠ "__proto__") then Some b
    else health !! name.
Proof.
  unfold setEntry. destruct (decide (provider = "__proto__")) as [->|Hp].
  - rewrite decide_False; [done|]. by intros [? ?].
  - destruct (decide (name = provider)) as [->|Hn].
    + rewrite decide_True by done. by rewrite lookup_insert_eq.
    + rewrite decide_False by (by intros [? ?]). by rewrite lookup_insert_ne.
Qed.

Lemma healthCheck_loop (self : Orchestra.t) (names : list string) :
  ∀ (health : gmap string bool) (name : string),
    foldl (λ health provider,
             match probe self provider with
             | Fulfilled b => setEntry provider b health
             | Rejected _ => setEntry provider false health
             end) health names !! name
    = if decide (name ∈ names ∧ name ≠ "__proto__")
      then Some (entry self name) else health !! name.
Proof.
  induction names as [|n names IH]; intros health name; cbn [foldl].
  { rewrite decide_False; [done|]. by intros [?%elem_of_nil _]. }
  rewrite IH.
  assert (Hstep : match probe self n with
                  | Fulfilled b => setEntry n b health
                  | Rejected _ => setEntry n false health
                  end = setEntry n (entry self n) health).
  { unfold entry. by destruct (probe self n). }
  rewrite Hstep, lookup_setEntry.
  destruct (decide (name ∈ names ∧ name ≠ "__proto__")) as [[Hin Hp]|Hout].
  - rewrite decide_True; [done|]. split; [by right|done].
  - destruct (decide (name = n ∧ name ≠ "__proto__")) as [[-> Hp]|Hn].
    + rewrite decide_True; [done|]. split; [by left|done].
    + rewrite decide_False; [done|].
      intros [[->|Hin]%elem_of_cons Hp]; [by apply Hn|by apply Hout].
Qed.

End Health.

(** ** The debate loop *)

Module Debate.
Import Orchestra.

Section loop.
Context (race : Scheduler) (self : Orchestra.t) (threshold : Q)
        (maxRounds : nat) (providers : list string).

(** The loop test. *)
Definition continues (st : Loop) : bool :=
  Qltb (agreement st) threshold && (round st <? maxRounds).

(** What holds of the loop variables between two turns. *)
Record invariant (st : Loop) : Prop := {
  inv_budget : round st ≤ maxRounds;
  inv_count : length (rounds st) = round st;
  inv_numbers : DebateRound.round <$> rounds st = seq 1 (round st);
  inv_last : ∀ r, last (rounds st) = Some r →
                  DebateRound.agreement r = agreement st;
  inv_earlier : ∀ i r, rounds st !! i = Some r → S i < round st →
                       (DebateRound.agreement r < threshold)%Q;
  inv_measured : ∀ r, r ∈ rounds st →
                      DebateRound.agreement r
                        = calculateAgreement (DebateRound.arguments r)
}.

Lemma invariant_start (prompt : string) :
  invariant {| prompt := prompt; rounds := []; agreement := 0%Q; round := 0 |}.
Proof.
  split; simpl.
  - lia.
  - done.
  - done.
  - by intros r [=].
  - intros i r H. by rewrite lookup_nil in H.
  - by intros r ?%elem_of_nil.
Qed.

Lemma debateRound_Fulfilled (st st' : Loop) :
  debateRound race self threshold maxRounds providers st = Fulfilled st' →
  ∃ responses,
    round st' = S (round st)
    ∧ agreement st' = calculateAgreement responses
    ∧ rounds st'
      = rounds st ++ [DebateRound.mk (S (round st)) responses
                                     (calculateAgreement responses) None].
Proof.
  unfold debateRound.
  destruct (Promise_all race _) as [responses|e]; simpl; [|done].
  destruct (_ && _); simpl.
  - destruct (buildDebatePrompt _ _); simpl; [|done].
    intros [= <-]. by exists responses.
  - intros [= <-]. by exists responses.
Qed.

Lemma invariant_step (st st' : Loop) :
  invariant st → continues st = true →
  debateRound race self threshold maxRounds providers st = Fulfilled st' →
  invariant st'.
Proof.
  intros [Hb Hc Hn Hl He Hm] Hcont (responses & Hr & Ha & Hrs)%debateRound_Fulfilled.
  apply andb_true_iff in Hcont as [Hlt Hround].
  apply Qltb_lt in Hlt. apply Nat.ltb_lt in Hround.
  split; rewrite ?Hr, ?Hrs, ?Ha.
  - lia.
  - rewrite length_app. simpl. lia.
  - by rewrite fmap_app, Hn, seq_S.
  - intros r. rewrite last_snoc. by intros [= <-].
  - intros i r Hi Hlt'. apply lookup_snoc_Some in Hi as [[Hi' Hi]|[Hi' _]].
    + destruct (decide (S i = round st)) as [E|E].
      * assert (Hlast : last (rounds st) = Some r).
        { rewrite last_lookup, <- Hi. f_equal. lia. }
        by rewrite (Hl r Hlast).
      * apply (He i r Hi). lia.
    + lia.
  - intros r [Hin| ->%list_elem_of_singleton]%elem_of_app; [by apply Hm|done].
Qed.

(** With fuel for the turns that the budget leaves, the loop ends; when
    it ends normally the invariant holds and the loop test fails. *)
Lemma debateLoop_ends (fuel : nat) (st : Loop) :
  invariant st → maxRounds - round st ≤ fuel →
  ∃ out,
    debateLoop race self threshold maxRounds providers fuel st = Some out
    ∧ ∀ st', out = Fulfilled st' → invariant st' ∧ continues st' = false.
Proof.
  revert st. induction fuel as [|fuel IH]; intros st Hinv Hfuel; simpl;
    fold (continues st); destruct (continues st) eqn:Hcont.
  - apply andb_true_iff in Hcont as [_ Hround%Nat.ltb_lt]. lia.
  - eexists. split; [done|]. by intros st' [= <-].
  - destruct (debateRound race self threshold maxRounds providers st)
      as [st1|e] eqn:Hstep.
    + pose proof (invariant_step st st1 Hinv Hcont Hstep) as Hinv1.
      apply IH; [done|].
      apply debateRound_Fulfilled in Hstep as (_ & Hr & _). lia.
    + eexists. split; [done|]. by intros st'.
  - eexists. split; [done|]. by intros st' [= <-].
Qed.

End loop.

(** What [debate] returns is read off the loop variables at the end. *)
Lemma debate_Fulfilled (race : Scheduler) (self : Orchestra.t)
    (prompt : string) (options : option DebateOptions.t)
    (res : DebateResult.t) :
  debate race self prompt options = Some (Fulfilled res) →
  ∃ st,
    debateLoop race self (thresholdOf self options) (maxRoundsOf self options)
               (participantsOf self options) (maxRoundsOf self options)
               {| prompt := prompt; rounds := []; agreement := 0%Q; round := 0 |}
      = Some (Fulfilled st)
    ∧ synthesizeDecision (rounds st) = Some (DebateResult.decision res)
    ∧ DebateResult.rounds res = rounds st
    ∧ DebateResult.agreement res = agreement st
    ∧ DebateResult.confidence res = agreement st
    ∧ DebateResult.participants res = participantsOf self options.
Proof.
  unfold debate, debateWith. cbv zeta.
  destruct (debateLoop _ _ _ _ _ _ _) as [[st|e]|]; simpl; [|done..].
  destruct (synthesizeDecision (rounds st)) as [d|] eqn:Hd; simpl; [|done].
  intros [= <-]. exists st. by rewrite Hd.
Qed.


Lemma maxRoundsOf_pos (self : Orchestra.t) (options : option DebateOptions.t) :
  1 ≤ maxRoundsOf self options.
Proof.
  unfold maxRoundsOf, orNat.
  destruct (options ≫= DebateOptions.maxRounds) as [[|n]|]; try lia;
    destruct (OrchestraConfig.maxDebateRounds (config self)) as [[|k]|]; lia.
Qed.

(** A participant whose query is rejected makes the first round, and
    with it the whole debate, fail. *)
Lemma debate_Rejected (race : Scheduler) (self : Orchestra.t)
    (prompt : string) (options : option DebateOptions.t)
    (name : string) (e0 : Thrown) :
  (0 < thresholdOf self options)%Q →
  name ∈ participantsOf self options →
  query self prompt (Some (QueryOptions.mk (Some name) None None None))
    = Rejected e0 →
  ∃ e, debate race self prompt options = Some (Rejected e).
Proof.
  intros Ht Hin Hq. unfold debate, debateWith. cbv zeta.
  pose proof (maxRoundsOf_pos self options) as Hpos.
  destruct (maxRoundsOf self options) as [|fuel] eqn:Hmax; [lia|].
  cbn [debateLoop agreement round].
  rewrite (proj2 (Qltb_lt _ _) Ht). simpl.
  unfold debateRound. cbn [Orchestra.prompt].
  destruct (Promise_all_rejects race
              (map (λ p, query self prompt
                           (Some (QueryOptions.mk (Some p) None None None)))
                   (participantsOf self options)) e0) as [e He].
  { rewrite <- Hq. apply list_elem_of_fmap. by exists name. }
  rewrite He. simpl. by exists e.
Qed.

End Debate.

(** ** Pairwise agreement *)

Definition Qsum (l : list Q) : Q := foldr Qplus 0%Q l.

(** The unordered pairs of a list: each element with each later one. *)
Fixpoint pairs {A} (l : list A) : list (A * A) :=
  match l with
  | [] => []
  | x :: t => (pair x <$> t) ++ pairs t
  end.

(** The average pairwise Jaccard ratio of the token sets of the
    responses, as the design document defines the agreement of a round. *)
Definition averagePairwise (responses : list Response) : Q :=
  let ps := pairs responses in
  (Qsum ((λ p, jaccard (wordsOf p.1) (wordsOf p.2)) <$> ps)
     / Qnat (length ps))%Q.

Module Agreement.
Import Orchestra.


Lemma pairs_fmap {A B} (f : A → B) (l : list A) :
  pairs (f <$> l) = prod_map f f <$> pairs l.
Proof.
  induction l as [|x t IH]; [done|]. rewrite fmap_cons. cbn [pairs].
  rewrite fmap_app, IH, <- !list_fmap_compose. done.
Qed.

Lemma pairs_length {A} (l : list A) :
  2 * length (pairs l) = length l * (length l - 1).
Proof.
  induction l as [|x t IH]; [done|]. simpl.
  rewrite length_app, length_fmap, Nat.sub_0_r. nia.
Qed.





End Agreement.

(** * The statements of the design document *)

(** Sample data *)
Definition resp (i : nat) (c p : string) : Obj :=
  mkObj i (mkResponse c p None None None).

Definition postgres3 : list Obj :=
  [resp 0 "Use Postgres" "a"; resp 1 "Use Postgres" "b";
   resp 2 "Use MongoDB" "c"].

(** A provider that answers every prompt with [text]. *)
Definition says (name text : string) : IProvider.t :=
  {| IProvider.name := name;
     IProvider.complete := λ _ _,
       Fulfilled (mkResponse text name None None None);
     IProvider.healthCheck := None |}.

(** Three providers whose answers are the responses [postgres3]. *)
Definition postgresRegistry : ProviderRegistry.t :=
  [("a", says "a" "Use Postgres"); ("b", says "b" "Use Postgres");
   ("c", says "c" "Use MongoDB")].

Definition yesNoRegistry : ProviderRegistry.t :=
  [("a", says "a" "yes"); ("b", says "b" "no")].


Lemma identified_NoDup (responses : list Obj) :
  NoDup (oid <$> responses) → Grouping.identified responses.
Proof.
  intros Hnd a b Ha Hb E.
  apply list_elem_of_lookup in Ha as [i Hi]. apply list_elem_of_lookup in Hb as [j Hj].
  assert (i = j); [|congruence].
  apply (NoDup_lookup _ i j (oid a) Hnd); rewrite list_lookup_fmap.
  - by rewrite Hi.
  - by rewrite Hj, E.
Qed.

Lemma confidence_unanimous (maj responses : list Obj) :
  0 < length responses → length maj = length responses →
  (ConsensusEngine.calculateConfidence maj responses
     == Qmin 1 (Qnat (length maj) / Qnat (length responses) * (12 # 10)))%Q
  ∧ (ConsensusEngine.calculateConfidence maj responses == 1)%Q.
Proof.
  intros Hpos E. unfold ConsensusEngine.calculateConfidence.
  rewrite (proj2 (Nat.eqb_eq _ _) E). split; [reflexivity|].
  rewrite E, (Qnat_div_same _ Hpos). apply Q.min_l.
  unfold Qle. simpl. lia.
Qed.

Module Scores.
Import ConsensusEngine.

(** The scores that [calculateConsensus] gives to a non-empty array of
    response objects. *)
Lemma calculateConsensus_scores (responses : list Obj) (mode : Mode)
    (options : option ConsensusOptions.t) (c : Consensus) :
  responses ≠ [] →
  Grouping.identified responses →
  calculateConsensus responses mode options = Some c →
  ∃ (majorityGroup dis : list Obj),
    largest (groupSimilarResponses responses) = Some majorityGroup
    ∧ (agreement c
         == Qnat (length majorityGroup) / Qnat (length responses))%Q
    ∧ (0 <= agreement c)%Q
    ∧ (agreement c <= 1)%Q
    ∧ (length majorityGroup = length responses →
         (confidence c == Qmin 1 (agreement c * (12 # 10)))%Q
         ∧ (confidence c == 1)%Q)
    ∧ (length majorityGroup ≠ length responses →
         (confidence c == agreement c)%Q)
    ∧ majorityGroup ++ dis ≡ₚ responses
    ∧ (∀ r : Obj, r ∈ dis ↔ r ∈ responses ∧ r ∉ majorityGroup)
    ∧ dis `sublist_of` responses
    ∧ dissenting c = match dis with [] => None | _ :: _ => Some dis end
    ∧ (length responses = 1 →
         (agreement c == 1)%Q ∧ (confidence c == 1)%Q
         ∧ dissenting c = None).
Proof.
  intros Hne Hid Hc.
  destruct (Grouping.majority_group responses Hne)
    as (k & seed & rest & Hk & Hlargest & _ & _ & Hle).
  set (maj := seed :: rest) in *.
  destruct (Grouping.dissent_partition responses k maj Hid Hk) as [Hperm Hdis].
  set (dis := filter (λ r : Obj, ¬ includes maj r) responses) in *.
  assert (Hpos : 0 < length responses) by (destruct responses; [done|simpl; lia]).
  destruct (Qnat_ratio_bounds _ _ Hle Hpos) as [H0 H1].
  assert (Ec : c = {| result := content seed;
                      confidence := calculateConfidence maj responses;
                      agreement :=
                        (Qnat (length maj) / Qnat (length responses))%Q;
                      dissenting :=
                        if 0 <? length dis then Some dis else None |}).
  { unfold calculateConsensus in Hc. rewrite Hlargest in Hc. simpl in Hc.
    by injection Hc as <-. }
  exists maj, dis. split; [done|]. rewrite Ec.
  cbn [agreement confidence dissenting].
  split_and!; try done.
  - intros E. by apply confidence_unanimous.
  - intros E. unfold calculateConfidence.
    by rewrite (proj2 (Nat.eqb_neq _ _) E).
  - apply sublist_filter.
  - by destruct dis.
  - intros E1.
    assert (E : length maj = length responses) by (simpl in *; lia).
    split_and!.
    + rewrite E. by apply Qnat_div_same.
    + by apply confidence_unanimous.
    + apply Permutation_length in Hperm. rewrite length_app in Hperm.
      destruct dis; [done|simpl in *; lia].
Qed.

End Scores.

(** C1. When the providers asked give a non-empty array of responses,
    [buildConsensus] is fulfilled, and the result it returns has these
    scores: the agreement is the size of the majority group over the
    number of responses and lies in [0, 1]; the confidence is the
    agreement, multiplied by 1.2 and capped at 1, when the majority group
    holds every response, and the agreement itself otherwise; the
    [dissenting] field holds the responses outside the majority group,
    and is absent when there is none.  With a single response the
    agreement and the confidence are 1 and nothing dissents. *)
Theorem consensus_scores (race : Scheduler) (registry : ProviderRegistry.t)
    (prompt : string) (options : option ConsensusOptions.t)
    (responses : list Obj) :
  imap (ConsensusEngine.callProvider registry prompt)
       (ConsensusEngine.providerNamesOf registry options)
    = Fulfilled <$> responses →
  responses ≠ [] →
  ∃ (r : ConsensusEngine.ConsensusResult) (majorityGroup dis : list Obj),
    let c := ConsensusEngine.consensus r in
    ConsensusEngine.buildConsensus race registry prompt options = Fulfilled r
    ∧ ConsensusEngine.largest (ConsensusEngine.groupSimilarResponses responses)
      = Some majorityGroup
    ∧ (ConsensusEngine.agreement c
         == Qnat (length majorityGroup) / Qnat (length responses))%Q
    ∧ (0 <= ConsensusEngine.agreement c)%Q
    ∧ (ConsensusEngine.agreement c <= 1)%Q
    ∧ (length majorityGroup = length responses →
         (ConsensusEngine.confidence c
            == Qmin 1 (ConsensusEngine.agreement c * (12 # 10)))%Q
         ∧ (ConsensusEngine.confidence c == 1)%Q)
    ∧ (length majorityGroup ≠ length responses →
         (ConsensusEngine.confidence c == ConsensusEngine.agreement c)%Q)
    ∧ majorityGroup ++ dis ≡ₚ responses
    ∧ (∀ x : Obj, x ∈ dis ↔ x ∈ responses ∧ x ∉ majorityGroup)
    ∧ dis `sublist_of` responses
    ∧ ConsensusEngine.dissenting c
        = match dis with [] => None | _ :: _ => Some dis end
    ∧ (length responses = 1 →
         (ConsensusEngine.agreement c == 1)%Q
         ∧ (ConsensusEngine.confidence c == 1)%Q
         ∧ ConsensusEngine.dissenting c = None).
Proof.
  intros Hcalls Hne.
  destruct (Fanout.buildConsensus_of race registry prompt options responses
              Hcalls Hne) as (r & Hr & Hid & Hc & _).
  destruct (Scores.calculateConsensus_scores responses _ options _ Hne Hid Hc)
    as (maj & dis & H).
  exists r, maj, dis. cbv zeta. split; [done|]. exact H.
Qed.

Lemma postgres3_identified : Grouping.identified postgres3.
Proof. apply identified_NoDup. apply (bool_decide_unpack _). by vm_compute. Qed.

Lemma consensus_scores_postgres3 :
  ∃ (r : ConsensusEngine.ConsensusResult) (majorityGroup dis : list Obj),
    let c := ConsensusEngine.consensus r in
    ConsensusEngine.buildConsensus Fanout.firstOf postgresRegistry "Which?"
      None = Fulfilled r
    ∧ ConsensusEngine.largest (ConsensusEngine.groupSimilarResponses postgres3)
      = Some majorityGroup
    ∧ (ConsensusEngine.agreement c
         == Qnat (length majorityGroup) / Qnat (length postgres3))%Q
    ∧ (0 <= ConsensusEngine.agreement c)%Q
    ∧ (ConsensusEngine.agreement c <= 1)%Q
    ∧ (length majorityGroup = length postgres3 →
         (ConsensusEngine.confidence c
            == Qmin 1 (ConsensusEngine.agreement c * (12 # 10)))%Q
         ∧ (ConsensusEngine.confidence c == 1)%Q)
    ∧ (length majorityGroup ≠ length postgres3 →
         (ConsensusEngine.confidence c == ConsensusEngine.agreement c)%Q)
    ∧ majorityGroup ++ dis ≡ₚ postgres3
    ∧ (∀ x : Obj, x ∈ dis ↔ x ∈ postgres3 ∧ x ∉ majorityGroup)
    ∧ dis `sublist_of` postgres3
    ∧ ConsensusEngine.dissenting c
        = match dis with [] => None | _ :: _ => Some dis end
    ∧ (length postgres3 = 1 →
         (ConsensusEngine.agreement c == 1)%Q
         ∧ (ConsensusEngine.confidence c == 1)%Q
         ∧ ConsensusEngine.dissenting c = None).
Proof.
  apply (consensus_scores Fanout.firstOf postgresRegistry "Which?" None
           postgres3); [reflexivity|discriminate].
Defined.

(** C2. When the providers asked give a non-empty array of responses,
    [buildConsensus] is fulfilled; the majority group is a group of
    largest size and the first such group in the order in which the
    grouping opened the groups, and the result text returned is the
    content of the first response of that group.  For three providers
    that answer Use Postgres, Use Postgres and Use MongoDB the majority
    group holds the first two responses, the agreement is 2/3 and the
    third response dissents. *)
Theorem majority_is_first_largest (race : Scheduler)
    (registry : ProviderRegistry.t) (prompt : string)
    (options : option ConsensusOptions.t) (responses : list Obj) :
  imap (ConsensusEngine.callProvider registry prompt)
       (ConsensusEngine.providerNamesOf registry options)
    = Fulfilled <$> responses →
  responses ≠ [] →
  ∃ (r : ConsensusEngine.ConsensusResult) (k : nat)
    (majorityGroup : list Obj) (first : Obj),
    let groups := ConsensusEngine.groupSimilarResponses responses in
    ConsensusEngine.buildConsensus race registry prompt options = Fulfilled r
    ∧ groups = ConsensusEngine.greedyGroups responses
    ∧ groups !! k = Some majorityGroup
    ∧ ConsensusEngine.largest groups = Some majorityGroup
    ∧ (∀ j g, groups !! j = Some g → length g ≤ length majorityGroup)
    ∧ (∀ j g, j < k → groups !! j = Some g → length g < length majorityGroup)
    ∧ head majorityGroup = Some first
    ∧ ConsensusEngine.result (ConsensusEngine.consensus r) = content first
    ∧ (ConsensusEngine.agreement (ConsensusEngine.consensus r)
         == Qnat (length majorityGroup) / Qnat (length responses))%Q
    ∧ ConsensusEngine.groupSimilarResponses postgres3
        = [[resp 0 "Use Postgres" "a"; resp 1 "Use Postgres" "b"];
           [resp 2 "Use MongoDB" "c"]]
    ∧ ConsensusEngine.buildConsensus race postgresRegistry prompt None
        = Fulfilled
            {| ConsensusEngine.consensus :=
                 {| ConsensusEngine.result := "Use Postgres";
                    ConsensusEngine.confidence := 2 # 3;
                    ConsensusEngine.agreement := 2 # 3;
                    ConsensusEngine.dissenting :=
                      Some [resp 2 "Use MongoDB" "c"] |};
               ConsensusEngine.providers := ["a"; "b"; "c"];
               ConsensusEngine.rounds := 1;
               ConsensusEngine.totalCost := 0%float |}.
Proof.
  intros Hcalls Hne.
  destruct (Fanout.buildConsensus_of race registry prompt options responses
              Hcalls Hne) as (r & Hr & Hid & Hc & _).
  destruct (Grouping.majority_group responses Hne)
    as (k & seed & rest & Hk & Hlargest & Hmax & Hfirst & _).
  exists r, k, (seed :: rest), seed. cbv zeta.
  split; [done|].
  split; [apply Grouping.groupSimilarResponses_greedy|].
  do 5 (split; [done|]).
  unfold ConsensusEngine.calculateConsensus in Hc. rewrite Hlargest in Hc.
  simpl in Hc. injection Hc as Hc. rewrite <- Hc.
  split; [done|]. split; [reflexivity|]. split; by vm_compute.
Qed.

Lemma majority_is_first_largest_tie :
  ∃ (r : ConsensusEngine.ConsensusResult) (k : nat)
    (majorityGroup : list Obj) (first : Obj),
    let responses := [resp 0 "yes" "a"; resp 1 "no" "b"] in
    let groups := ConsensusEngine.groupSimilarResponses responses in
    ConsensusEngine.buildConsensus Fanout.firstOf yesNoRegistry "Shall we?"
      None = Fulfilled r
    ∧ groups = ConsensusEngine.greedyGroups responses
    ∧ groups !! k = Some majorityGroup
    ∧ ConsensusEngine.largest groups = Some majorityGroup
    ∧ (∀ j g, groups !! j = Some g → length g ≤ length majorityGroup)
    ∧ (∀ j g, j < k → groups !! j = Some g → length g < length majorityGroup)
    ∧ head majorityGroup = Some first
    ∧ ConsensusEngine.result (ConsensusEngine.consensus r) = content first
    ∧ (ConsensusEngine.agreement (ConsensusEngine.consensus r)
         == Qnat (length majorityGroup) / Qnat (length responses))%Q
    ∧ ConsensusEngine.groupSimilarResponses postgres3
        = [[resp 0 "Use Postgres" "a"; resp 1 "Use Postgres" "b"];
           [resp 2 "Use MongoDB" "c"]]
    ∧ ConsensusEngine.buildConsensus Fanout.firstOf postgresRegistry
        "Shall we?" None
        = Fulfilled
            {| ConsensusEngine.consensus :=
                 {| ConsensusEngine.result := "Use Postgres";
                    ConsensusEngine.confidence := 2 # 3;
                    ConsensusEngine.agreement := 2 # 3;
                    ConsensusEngine.dissenting :=
                      Some [resp 2 "Use MongoDB" "c"] |};
               ConsensusEngine.providers := ["a"; "b"; "c"];
               ConsensusEngine.rounds := 1;
               ConsensusEngine.totalCost := 0%float |}.
Proof.
  apply (majority_is_first_largest Fanout.firstOf yesNoRegistry "Shall we?"
           None [resp 0 "yes" "a"; resp 1 "no" "b"]);
    [reflexivity|discriminate].
Defined.

(** With two providers that disagree, there are two groups of one
    response each and the first one wins the tie. *)
Example tie_goes_to_first_provider :
  (λ r, ConsensusEngine.result (ConsensusEngine.consensus r))
    <$> ConsensusEngine.buildConsensus Fanout.firstOf yesNoRegistry
          "Shall we?" None
  = Fulfilled "yes".
Proof. by vm_compute. Qed.

(** With two groups of one response each, the first one wins the tie. *)
Example tie_goes_to_first :
  ConsensusEngine.result
    <$> ConsensusEngine.calculateConsensus
          [resp 0 "yes" "a"; resp 1 "no" "b"] democratic None
  = Some "yes".
Proof. by vm_compute. Qed.

(** C3. [areSimilar] tokenizes the two contents in lower case on
    whitespace into sets and holds exactly when the Jaccard ratio of the
    two sets, the size of the intersection over the size of the union (0
    for two empty sets), is above 0.6, that is when five times the
    intersection exceeds three times the union.  Two responses with the
    same token set have similarity 1 and are put in the same group. *)
Theorem similar_iff_jaccard (a b : Response) :
  wordsOf a = list_to_set (Js.split_ws (Js.toLowerCase (content a)))
  ∧ ConsensusEngine.similarity a b = jaccard (wordsOf a) (wordsOf b)
  ∧ (ConsensusEngine.areSimilar a b = true
     ↔ (6 # 10 < jaccard (wordsOf a) (wordsOf b))%Q)
  ∧ (ConsensusEngine.areSimilar a b = true
     ↔ 3 * size (wordsOf a ∪ wordsOf b) < 5 * size (wordsOf a ∩ wordsOf b))
  ∧ jaccard ∅ ∅ = 0%Q
  ∧ (wordsOf a = wordsOf b →
       (ConsensusEngine.similarity a b == 1)%Q
       ∧ ConsensusEngine.areSimilar a b = true
       ∧ ∀ (responses : list Obj) (x y : Obj),
           fields x = a → fields y = b → x ∈ responses → y ∈ responses →
           ∃ g, g ∈ ConsensusEngine.groupSimilarResponses responses
                ∧ x ∈ g ∧ y ∈ g).
Proof.
  split; [done|]. split; [apply similarity_jaccard|].
  split; [unfold ConsensusEngine.areSimilar;
          rewrite similarity_jaccard; apply Qltb_lt|].
  split; [|split; [done|]].
  - unfold ConsensusEngine.areSimilar. rewrite Qltb_lt, similarity_jaccard.
    unfold jaccard, wordsOf.
    rewrite decide_False by (intros [E _]; by apply wordSet_nonempty in E).
    pose proof (union_size_pos (Js.toLowerCase (content a))
                               (Js.toLowerCase (content b))) as Hpos.
    apply Qnat_pos in Hpos.
    set (m := size (_ ∩ _)) in *. set (n := size (_ ∪ _)) in *.
    assert (Hn : ¬ (Qnat n == 0)%Q).
    { intros E. rewrite E in Hpos. by apply Qlt_irrefl in Hpos. }
    assert (Hiff : ((6 # 10) * Qnat n < Qnat m)%Q ↔ 3 * n < 5 * m).
    { unfold Qlt, Qnat. simpl. lia. }
    rewrite <- Hiff. split.
    + intros H. apply (Qmult_lt_r _ _ _ Hpos) in H.
      unfold Qdiv in H. by rewrite <- Qmult_assoc, (Qmult_comm (/ _)),
        Qmult_inv_r, Qmult_1_r in H.
    + intros H. by apply Qlt_shift_div_l.
  - intros E. split; [by apply similarity_same_words|].
    split; [by apply areSimilar_same_words|].
    intros responses x y <- <- Hx Hy.
    rewrite Grouping.groupSimilarResponses_greedy.
    by apply Grouping.greedyGroups_same_words.
Qed.

(** Upper and lower case do not matter. *)
Example similar_ignores_case :
  ConsensusEngine.areSimilar (resp 0 "Use POSTGRES now" "a")
                             (resp 1 "use postgres NOW" "b") = true.
Proof. by vm_compute. Qed.

(** Three tokens out of five is not enough. *)
Example similar_needs_more_than_three_fifths :
  ConsensusEngine.similarity (resp 0 "a b c d" "a") (resp 1 "a b c e" "b")
    = (3 # 5)%Q
  ∧ ConsensusEngine.areSimilar (resp 0 "a b c d" "a") (resp 1 "a b c e" "b")
    = false.
Proof. by vm_compute. Qed.

Definition empty1 : Obj := resp 0 EmptyString "a".
Definition empty2 : Obj := resp 1 EmptyString "b".

(** C4, as the document states it, fails: the empty content splits into
    one empty token, so that two empty responses have the same token set,
    similarity 1, and share a group. *)
Lemma empty_contents_not_separated :
  Js.split_ws EmptyString = [EmptyString]
  ∧ (ConsensusEngine.similarity empty1 empty2 == 1)%Q
  ∧ ¬ (ConsensusEngine.similarity empty1 empty2 == 0)%Q
  ∧ ConsensusEngine.groupSimilarResponses [empty1; empty2]
    = [[empty1; empty2]].
Proof. split_and!; by vm_compute. Qed.

(** C4, amended.  Two responses with empty content have the token set
    that holds the empty token only; their similarity is 1 and the
    grouping puts them in the same group. *)
Theorem empty_contents_same_group (responses : list Obj) (x y : Obj) :
  content x = EmptyString → content y = EmptyString →
  x ∈ responses → y ∈ responses →
  wordsOf x = {[ EmptyString ]}
  ∧ wordsOf y = {[ EmptyString ]}
  ∧ (ConsensusEngine.similarity x y == 1)%Q
  ∧ ConsensusEngine.areSimilar x y = true
  ∧ ∃ g, g ∈ ConsensusEngine.groupSimilarResponses responses ∧ x ∈ g ∧ y ∈ g.
Proof.
  intros Ex Ey Hx Hy.
  assert (Hw : ∀ r : Obj, content r = EmptyString → wordsOf r = {[ EmptyString ]}).
  { intros r E. unfold wordsOf. rewrite E. apply set_eq. intros w.
    unfold wordSet. simpl. rewrite elem_of_union, elem_of_singleton.
    split; [intros [?|?%not_elem_of_empty]; done|by left]. }
  assert (E : wordsOf x = wordsOf y) by by rewrite !Hw.
  split_and!; try by apply Hw.
  - by apply similarity_same_words.
  - by apply areSimilar_same_words.
  - rewrite Grouping.groupSimilarResponses_greedy.
    by apply Grouping.greedyGroups_same_words.
Qed.

Lemma empty_contents_same_group_pair :
  wordsOf empty1 = {[ EmptyString ]}
  ∧ wordsOf empty2 = {[ EmptyString ]}
  ∧ (ConsensusEngine.similarity empty1 empty2 == 1)%Q
  ∧ ConsensusEngine.areSimilar empty1 empty2 = true
  ∧ ∃ g, g ∈ ConsensusEngine.groupSimilarResponses
               [empty1; resp 2 "x" "c"; empty2]
         ∧ empty1 ∈ g ∧ empty2 ∈ g.
Proof.
  apply (empty_contents_same_group [empty1; resp 2 "x" "c"; empty2]);
    [reflexivity|reflexivity|by left|by right; right; left].
Defined.

(** C5. The grouping loops compute the greedy grouping: in the order of
    the array, each response that is still ungrouped seeds a group that
    takes every later ungrouped response similar to the seed.  The groups
    partition the array: together they hold each response once, and no
    response is in two groups.  A second run on responses with the same
    contents builds the same groups and the same majority group. *)
Theorem grouping_partitions (responses : list Obj) :
  let groups := ConsensusEngine.groupSimilarResponses responses in
  groups = ConsensusEngine.greedyGroups responses
  ∧ concat groups ≡ₚ responses
  ∧ (∀ r : Obj, r ∈ responses →
       ∃ k g, groups !! k = Some g ∧ r ∈ g
              ∧ ∀ k' g', groups !! k' = Some g' → r ∈ g' → k' = k)
  ∧ (∀ g, g ∈ groups →
       g `sublist_of` responses
       ∧ ∃ (seed : Obj) rest,
           g = seed :: rest
           ∧ ∀ r : Obj, r ∈ g → ConsensusEngine.areSimilar seed r = true)
  ∧ (∀ responses' : list Obj,
       (λ r : Obj, content r) <$> responses'
         = (λ r : Obj, content r) <$> responses →
       let groups' := ConsensusEngine.groupSimilarResponses responses' in
       fmap (M := list) (λ r : Obj, content r) <$> groups'
         = fmap (M := list) (λ r : Obj, content r) <$> groups
       ∧ fmap (M := list) (λ r : Obj, content r)
           <$> ConsensusEngine.largest groups'
         = fmap (M := list) (λ r : Obj, content r)
             <$> ConsensusEngine.largest groups).
Proof.
  cbv zeta. rewrite Grouping.groupSimilarResponses_greedy.
  split; [done|]. split; [apply Grouping.greedyGroups_perm|].
  split; [|split].
  - intros r Hr. rewrite <- (Grouping.greedyGroups_perm responses) in Hr.
    apply elem_of_concat in Hr as (g & Hg & Hrg).
    apply list_elem_of_lookup in Hg as [k Hk].
    exists k, g. split_and!; [done..|].
    intros k' g' Hk' Hrg'.
    by apply (Grouping.greedyGroups_unique responses k' k g' g r).
  - intros g Hg. split; [by apply Grouping.greedyGroups_sublist|].
    by apply (Grouping.greedyGroups_seed responses).
  - intros responses' E. rewrite Grouping.groupSimilarResponses_greedy.
    pose (c := λ r : Obj, content r).
    assert (H : Forall2 Grouping.sameContent responses' responses).
    { apply (proj1 (Forall2_fmap c c eq responses' responses)).
      by apply list_eq_Forall2. }
    apply Grouping.greedyGroups_sameContent in H.
    assert (Hlist : ∀ l l' : list Obj,
               Forall2 Grouping.sameContent l l' → c <$> l = c <$> l').
    { intros l l' Hl. apply list_eq_Forall2.
      by apply (proj2 (Forall2_fmap c c eq l l')). }
    split.
    + apply list_eq_Forall2.
      apply (proj2 (Forall2_fmap (fmap c) (fmap c) eq _ _)).
      eapply Forall2_impl; [exact H|]. apply Hlist.
    + apply Grouping.largest_sameContent in H.
      destruct H as [g g' Hg|]; simpl; [|done]. f_equal. by apply Hlist.
Qed.

(** The grouping is greedy, not transitive: the seed decides alone, and
    the order of the array matters. *)
Example grouping_by_seed :
  let A := "0 1 2 3 4 5 6 7 8 9" in
  let B := "0 1 2 3 4 5 6 7 8 9 a b c d e" in
  let C := "0 1 2 3 4 5 6 7 8 9 v w x y z" in
  ConsensusEngine.areSimilar (resp 1 B "q") (resp 2 C "r") = false
  ∧ ConsensusEngine.groupSimilarResponses
      [resp 0 A "p"; resp 1 B "q"; resp 2 C "r"]
    = [[resp 0 A "p"; resp 1 B "q"; resp 2 C "r"]]
  ∧ ConsensusEngine.groupSimilarResponses
      [resp 1 B "q"; resp 0 A "p"; resp 2 C "r"]
    = [[resp 1 B "q"; resp 0 A "p"]; [resp 2 C "r"]].
Proof. by vm_compute. Qed.


(** A debate that never agrees stops when the budget is spent. *)
Example debate_budget_exhausted :
  let cfg := ProviderConfig.mk "key" None None None None in
  let self := Orchestra.new
                (OrchestraConfig.mk [("a", cfg); ("b", cfg)]
                                    None None None None None) in
  let options := DebateOptions.mk None (Some 1) (Some (9 # 10)) None in
  (λ res, (length (DebateResult.rounds res),
           Qltb (DebateResult.agreement res) (9 # 10)))
    <$> (Orchestra.debate (λ es, default TypeError (head es)) self "q"
                          (Some options)
         ≫= λ out, match out with
                    | Fulfilled res => Some res
                    | Rejected _ => None
                    end)
  = Some (1, true).
Proof. by vm_compute. Qed.

(** ** The agreement in double arithmetic *)

Module DoubleAgreement.
Import Float64.

(** The similarity of a pair of responses as the code computes it: the
    sizes of the intersection and of the union of the two token sets, as
    doubles, and one division. *)
Definition ratio (p : Response * Response) : float :=
  (Double.ofNat (size (wordsOf p.1 ∩ wordsOf p.2))
   / Double.ofNat (size (wordsOf p.1 ∪ wordsOf p.2)))%float.

Lemma calculateSimilarity_ratio (a b : Response) :
  calculateSimilarity (Js.toLowerCase (content a)) (Js.toLowerCase (content b))
  = ratio (a, b).
Proof.
  unfold calculateSimilarity, ratio, wordsOf. simpl.
  rewrite filter_elem_of_intersection.
  pose proof (union_size_pos (Js.toLowerCase (content a))
                             (Js.toLowerCase (content b))) as H.
  apply Nat.ltb_lt in H. by rewrite H.
Qed.

(** One step of the two loops: a similarity is added and counted. *)
Definition step (st : float * nat) (p : string * string) : float * nat :=
  ((st.1 + calculateSimilarity p.1 p.2)%float, S st.2).

(** The inner loop for [i], from the index after [seen]. *)
Lemma compare_pairs (pre : list string) (x : string) (todo : list string) :
  ∀ (seen : list string) (st : float * nat),
    foldl (compare (pre ++ x :: seen ++ todo) (length pre)) st
          (seq (S (length pre) + length seen) (length todo))
    = foldl step st (pair x <$> todo).
Proof.
  induction todo as [|y todo IH]; intros seen st; [done|].
  assert (Hi : (pre ++ x :: seen ++ y :: todo) !! length pre = Some x).
  { by rewrite lookup_app_r, Nat.sub_diag by lia. }
  assert (Hj : (pre ++ x :: seen ++ y :: todo) !! S (length pre + length seen)
               = Some y).
  { rewrite lookup_app_r by lia.
    replace (S (length pre + length seen) - length pre)
      with (S (length seen)) by lia.
    simpl. by rewrite lookup_app_r, Nat.sub_diag by lia. }
  cbn [length seq foldl fmap list_fmap].
  assert (Hc : compare (pre ++ x :: seen ++ y :: todo) (length pre) st
                       (S (length pre) + length seen)
               = step st (x, y)).
  { unfold compare. cbn [Nat.add]. by rewrite Hi, Hj. }
  rewrite Hc.
  specialize (IH (seen ++ [y]) (step st (x, y))).
  assert (Hl : S (length pre) + length (seen ++ [y])
               = S (S (length pre) + length seen))
    by (rewrite length_app; simpl; lia).
  rewrite Hl, <- app_assoc in IH. exact IH.
Qed.

(** The outer loop, from index [length pre]: the pairs are visited in the
    order of [pairs]. *)
Lemma compare_all_pairs (l : list string) :
  ∀ (pre : list string) (st : float * nat),
    foldl (λ st i,
             foldl (compare (pre ++ l) i) st
                   (seq (S i) (length (pre ++ l) - S i)))
          st (seq (length pre) (length l))
    = foldl step st (pairs l).
Proof.
  induction l as [|x t IH]; intros pre st; [done|].
  cbn [length seq foldl pairs]. rewrite foldl_app.
  replace (length (pre ++ x :: t) - S (length pre)) with (length t)
    by (rewrite length_app; simpl; lia).
  pose proof (compare_pairs pre x t [] st) as E1.
  simpl in E1. rewrite Nat.add_0_r in E1. rewrite E1.
  specialize (IH (pre ++ [x]) (foldl step st (pair x <$> t))).
  assert (Hl : length (pre ++ [x]) = S (length pre))
    by (rewrite length_app; simpl; lia).
  rewrite Hl, <- app_assoc in IH. exact IH.
Qed.

Lemma step_loop (ps : list (string * string)) :
  ∀ (total : float) (n : nat),
    foldl step (total, n) ps
    = (foldl PrimFloat.add total
             ((λ p, calculateSimilarity p.1 p.2) <$> ps),
       n + length ps).
Proof.
  induction ps as [|p ps IH]; intros total n; simpl.
  - f_equal. lia.
  - unfold step at 2. simpl. rewrite IH. f_equal. lia.
Qed.

(** The agreement of two responses or more: the similarities of the
    pairs, added from the left in the order of the pairs, over the number
    of pairs. *)
Lemma calculateAgreement_pairs (responses : list Response) :
  2 ≤ length responses →
  calculateAgreement responses
  = (Double.sum (ratio <$> pairs responses)
     / Double.ofNat (length (pairs responses)))%float.
Proof.
  intros Hlen. unfold calculateAgreement.
  rewrite (proj2 (Nat.leb_gt _ _)) by lia.
  set (contents := map _ responses).
  pose proof (compare_all_pairs contents [] (0%float, 0)) as E.
  simpl in E. rewrite E, step_loop. simpl.
  assert (Hp : 0 < length (pairs responses)).
  { pose proof (Agreement.pairs_length responses). nia. }
  unfold contents. change (map ?f ?l) with (f <$> l).
  rewrite Agreement.pairs_fmap, length_fmap.
  rewrite (proj2 (Nat.ltb_lt _ _) Hp).
  rewrite <- list_fmap_compose. unfold Double.sum. do 2 f_equal.
  apply list_fmap_ext. intros i [a b] _. simpl.
  apply calculateSimilarity_ratio.
Qed.

(** What one turn of the loop of [debate] records. *)
Lemma debateRound_records (race : Scheduler) (self : Orchestra.t)
    (threshold : float) (maxRounds : nat) (providers : list string)
    (st st' : Loop) :
  debateRound race self threshold maxRounds providers st = Fulfilled st' →
  ∃ responses,
    rounds st'
    = rounds st ++ [Round.mk (S (round st)) responses
                      (calculateAgreement responses)]
    ∧ agreement st' = calculateAgreement responses
    ∧ round st' = S (round st).
Proof.
  unfold debateRound.
  destruct (Promise_all race _) as [responses|e]; simpl; [|done].
  destruct (_ && _); simpl.
  - destruct (Orchestra.buildDebatePrompt _ _); simpl; [|done].
    intros [= <-]. by exists responses.
  - intros [= <-]. by exists responses.
Qed.

(** Every recorded round carries the agreement of its own arguments, and
    the agreement of the loop is that of the last round. *)
Definition invariant (st : Loop) : Prop :=
  Forall (λ r, Round.agreement r = calculateAgreement (Round.arguments r))
         (rounds st)
  ∧ (rounds st = []
     ∨ ∃ final, last (rounds st) = Some final
                ∧ Round.agreement final = agreement st).

Lemma debateLoop_returns (race : Scheduler) (self : Orchestra.t)
    (threshold : float) (maxRounds : nat) (providers : list string) :
  ∀ (fuel : nat) (st : Loop),
    maxRounds ≤ round st + fuel →
    invariant st →
    ∃ out,
      debateLoop race self threshold maxRounds providers fuel st = Some out
      ∧ ∀ st', out = Fulfilled st' → invariant st'.
Proof.
  induction fuel as [|fuel IH]; intros st Hfuel Hinv; simpl;
    destruct (PrimFloat.ltb (agreement st) threshold) eqn:Hlt; simpl;
    try (eexists; split; [done|]; by intros st' [= <-]).
  - destruct (round st <? maxRounds) eqn:Hr.
    + apply Nat.ltb_lt in Hr. lia.
    + eexists. split; [done|]. by intros st' [= <-].
  - destruct (round st <? maxRounds) eqn:Hr;
      [|eexists; split; [done|]; by intros st' [= <-]].
    destruct (debateRound race self threshold maxRounds providers st)
      as [st1|e] eqn:E; [|eexists; split; [done|]; done].
    apply debateRound_records in E as (responses & Hrs & Ha & Hn).
    apply IH; [lia|]. destruct Hinv as [Hall _]. split.
    + rewrite Hrs. apply Forall_app. split; [done|]. by constructor.
    + right. eexists. rewrite Hrs, last_snoc. by split.
Qed.

Lemma debate_ends (race : Scheduler) (self : Orchestra.t) (prompt : string)
    (options : option DebateOptions.t) :
  is_Some (debate race self prompt options)
  ∧ ∀ res,
      debate race self prompt options = Some (Fulfilled res) →
      Result.confidence res = Result.agreement res
      ∧ (∃ final, last (Result.rounds res) = Some final
                  ∧ Round.agreement final = Result.agreement res)
      ∧ ∀ r, r ∈ Result.rounds res →
             Round.agreement r = calculateAgreement (Round.arguments r).
Proof.
  unfold debate. cbv zeta.
  destruct (debateLoop_returns race self (thresholdOf self options)
              (Orchestra.maxRoundsOf self options)
              (Orchestra.participantsOf self options)
              (Orchestra.maxRoundsOf self options)
              {| prompt := prompt; rounds := []; agreement := 0%float;
                 round := 0 |})
    as (out & -> & Hinv); [simpl; lia|split; [by constructor|by left]|].
  simpl. split; [by eexists|]. intros res.
  destruct out as [st|e]; simpl; [|done].
  destruct (Orchestra.synthesizeDecision _) as [d|] eqn:Hd; simpl; [|done].
  intros [= <-]. simpl. destruct (Hinv st eq_refl) as [Hall Hlast].
  split; [done|]. split.
  - destruct Hlast as [Hnil|Hlast]; [|done].
    rewrite Hnil in Hd. done.
  - intros r Hr. by apply (proj1 (Forall_forall _ _) Hall).
Qed.

End DoubleAgreement.

(** Three responses, three pairs: one pair agrees fully, two share one
    token out of three. *)
Definition three : list Response :=
  [mkResponse "Use Postgres" "a" None None None;
   mkResponse "use postgres" "b" None None None;
   mkResponse "Use MongoDB" "c" None None None].

(** The exact average of the three ratios is 5/9.  The code adds 1, 1/3
    and 1/3 as doubles and divides by 3: the double it returns is
    5003999585967217 / 2^53, which is below 5/9 and is not the double
    nearest to 5/9 either. *)
Lemma agreement_is_not_the_exact_average :
  (averagePairwise three == 5 # 9)%Q
  ∧ Float64.calculateAgreement three = 0x1.1c71c71c71c71p-1%float
  ∧ Prim2SF 0x1.1c71c71c71c71p-1%float
    = S754_finite false 5003999585967217 (-53)
  ∧ (5003999585967217 # 9007199254740992 < 5 # 9)%Q
  ∧ (5 / 9)%float = 0x1.1c71c71c71c72p-1%float
  ∧ PrimFloat.ltb (Float64.calculateAgreement three) (5 / 9)%float = true.
Proof. split_and!; by vm_compute. Qed.

(** C7. The agreement of a round is 1 for at most one response.  For two
    responses or more it is the average, over all unordered pairs of
    responses and without grouping, of the Jaccard ratio of their token
    sets as double arithmetic gives it: each ratio is one division of two
    sizes, the ratios are added one by one in the order of the pairs, and
    the sum is divided by the number of pairs, n(n-1)/2.  [debate] always
    ends; every round that it records carries the agreement of its own
    responses, and the agreement and the confidence that it returns are
    the agreement of the last round. *)
Theorem round_agreement_is_rounded_average (responses : list Response) :
  (length responses ≤ 1 → Float64.calculateAgreement responses = 1%float)
  ∧ (2 ≤ length responses →
       Float64.calculateAgreement responses
       = (Double.sum (DoubleAgreement.ratio <$> pairs responses)
          / Double.ofNat (length (pairs responses)))%float)
  ∧ 2 * length (pairs responses) = length responses * (length responses - 1)
  ∧ (∀ race self prompt options,
       is_Some (Float64.debate race self prompt options)
       ∧ ∀ res,
           Float64.debate race self prompt options = Some (Fulfilled res) →
           Float64.Result.confidence res = Float64.Result.agreement res
           ∧ (∃ final,
                last (Float64.Result.rounds res) = Some final
                ∧ Float64.Round.agreement final
                  = Float64.Result.agreement res)
           ∧ ∀ r, r ∈ Float64.Result.rounds res →
                  Float64.Round.agreement r
                  = Float64.calculateAgreement (Float64.Round.arguments r)).
Proof.
  split_and!.
  - intros H. unfold Float64.calculateAgreement.
    by rewrite (proj2 (Nat.leb_le _ _) H).
  - apply DoubleAgreement.calculateAgreement_pairs.
  - apply Agreement.pairs_length.
  - apply DoubleAgreement.debate_ends.
Qed.

(** In exact arithmetic the same three responses give (1 + 1/3 + 1/3) / 3. *)
Example agreement_of_three :
  (Orchestra.calculateAgreement three == (1 + (1 # 3) + (1 # 3)) / 3)%Q.
Proof. by vm_compute. Qed.

Definition sampleConfig : ProviderConfig.t :=
  ProviderConfig.mk "key" None None None None.

(** A provider whose [complete] rejects with [cause]. *)
Definition failing (name cause : string) : IProvider.t :=
  {| IProvider.name := name;
     IProvider.complete := λ _ _, Rejected (Reason cause);
     IProvider.healthCheck := None |}.

Definition mock (name : string) : IProvider.t :=
  ProviderRegistry.createProvider name sampleConfig.

Definition secondFails : ProviderRegistry.t :=
  [("a", mock "a"); ("b", failing "b" "boom"); ("c", mock "c")].

Definition thirdFails : ProviderRegistry.t :=
  [("a", mock "a"); ("b", mock "b"); ("c", failing "c" "boom")].

(** C8, as the document states it, fails: the rejection of the consensus
    call is the reason of the rejected call itself.  It carries no
    provider name: the call rejects with the same value whether the second
    or the third provider is the one that fails. *)
Lemma rejection_names_no_provider :
  ConsensusEngine.callProvider secondFails "q" 1 "b" = Rejected (Reason "boom")
  ∧ ConsensusEngine.callProvider thirdFails "q" 2 "c" = Rejected (Reason "boom")
  ∧ ConsensusEngine.buildConsensus Fanout.firstOf secondFails "q" None
    = Rejected (Reason "boom")
  ∧ ConsensusEngine.buildConsensus Fanout.firstOf thirdFails "q" None
    = Rejected (Reason "boom").
Proof. split_and!; by vm_compute. Qed.

(** C8, amended.  [buildConsensus] throws its own error, No providers
    available for consensus, when the resolved provider set is empty.  For
    a non-empty set it is fulfilled when every call is, and every
    rejection of it is the reason of one of the calls, unchanged: the
    error Provider ... not found for a name that the registry does not
    hold, and what the provider's [complete] rejected with otherwise.  One
    rejected call rejects the whole call, whatever the other calls
    returned. *)
Theorem consensus_fanout_all_or_nothing (race : Scheduler)
    (registry : ProviderRegistry.t) (prompt : string)
    (options : option ConsensusOptions.t) :
  picks race →
  let names := ConsensusEngine.providerNamesOf registry options in
  let calls := imap (ConsensusEngine.callProvider registry prompt) names in
  let out := ConsensusEngine.buildConsensus race registry prompt options in
  names = default (ProviderRegistry.list registry)
                  (options ≫= ConsensusOptions.providers)
  ∧ (names = [] →
       out = Rejected (Error "No providers available for consensus"))
  ∧ (names ≠ [] →
       (∀ e, out = Rejected e → Rejected e ∈ calls)
       ∧ ((∀ e, Rejected e ∉ calls) →
            ∃ r, out = Fulfilled r ∧ ConsensusEngine.providers r = names))
  ∧ (∀ i name e0,
       names !! i = Some name →
       ConsensusEngine.callProvider registry prompt i name = Rejected e0 →
       (∃ e, out = Rejected e)
       ∧ ((∀ e', Rejected e' ∈ calls → e' = e0) → out = Rejected e0))
  ∧ (∀ i name e,
       ConsensusEngine.callProvider registry prompt i name = Rejected e
       ↔ (ProviderRegistry.get name registry = None
          ∧ e = Error ("Provider " +:+ name +:+ " not found"))
         ∨ (∃ p, ProviderRegistry.get name registry = Some p
                 ∧ IProvider.complete p prompt None = Rejected e)).
Proof.
  intros Hrace names calls out.
  assert (Hrej : ∀ e, out = Rejected e → names ≠ [] → Rejected e ∈ calls).
  { intros e Hout Hne. unfold out, ConsensusEngine.buildConsensus in Hout.
    fold names in Hout.
    assert (Hl : length names ≠ 0) by by intros ?%length_zero_iff_nil.
    rewrite (proj2 (Nat.eqb_neq _ _) Hl) in Hout.
    unfold ConsensusEngine.getResponses in Hout. fold calls in Hout.
    destruct (Promise_all race calls) as [responses|e'] eqn:Hall.
    - exfalso. simpl in Hout.
      apply Promise_all_Fulfilled in Hall.
      assert (Hlen : responses ≠ []).
      { intros ->. apply (f_equal length) in Hall.
        unfold calls in Hall. by rewrite length_imap in Hall. }
      destruct (Grouping.majority_group _ Hlen)
        as (k & seed & rest & _ & Hlargest & _).
      unfold ConsensusEngine.calculateConsensus in Hout.
      by rewrite Hlargest in Hout.
    - simpl in Hout. injection Hout as <-.
      by apply (Promise_all_Rejected race). }
  split; [done|]. split_and!.
  - intros E. unfold out, ConsensusEngine.buildConsensus. fold names.
    by rewrite E.
  - intros Hne. split; [by intros e He; apply Hrej|].
    by apply Fanout.buildConsensus_Fulfilled.
  - intros i name e0 Hi Hcall.
    assert (Hne : names ≠ []) by (intros E; by rewrite E in Hi).
    assert (Hin : Rejected e0 ∈ calls).
    { apply elem_of_imap. exists i, name. by rewrite Hcall. }
    assert (Hsome : ∃ e, out = Rejected e).
    { destruct out as [r|e] eqn:Hout; [|by eexists].
      exfalso. unfold out, ConsensusEngine.buildConsensus in Hout.
      fold names in Hout.
      assert (Hl : length names ≠ 0) by by intros ?%length_zero_iff_nil.
      rewrite (proj2 (Nat.eqb_neq _ _) Hl) in Hout.
      unfold ConsensusEngine.getResponses in Hout. fold calls in Hout.
      destruct (Promise_all_rejects race calls e0 Hin) as [e He].
      by rewrite He in Hout. }
    split; [done|]. intros Honly. destruct Hsome as [e He].
    rewrite He. f_equal. apply Honly. by apply Hrej.
  - intros i name e. apply Fanout.callProvider_Rejected.
Qed.

(** One rejected call out of three rejects the whole call. *)
Lemma consensus_fanout_second_fails :
  ConsensusEngine.buildConsensus Fanout.firstOf secondFails "q" None
  = Rejected (Reason "boom").
Proof.
  destruct (consensus_fanout_all_or_nothing Fanout.firstOf secondFails "q" None
              Fanout.firstOf_picks) as (_ & _ & _ & H & _).
  apply (H 1 "b" (Reason "boom")); [reflexivity|reflexivity|].
  intros e He. apply elem_of_rejections in He.
  vm_compute in He. by apply list_elem_of_singleton in He.
Defined.

(** An instance with a provider registered under the name [__proto__]. *)
Definition protoInstance : Orchestra.t :=
  Orchestra.addProvider
    (Orchestra.new
       (OrchestraConfig.mk [("openai", sampleConfig)] None None None None None))
    "__proto__" sampleConfig.

(** C9. A provider that is registered under the name [__proto__] is
    listed, answers queries and reports itself healthy, and [healthCheck]
    returns no entry for it: the object it returns has an entry for the
    other provider only. *)
Theorem healthCheck_drops_proto_entry :
  Orchestra.getProviders protoInstance = ["openai"; "__proto__"]
  ∧ (∃ p,
       ProviderRegistry.get "__proto__" (Orchestra.registry protoInstance)
       = Some p
       ∧ IProvider.healthCheck p = Some (Fulfilled true))
  ∧ (∃ r,
       Orchestra.query protoInstance "ping"
         (Some (QueryOptions.mk (Some "__proto__") None None None))
       = Fulfilled r
       ∧ provider r = "__proto__")
  ∧ Orchestra.healthCheck protoInstance = Fulfilled {[ "openai" := true ]}
  ∧ (∀ health,
       Orchestra.healthCheck protoInstance = Fulfilled health →
       health !! "__proto__" = None ∧ health !! "openai" = Some true).
Proof.
  split_and!.
  - reflexivity.
  - eexists. split; reflexivity.
  - eexists. split; reflexivity.
  - reflexivity.
  - intros health [= <-]. split; reflexivity.
Qed.

(** X20. [healthCheck] is always fulfilled, with an object that has an
    entry for exactly the registered providers other than [__proto__]:
    [true] for a provider without a health probe, the result of the probe
    when it is fulfilled, and [false] when the probe throws.  The entry of
    a provider depends on that provider alone: registering any other
    provider, whatever its probe does, leaves it unchanged. *)
Theorem healthCheck_isolates_failures (self : Orchestra.t) :
  ∃ health,
    Orchestra.healthCheck self = Fulfilled health
    ∧ (∀ name, name ∈ dom health
               ↔ name ∈ Orchestra.getProviders self ∧ name ≠ "__proto__")
    ∧ (∀ name p,
         name ≠ "__proto__" →
         ProviderRegistry.get name (Orchestra.registry self) = Some p →
         health !! name
           = Some match IProvider.healthCheck p with
                  | None => true
                  | Some (Fulfilled b) => b
                  | Some (Rejected _) => false
                  end)
    ∧ (∀ name other p,
         name ≠ other →
         ∃ health',
           Orchestra.healthCheck
             (Orchestra.mk (Orchestra.config self)
                (ProviderRegistry.set other p (Orchestra.registry self)))
             = Fulfilled health'
           ∧ health' !! name = health !! name).
Proof.
  eexists. split; [done|].
  assert (Hentry : ∀ (o : Orchestra.t) (name : string),
            foldl (λ health provider,
                     match Orchestra.probe o provider with
                     | Fulfilled b => Orchestra.setEntry provider b health
                     | Rejected _ => Orchestra.setEntry provider false health
                     end) (∅ : gmap string bool)
                  (ProviderRegistry.list (Orchestra.registry o))
              !! name
            = match ProviderRegistry.get name (Orchestra.registry o) with
              | Some _ => if decide (name = "__proto__") then None
                          else Some (Health.entry o name)
              | None => None
              end).
  { intros o name. rewrite Health.healthCheck_loop, lookup_empty.
    pose proof (Registry.get_is_Some name (Orchestra.registry o)) as Hin.
    destruct (ProviderRegistry.get name (Orchestra.registry o)) eqn:E.
    - destruct (decide (name = "__proto__")) as [Hp|Hp].
      + rewrite decide_False; [done|]. by intros [_ ?].
      + rewrite decide_True; [done|]. split; [|done]. apply Hin. by eexists.
    - rewrite decide_False; [done|]. intros [H _]. apply Hin in H as [? ?].
      done. }
  split_and!.
  - intros name. rewrite elem_of_dom, Hentry.
    unfold Orchestra.getProviders. rewrite <- Registry.get_is_Some.
    destruct (ProviderRegistry.get name (Orchestra.registry self)).
    + destruct (decide (name = "__proto__")).
      * split; [by intros [? ?]|by intros [_ ?]].
      * split; [intros _; split; [by eexists|done]|intros _; by eexists].
    + split; [by intros [? ?]|by intros [[? ?] _]].
  - intros name p Hname Hp. rewrite Hentry, Hp, decide_False by done.
    f_equal. unfold Health.entry, Orchestra.probe. rewrite Hp.
    by destruct (IProvider.healthCheck p) as [[b|e]|].
  - intros name other p Hne. eexists. split; [done|].
    rewrite !Hentry. simpl. rewrite (Registry.get_set_ne name other p) by done.
    destruct (ProviderRegistry.get name (Orchestra.registry self)) as [q|] eqn:E;
      [|done].
    destruct (decide (name = "__proto__")); [done|].
    f_equal. unfold Health.entry, Orchestra.probe. simpl.
    by rewrite (Registry.get_set_ne name other p), E.
Qed.

(** A provider whose health probe throws. *)
Definition unhealthy (name : string) : IProvider.t :=
  {| IProvider.name := name;
     IProvider.complete := IProvider.complete (mock name);
     IProvider.healthCheck := Some (Rejected (Reason "down")) |}.

Definition silent (name : string) : IProvider.t :=
  {| IProvider.name := name;
     IProvider.complete := IProvider.complete (mock name);
     IProvider.healthCheck := None |}.

(** One probe throws: that entry is [false], the others are not touched. *)
Example healthCheck_one_probe_throws :
  let self :=
    Orchestra.mk (OrchestraConfig.mk [] None None None None None)
                 [("a", mock "a"); ("b", unhealthy "b"); ("c", silent "c")] in
  Orchestra.healthCheck self
  = Fulfilled {[ "a" := true; "b" := false; "c" := true ]}.
Proof. reflexivity. Qed.

(** A configuration with a provider registered under the empty name, and
    that provider removed. *)
Definition unnamedRemoved : Orchestra.t :=
  Orchestra.removeProvider
    (Orchestra.new
       (OrchestraConfig.mk [(EmptyString, sampleConfig); ("openai", sampleConfig)]
                           None None None None None))
    EmptyString.

(** C10, as it is stated, fails for a provider with the empty name: once
    removed it is still a participant of the default debate and no longer
    in the registry, but [query] replaces the empty name by the fallback
    name, so that the query, and the debate, are fulfilled. *)
Lemma removed_unnamed_provider_is_redirected :
  EmptyString ∈ Orchestra.participantsOf unnamedRemoved None
  ∧ ProviderRegistry.get EmptyString (Orchestra.registry unnamedRemoved) = None
  ∧ provider
      <$> Orchestra.query unnamedRemoved "q"
            (Some (QueryOptions.mk (Some EmptyString) None None None))
    = Fulfilled "openai"
  ∧ (λ out, match out with
            | Fulfilled res =>
                Some (DebateResult.participants res,
                      length (DebateResult.rounds res))
            | Rejected _ => None
            end)
      <$> Orchestra.debate Fanout.firstOf unnamedRemoved "q" None
    = Some (Some ([EmptyString; "openai"], 1)).
Proof. split_and!; [by left|by vm_compute..]. Qed.

(** C10, amended.  Without [options.providers], [debate] takes its
    participants from the names of the configuration and [consensus]
    takes its providers from the registry; the constructor makes the two
    sets equal.  A provider added by [addProvider] is in the provider set
    of a default consensus call, and is no participant of a default debate
    unless the configuration names it.  A provider removed by
    [removeProvider] stays a participant of a default debate when the
    configuration names it; when its name is not empty its query fails
    with the error Provider ... not found, and so does the debate as soon
    as it makes a round. *)
Theorem debate_reads_config_consensus_reads_registry (self : Orchestra.t)
    (name : string) (config : ProviderConfig.t) (race : Scheduler)
    (prompt : string) :
  let configured := (OrchestraConfig.providers (Orchestra.config self)).*1 in
  Orchestra.participantsOf self None = configured
  ∧ ConsensusEngine.providerNamesOf (Orchestra.registry self) None
    = Orchestra.getProviders self
  ∧ (∀ cfg n,
       n ∈ Orchestra.getProviders (Orchestra.new cfg)
       ↔ n ∈ Orchestra.participantsOf (Orchestra.new cfg) None)
  ∧ (let self' := Orchestra.addProvider self name config in
     name ∈ ConsensusEngine.providerNamesOf (Orchestra.registry self') None
     ∧ Orchestra.participantsOf self' None = configured
     ∧ (name ∉ configured → name ∉ Orchestra.participantsOf self' None))
  ∧ (let self' := Orchestra.removeProvider self name in
     (name ∉ ConsensusEngine.providerNamesOf (Orchestra.registry self') None)
     ∧ Orchestra.participantsOf self' None = configured
     ∧ (name ∈ configured → name ∈ Orchestra.participantsOf self' None)
     ∧ (name ≠ EmptyString →
          Orchestra.query self' prompt
            (Some (QueryOptions.mk (Some name) None None None))
          = Rejected (Error ("Provider " +:+ name +:+ " not found"))
          ∧ (name ∈ configured →
             (0 < Orchestra.thresholdOf self' None)%Q →
             ∃ e, Orchestra.debate race self' prompt None = Some (Rejected e)))).
Proof.
  cbv zeta. split; [done|]. split; [done|]. split_and!; try done.
  - intros cfg n. unfold Orchestra.getProviders, Orchestra.new. simpl.
    rewrite Registry.list_registered. unfold ProviderRegistry.list. simpl.
    split; [by intros [?%elem_of_nil|?]|by right].
  - unfold ConsensusEngine.providerNamesOf. simpl.
    unfold ProviderRegistry.register. apply Registry.list_set. by left.
  - unfold ConsensusEngine.providerNamesOf. simpl. apply Registry.list_remove.
  - intros Hname.
    assert (Hq : Orchestra.query (Orchestra.removeProvider self name) prompt
                   (Some (QueryOptions.mk (Some name) None None None))
                 = Rejected (Error ("Provider " +:+ name +:+ " not found"))).
    { unfold Orchestra.query. simpl.
      destruct name as [|c s]; [done|]. by rewrite Registry.get_remove_eq. }
    split; [done|]. intros Hin Ht.
    by apply (Debate.debate_Rejected race _ prompt None name _ Ht Hin Hq).
Qed.

(** A provider added after construction answers a default consensus call
    and takes no part in a default debate; a configured provider that was
    removed makes the default debate fail. *)
Example added_and_removed_providers :
  let self :=
    Orchestra.new (OrchestraConfig.mk [("a", sampleConfig); ("b", sampleConfig)]
                                      None None None None None) in
  match Orchestra.consensus Fanout.firstOf
          (Orchestra.addProvider self "c" sampleConfig) "q" None with
  | Fulfilled r => ConsensusEngine.providers r = ["a"; "b"; "c"]
  | Rejected _ => False
  end
  ∧ match Orchestra.debate Fanout.firstOf
            (Orchestra.addProvider self "c" sampleConfig) "q" None with
    | Some (Fulfilled res) => DebateResult.participants res = ["a"; "b"]
    | _ => False
    end
  ∧ Orchestra.debate Fanout.firstOf (Orchestra.removeProvider self "b") "q" None
    = Some (Rejected (Error "Provider b not found")).
Proof. split_and!; by vm_compute. Qed.


(** * Further properties of the registry, the engine and the facade *)

(** ** The registry as a map with insertion order *)

Module RegistryFacts.

Lemma get_remove_ne (name other : string) (m : ProviderRegistry.t) :
  other ≠ name →
  ProviderRegistry.get other (ProviderRegistry.remove name m)
  = ProviderRegistry.get other m.
Proof.
  intros Hne. unfold ProviderRegistry.remove, ProviderRegistry.t.
  induction m as [|[k v] m IH]; [done|].
  destruct (decide (k = name)) as [->|Hk].
  - rewrite filter_cons_False by (simpl; tauto). simpl.
    by rewrite decide_False.
  - rewrite filter_cons_True by done. simpl. by rewrite IH.
Qed.

Lemma list_remove_filter (name : string) (m : ProviderRegistry.t) :
  ProviderRegistry.list (ProviderRegistry.remove name m)
  = filter (λ n, n ≠ name) (ProviderRegistry.list m).
Proof.
  unfold ProviderRegistry.remove, ProviderRegistry.list, ProviderRegistry.t.
  induction m as [|[k v] m IH]; [done|].
  destruct (decide (k = name)) as [->|Hk].
  - rewrite filter_cons_False by (simpl; tauto). rewrite fmap_cons. simpl.
    by rewrite filter_cons_False by tauto.
  - rewrite filter_cons_True by done. rewrite !fmap_cons. simpl.
    rewrite filter_cons_True by done. by rewrite IH.
Qed.

Lemma list_set_order (name : string) (p : IProvider.t) (m : ProviderRegistry.t) :
  ProviderRegistry.list (ProviderRegistry.set name p m)
  = if decide (name ∈ ProviderRegistry.list m)
    then ProviderRegistry.list m
    else ProviderRegistry.list m ++ [name].
Proof.
  unfold ProviderRegistry.list.
  induction m as [|[k v] m IH]; [done|].
  cbn [ProviderRegistry.set]. destruct (decide (k = name)) as [->|Hk].
  - rewrite !fmap_cons. cbn [fst]. rewrite decide_True; [done|by left].
  - rewrite !fmap_cons. cbn [fst]. rewrite IH.
    destruct (decide (name ∈ m.*1)) as [Hin|Hin].
    + rewrite decide_True; [done|by right].
    + rewrite decide_False; [done|]. by intros [?|?]%elem_of_cons.
Qed.

Lemma remove_absent (name : string) (m : ProviderRegistry.t) :
  name ∉ ProviderRegistry.list m → ProviderRegistry.remove name m = m.
Proof.
  intros Hin. unfold ProviderRegistry.remove, ProviderRegistry.t.
  apply filter_all. intros [k v] Hkv Hk. simpl in Hk. subst k.
  apply Hin. unfold ProviderRegistry.list. apply list_elem_of_fmap.
  by exists (name, v).
Qed.

(** The registry holds mock providers only: [register] is the one way in. *)
Definition allMocks (m : ProviderRegistry.t) : Prop :=
  ∀ n p, ProviderRegistry.get n m = Some p →
         ∃ c, p = ProviderRegistry.createProvider n c.

Lemma allMocks_register (name : string) (c : ProviderConfig.t)
    (m : ProviderRegistry.t) :
  allMocks m → allMocks (ProviderRegistry.register name c m).
Proof.
  intros Hm n p. unfold ProviderRegistry.register.
  destruct (decide (n = name)) as [->|Hne].
  - rewrite Registry.get_set_eq. intros [= <-]. by exists c.
  - rewrite Registry.get_set_ne by done. apply Hm.
Qed.

Lemma allMocks_remove (name : string) (m : ProviderRegistry.t) :
  allMocks m → allMocks (ProviderRegistry.remove name m).
Proof.
  intros Hm n p. destruct (decide (n = name)) as [->|Hne].
  - by rewrite Registry.get_remove_eq.
  - rewrite get_remove_ne by done. apply Hm.
Qed.

Lemma list_registered_order (configs : list (string * ProviderConfig.t)) :
  ∀ m : ProviderRegistry.t,
    NoDup (ProviderRegistry.list m ++ configs.*1) →
    ProviderRegistry.list
      (foldl (λ reg '(name, c), ProviderRegistry.register name c reg) m configs)
    = ProviderRegistry.list m ++ configs.*1.
Proof.
  induction configs as [|[name c] configs IH]; intros m Hnd; simpl.
  { by rewrite app_nil_r. }
  simpl in Hnd.
  assert (Hname : name ∉ ProviderRegistry.list m).
  { apply NoDup_app in Hnd as (_ & Hd & _). intros Hin.
    apply (Hd name Hin). by left. }
  assert (Hl : ProviderRegistry.list (ProviderRegistry.register name c m)
               = ProviderRegistry.list m ++ [name]).
  { unfold ProviderRegistry.register. rewrite list_set_order.
    by rewrite decide_False. }
  rewrite IH; rewrite Hl, <- app_assoc; done.
Qed.

End RegistryFacts.

(** X1. After [register(name, config)] the registry returns the mock
    provider of that name for [name], and what it returned before for
    every other name; the mock answers every prompt. *)
Theorem register_then_get (m : ProviderRegistry.t) (name other : string)
    (c : ProviderConfig.t) (prompt : string) :
  ProviderRegistry.get name (ProviderRegistry.register name c m)
  = Some (ProviderRegistry.createProvider name c)
  ∧ (other ≠ name →
       ProviderRegistry.get other (ProviderRegistry.register name c m)
       = ProviderRegistry.get other m)
  ∧ name ∈ ProviderRegistry.list (ProviderRegistry.register name c m)
  ∧ ∃ p r,
      ProviderRegistry.get name (ProviderRegistry.register name c m) = Some p
      ∧ IProvider.name p = name
      ∧ IProvider.complete p prompt None = Fulfilled r
      ∧ provider r = name
      ∧ IProvider.healthCheck p = Some (Fulfilled true).
Proof.
  unfold ProviderRegistry.register. split_and!.
  - apply Registry.get_set_eq.
  - intros Hne. by apply Registry.get_set_ne.
  - apply Registry.list_set. by left.
  - eexists _, _. rewrite Registry.get_set_eq. by split_and!.
Qed.

(** X2. After [remove(name)] the registry has no provider for [name] and
    the name is no longer listed; every other name is untouched, the
    order of the remaining names is kept, and removing a name that is not
    registered changes nothing. *)
Theorem remove_then_get (m : ProviderRegistry.t) (name other : string) :
  ProviderRegistry.get name (ProviderRegistry.remove name m) = None
  ∧ (other ≠ name →
       ProviderRegistry.get other (ProviderRegistry.remove name m)
       = ProviderRegistry.get other m)
  ∧ ProviderRegistry.list (ProviderRegistry.remove name m)
    = filter (λ n, n ≠ name) (ProviderRegistry.list m)
  ∧ (ProviderRegistry.get name m = None → ProviderRegistry.remove name m = m).
Proof.
  split_and!.
  - apply Registry.get_remove_eq.
  - apply RegistryFacts.get_remove_ne.
  - apply RegistryFacts.list_remove_filter.
  - intros Hget. apply RegistryFacts.remove_absent.
    rewrite <- Registry.get_is_Some, Hget. by intros [? ?].
Qed.

(** X3. [list()] follows the insertion order of a [Map]: registering a new
    name appends it, registering a present name again keeps the listing
    as it is (the provider is replaced in place). *)
Theorem register_keeps_insertion_order (m : ProviderRegistry.t)
    (name : string) (c : ProviderConfig.t) :
  (name ∈ ProviderRegistry.list m →
     ProviderRegistry.list (ProviderRegistry.register name c m)
     = ProviderRegistry.list m)
  ∧ (name ∉ ProviderRegistry.list m →
       ProviderRegistry.list (ProviderRegistry.register name c m)
       = ProviderRegistry.list m ++ [name])
  ∧ length (ProviderRegistry.list m)
    ≤ length (ProviderRegistry.list (ProviderRegistry.register name c m))
  ∧ ∀ c', ProviderRegistry.register name c'
            (ProviderRegistry.register name c m)
          = ProviderRegistry.register name c' m.
Proof.
  unfold ProviderRegistry.register.
  pose proof (RegistryFacts.list_set_order name
                (ProviderRegistry.createProvider name c) m) as Hl.
  split_and!.
  - intros Hin. by rewrite Hl, decide_True.
  - intros Hin. by rewrite Hl, decide_False.
  - rewrite Hl. case_decide; [done|]. rewrite length_app. lia.
  - intros c'. clear Hl. induction m as [|[k v] m IH]; simpl.
    + by rewrite decide_True.
    + destruct (decide (k = name)) as [->|Hk]; simpl.
      * by rewrite decide_True.
      * rewrite decide_False by done. f_equal. apply IH.
Qed.

(** X4. The names of a registry stay distinct: [register] and [remove]
    keep a listing without repetition. *)
Theorem registry_names_distinct (m : ProviderRegistry.t) (name : string)
    (c : ProviderConfig.t) :
  NoDup (ProviderRegistry.list m) →
  NoDup (ProviderRegistry.list (ProviderRegistry.register name c m))
  ∧ NoDup (ProviderRegistry.list (ProviderRegistry.remove name m)).
Proof.
  intros Hnd. split.
  - unfold ProviderRegistry.register. rewrite RegistryFacts.list_set_order.
    case_decide; [done|]. apply NoDup_app. split_and!; [done| |apply NoDup_singleton].
    intros x Hx ->%list_elem_of_singleton. done.
  - rewrite RegistryFacts.list_remove_filter. by apply NoDup_filter.
Qed.

Lemma registry_names_distinct_sample :
  NoDup (ProviderRegistry.list
           (ProviderRegistry.register "b" sampleConfig
              [("a", mock "a"); ("b", mock "b")]))
  ∧ NoDup (ProviderRegistry.list
             (ProviderRegistry.remove "b" [("a", mock "a"); ("b", mock "b")])).
Proof.
  apply (registry_names_distinct [("a", mock "a"); ("b", mock "b")] "b"
           sampleConfig).
  apply (bool_decide_unpack _). by vm_compute.
Defined.

(** ** Similarity *)

Module SimilarityFacts.

Lemma jaccard_bounds (A B : gset string) :
  (0 <= jaccard A B)%Q ∧ (jaccard A B <= 1)%Q.
Proof.
  unfold jaccard. case_decide as Hempty; [by split|].
  assert (Hle : size (A ∩ B) ≤ size (A ∪ B)).
  { apply subseteq_size. intros x. rewrite elem_of_intersection, elem_of_union.
    tauto. }
  assert (Hpos : 0 < size (A ∪ B)).
  { destruct (decide (size (A ∪ B) = 0)) as [Hz|]; [|lia].
    apply size_empty_iff in Hz. apply leibniz_equiv in Hz.
    destruct Hempty. split; apply set_eq; intros x;
      (split; [|by intros ?%not_elem_of_empty]); intros Hx;
      rewrite <- Hz, elem_of_union; tauto. }
  by apply Qnat_ratio_bounds.
Qed.

Lemma jaccard_comm (A B : gset string) : jaccard A B = jaccard B A.
Proof.
  unfold jaccard.
  replace (B ∩ A) with (A ∩ B)
    by (apply set_eq; intros x; rewrite !elem_of_intersection; tauto).
  replace (B ∪ A) with (A ∪ B)
    by (apply set_eq; intros x; rewrite !elem_of_union; tauto).
  destruct (decide (A = ∅ ∧ B = ∅)), (decide (B = ∅ ∧ A = ∅)); tauto.
Qed.

(** The ratio is 1 only for equal sets. *)
Lemma jaccard_one (A B : gset string) :
  A ≠ ∅ → (jaccard A B == 1)%Q → A = B.
Proof.
  intros HA. unfold jaccard. rewrite decide_False by tauto.
  intros H.
  assert (Hsub : A ∩ B ⊆ A ∪ B).
  { intros x. rewrite elem_of_intersection, elem_of_union. tauto. }
  assert (Hpos : 0 < size (A ∪ B)).
  { destruct (decide (size (A ∪ B) = 0)) as [Hz|]; [|lia].
    apply size_empty_iff in Hz. apply leibniz_equiv in Hz.
    destruct HA. apply set_eq. intros x.
    split; [|by intros ?%not_elem_of_empty]. intros Hx.
    rewrite <- Hz, elem_of_union. tauto. }
  assert (Hsize : size (A ∪ B) ≤ size (A ∩ B)).
  { apply Qnat_pos in Hpos.
    assert (E : (Qnat (size (A ∩ B)) == Qnat (size (A ∪ B)))%Q).
    { rewrite <- (Qmult_1_l (Qnat (size (A ∪ B)))), <- H.
      unfold Qdiv. rewrite <- Qmult_assoc, (Qmult_comm (/ _)), Qmult_inv_r.
      - by rewrite Qmult_1_r.
      - intros E. rewrite E in Hpos. by apply Qlt_irrefl in Hpos. }
    unfold Qeq, Qnat in E. simpl in E. lia. }
  pose proof (set_subseteq_size_eq _ _ Hsub Hsize) as Heq.
  apply set_eq. intros x.
  assert (Hx : x ∈ A ∩ B ↔ x ∈ A ∪ B) by by rewrite Heq.
  rewrite elem_of_intersection, elem_of_union in Hx. tauto.
Qed.

Lemma toLowerCase_idemp (s : string) :
  Js.toLowerCase (Js.toLowerCase s) = Js.toLowerCase s.
Proof.
  induction s as [|c s IH]; simpl; [done|]. rewrite IH. f_equal.
  destruct c as [[] [] [] [] [] [] [] []]; by vm_compute.
Qed.

End SimilarityFacts.

(** X5. The similarity of [areSimilar] lies in [0, 1], is symmetric, and
    is 1 exactly when the two responses have the same set of lower-case
    tokens; in particular every response is similar to itself and to its
    own content in lower case, and [areSimilar] is symmetric. *)
Theorem similarity_symmetric_bounded (a b : Response) :
  (0 <= ConsensusEngine.similarity a b)%Q
  ∧ (ConsensusEngine.similarity a b <= 1)%Q
  ∧ ConsensusEngine.similarity a b = ConsensusEngine.similarity b a
  ∧ ConsensusEngine.areSimilar a b = ConsensusEngine.areSimilar b a
  ∧ ((ConsensusEngine.similarity a b == 1)%Q ↔ wordsOf a = wordsOf b)
  ∧ ConsensusEngine.areSimilar a a = true
  ∧ ConsensusEngine.areSimilar a
      (mkResponse (Js.toLowerCase (content a)) (provider b) (model b)
                  (tokens b) (cost b)) = true.
Proof.
  rewrite !similarity_jaccard.
  destruct (SimilarityFacts.jaccard_bounds (wordsOf a) (wordsOf b)) as [H0 H1].
  split_and!; try done.
  - apply SimilarityFacts.jaccard_comm.
  - apply areSimilar_sym.
  - split.
    + apply SimilarityFacts.jaccard_one, wordSet_nonempty.
    + intros ->. apply jaccard_same, wordSet_nonempty.
  - by apply areSimilar_same_words.
  - apply areSimilar_same_words. unfold wordsOf. simpl.
    by rewrite SimilarityFacts.toLowerCase_idemp.
Qed.

(** ** The shape of the grouping *)

Module GroupingFacts.
Import ConsensusEngine.

Lemma greedyGroups_length (l : list Obj) :
  length (greedyGroups l) ≤ length l.
Proof.
  apply (Grouping.greedyGroups_ind (λ l gs, length gs ≤ length l)); [done|].
  intros s t rest IH. simpl.
  pose proof (length_filter (λ r : Obj, ¬ areSimilar s r) t). fold rest in H.
  lia.
Qed.

(** No response of a later group is similar to the seed of an earlier
    group. *)
Lemma greedyGroups_later (l : list Obj) :
  ∀ i j (si : Obj) (gi gj : list Obj) (r : Obj),
    i < j →
    greedyGroups l !! i = Some (si :: gi) → greedyGroups l !! j = Some gj →
    r ∈ gj → areSimilar si r = false.
Proof.
  apply (Grouping.greedyGroups_ind
           (λ _ gs, ∀ i j (si : Obj) (gi gj : list Obj) (r : Obj),
               i < j → gs !! i = Some (si :: gi) → gs !! j = Some gj →
               r ∈ gj → areSimilar si r = false)).
  { intros i j si gi gj r _ H. by rewrite lookup_nil in H. }
  intros s t rest IH i j si gi gj r Hij Hi Hj Hr.
  destruct j as [|j]; [lia|]. simpl in Hj. destruct i as [|i]; simpl in Hi.
  - injection Hi as <- <-.
    assert (Hrest : r ∈ rest).
    { apply (Grouping.greedyGroups_elem rest gj); [|done].
      apply list_elem_of_lookup. eauto. }
    apply list_elem_of_filter in Hrest as [Hn _].
    destruct (areSimilar s r); [|done]. by destruct Hn.
  - apply (IH i j si gi gj r); [lia|done..].
Qed.

Lemma greedyGroups_single (s : Obj) (t : list Obj) :
  greedyGroups (s :: t) = [s :: t] ↔ ∀ r : Obj, r ∈ t → areSimilar s r = true.
Proof.
  simp greedyGroups. split.
  - intros [= Hf Hrest] r Hr. rewrite <- Hf in Hr.
    apply list_elem_of_filter in Hr as [Hs _]. by apply Is_true_true in Hs.
  - intros Hall.
    rewrite (filter_all (λ r : Obj, areSimilar s r) t)
      by (intros r Hr; rewrite (Hall r Hr); done).
    rewrite (filter_none (λ r : Obj, ¬ areSimilar s r) t).
    + by simp greedyGroups.
    + intros r Hr Hn. apply Hn. by rewrite (Hall r Hr).
Qed.

End GroupingFacts.

(** X6. The grouping opens at most one group per response and none for an
    empty array; the first response seeds the first group; no response of
    a later group is similar to the seed of an earlier group; and there is
    a single group exactly when every response is similar to the first
    one. *)
Theorem grouping_shape (responses : list Obj) :
  let groups := ConsensusEngine.groupSimilarResponses responses in
  length groups ≤ length responses
  ∧ (groups = [] ↔ responses = [])
  ∧ (∀ (s : Obj) t, responses = s :: t →
       (∃ rest gs, groups = (s :: rest) :: gs)
       ∧ (groups = [responses]
          ↔ ∀ r : Obj, r ∈ t → ConsensusEngine.areSimilar s r = true))
  ∧ (∀ i j (si : Obj) (gi gj : list Obj) (r : Obj),
       i < j → groups !! i = Some (si :: gi) → groups !! j = Some gj →
       r ∈ gj → ConsensusEngine.areSimilar si r = false).
Proof.
  cbv zeta. rewrite Grouping.groupSimilarResponses_greedy. split_and!.
  - apply GroupingFacts.greedyGroups_length.
  - destruct responses as [|s t]; simp greedyGroups; [done|].
    split; intros; done.
  - intros s t ->. split.
    + simp greedyGroups. by eexists _, _.
    + apply GroupingFacts.greedyGroups_single.
  - apply GroupingFacts.greedyGroups_later.
Qed.

(** ** The result of a consensus *)

Module ConsensusFacts.
Import ConsensusEngine.

(** What [calculateConsensus] returns, in terms of the majority group. *)
Lemma calculateConsensus_majority (responses : list Obj) (mode : Mode)
    (options : option ConsensusOptions.t) :
  responses ≠ [] → Grouping.identified responses →
  ∃ (k : nat) (seed : Obj) (rest dis : list Obj),
    groupSimilarResponses responses !! k = Some (seed :: rest)
    ∧ length (seed :: rest) ≤ length responses
    ∧ (seed :: rest) ++ dis ≡ₚ responses
    ∧ (∀ r : Obj, r ∈ dis ↔ r ∈ responses ∧ r ∉ seed :: rest)
    ∧ calculateConsensus responses mode options
      = Some {| result := content seed;
                confidence := calculateConfidence (seed :: rest) responses;
                agreement :=
                  (Qnat (length (seed :: rest)) / Qnat (length responses))%Q;
                dissenting := if 0 <? length dis then Some dis else None |}.
Proof.
  intros Hne Hid.
  destruct (Grouping.majority_group responses Hne)
    as (k & seed & rest & Hk & Hlargest & _ & _ & Hle).
  destruct (Grouping.dissent_partition responses k (seed :: rest) Hid Hk)
    as [Hperm Hdis].
  exists k, seed, rest. eexists. split_and!; [done..|].
  unfold calculateConsensus. by rewrite Hlargest.
Qed.

Lemma Qnat_ratio_one (m n : nat) :
  0 < n → (Qnat m / Qnat n == 1)%Q ↔ m = n.
Proof.
  intros Hn. split; [|intros ->; by apply Qnat_div_same].
  intros H. pose proof (Qnat_pos n Hn) as Hpos.
  assert (E : (Qnat m == Qnat n)%Q).
  { rewrite <- (Qmult_1_l (Qnat n)), <- H.
    unfold Qdiv. rewrite <- Qmult_assoc, (Qmult_comm (/ _)), Qmult_inv_r.
    - by rewrite Qmult_1_r.
    - intros E. rewrite E in Hpos. by apply Qlt_irrefl in Hpos. }
  unfold Qeq, Qnat in E. simpl in E. lia.
Qed.

End ConsensusFacts.

(** X7. For a non-empty array of response objects the consensus is
    extractive: the result is the content of one of the responses, and
    that response does not dissent.  The agreement is at least [1/n], the
    confidence is never below the agreement, and the dissenting responses,
    when there are any, are fewer than the responses.  Nothing dissents
    exactly when the agreement is 1, which is exactly when every response
    is similar to the first one.  The mode and the options make no
    difference. *)
Theorem consensus_is_extractive (responses : list Obj) (mode : Mode)
    (options : option ConsensusOptions.t) :
  responses ≠ [] → Grouping.identified responses →
  ∃ c,
    ConsensusEngine.calculateConsensus responses mode options = Some c
    ∧ (∃ r : Obj, r ∈ responses ∧ ConsensusEngine.result c = content r
         ∧ ∀ dis, ConsensusEngine.dissenting c = Some dis → r ∉ dis)
    ∧ (Qnat 1 / Qnat (length responses) <= ConsensusEngine.agreement c)%Q
    ∧ (ConsensusEngine.agreement c <= ConsensusEngine.confidence c)%Q
    ∧ (∀ dis, ConsensusEngine.dissenting c = Some dis →
         dis ≠ [] ∧ length dis < length responses)
    ∧ (ConsensusEngine.dissenting c = None
       ↔ (ConsensusEngine.agreement c == 1)%Q)
    ∧ (∀ (s : Obj) t, responses = s :: t →
         (ConsensusEngine.dissenting c = None
          ↔ ∀ r : Obj, r ∈ t → ConsensusEngine.areSimilar s r = true))
    ∧ (∀ mode' options',
         ConsensusEngine.calculateConsensus responses mode' options' = Some c).
Proof.
  intros Hne Hid.
  destruct (ConsensusFacts.calculateConsensus_majority responses mode options
              Hne Hid)
    as (k & seed & rest & dis & Hk & Hle & Hperm & Hdis & Hc).
  set (maj := seed :: rest) in *.
  assert (Hpos : 0 < length responses) by (destruct responses; [done|simpl; lia]).
  assert (Hlen : length maj + length dis = length responses).
  { apply Permutation_length in Hperm. by rewrite length_app in Hperm. }
  assert (Hnone : (if 0 <? length dis then Some dis else None) = None
                  ↔ length maj = length responses).
  { destruct dis; simpl in *; split; (done || lia). }
  eexists. split; [exact Hc|].
  cbn [ConsensusEngine.agreement ConsensusEngine.confidence
       ConsensusEngine.dissenting ConsensusEngine.result].
  split_and!.
  - exists seed. split_and!; [|done|].
    + rewrite <- Hperm. apply elem_of_app. left. by left.
    + intros dis'. destruct dis as [|d dis0]; simpl; [done|].
      intros [= <-] Hin. apply Hdis in Hin as [_ Hin]. apply Hin. by left.
  - apply Qmult_le_compat_r.
    + apply Qnat_le. unfold maj. simpl. lia.
    + apply Qinv_le_0_compat, Qnat_nonneg.
  - destruct (decide (length maj = length responses)) as [E|E].
    + destruct (confidence_unanimous maj responses Hpos E) as [_ ->].
      by apply Qnat_ratio_bounds.
    + unfold ConsensusEngine.calculateConfidence.
      rewrite (proj2 (Nat.eqb_neq _ _) E). apply Qle_refl.
  - intros dis'. destruct dis as [|d dis0]; simpl; [done|].
    intros [= <-]. split; [done|]. unfold maj in Hlen. simpl in *. lia.
  - rewrite Hnone. symmetry. by apply ConsensusFacts.Qnat_ratio_one.
  - intros s t ->. rewrite Hnone. split.
    + intros E.
      assert (Hdis0 : dis = []) by (destruct dis; [done|simpl in *; lia]).
      subst dis. rewrite app_nil_r in Hperm.
      rewrite Grouping.groupSimilarResponses_greedy in Hk.
      assert (Hs : s ∈ maj) by (rewrite Hperm; by left).
      assert (H0 : ConsensusEngine.greedyGroups (s :: t) !! 0
                   = Some (s :: filter (λ r : Obj, ConsensusEngine.areSimilar s r) t))
        by by simp greedyGroups.
      assert (k = 0).
      { apply (Grouping.greedyGroups_unique (s :: t) k 0 maj _ s Hk H0 Hs).
        by left. }
      subst k. rewrite H0 in Hk. injection Hk as _ Hrest.
      intros r Hr.
      destruct (ConsensusEngine.areSimilar s r) eqn:Hsim; [done|].
      exfalso.
      assert (Hn : ¬ (λ r : Obj, ConsensusEngine.areSimilar s r : Prop) r)
        by (simpl; rewrite Hsim; intros []).
      pose proof (length_filter_lt _ t r Hr Hn) as Hlt.
      apply (f_equal length) in Hrest. unfold maj in *. simpl in E, Hlt. lia.
    + intros Hall.
      apply GroupingFacts.greedyGroups_single in Hall.
      rewrite Grouping.groupSimilarResponses_greedy, Hall in Hk.
      destruct k as [|k]; simpl in Hk; [|by rewrite lookup_nil in Hk].
      assert (Hm : s :: t = maj) by congruence. by rewrite <- Hm.
  - intros mode' options'. exact Hc.
Qed.

Lemma consensus_is_extractive_postgres3 :
  ∃ c,
    ConsensusEngine.calculateConsensus postgres3 democratic None = Some c
    ∧ (∃ r : Obj, r ∈ postgres3 ∧ ConsensusEngine.result c = content r
         ∧ ∀ dis, ConsensusEngine.dissenting c = Some dis → r ∉ dis)
    ∧ (Qnat 1 / Qnat (length postgres3) <= ConsensusEngine.agreement c)%Q
    ∧ (ConsensusEngine.agreement c <= ConsensusEngine.confidence c)%Q
    ∧ (∀ dis, ConsensusEngine.dissenting c = Some dis →
         dis ≠ [] ∧ length dis < length postgres3)
    ∧ (ConsensusEngine.dissenting c = None
       ↔ (ConsensusEngine.agreement c == 1)%Q)
    ∧ (∀ (s : Obj) t, postgres3 = s :: t →
         (ConsensusEngine.dissenting c = None
          ↔ ∀ r : Obj, r ∈ t → ConsensusEngine.areSimilar s r = true))
    ∧ (∀ mode' options',
         ConsensusEngine.calculateConsensus postgres3 mode' options' = Some c).
Proof.
  apply (consensus_is_extractive postgres3 democratic None);
    [done|apply postgres3_identified].
Defined.

(** ** The agreement of a debate round *)

Module AgreementFacts.
Import Orchestra.


Definition ratio (p : Response * Response) : Q :=
  jaccard (wordsOf p.1) (wordsOf p.2).





End AgreementFacts.

(** ** The rounds of a debate *)

Module DebateFacts.
Import Orchestra.

(** [options?.provider || config.defaultProvider || 'openai'] for a
    participant [p] of a debate. *)
Definition resolveName (self : Orchestra.t) (p : string) : string :=
  orString (Some p)
           (orString (OrchestraConfig.defaultProvider (config self)) "openai").

Definition askParticipant (self : Orchestra.t) (prompt p : string)
    : Outcome Response :=
  query self prompt (Some (QueryOptions.mk (Some p) None None None)).

Lemma askParticipant_Fulfilled (self : Orchestra.t) (prompt p : string)
    (r : Response) :
  askParticipant self prompt p = Fulfilled r →
  provider r = resolveName self p
  ∧ ∃ prov r0,
      ProviderRegistry.get (resolveName self p) (registry self) = Some prov
      ∧ IProvider.complete prov prompt
          (Some (QueryOptions.mk (Some p) None None None)) = Fulfilled r0
      ∧ content r = content r0 ∧ cost r = cost r0.
Proof.
  unfold askParticipant, query. cbn [mbind option_bind QueryOptions.provider].
  fold (resolveName self p).
  destruct (ProviderRegistry.get (resolveName self p) (registry self))
    as [prov|]; [|done].
  destruct (IProvider.complete prov prompt _) as [r0|e] eqn:E; simpl; [|done].
  intros [= <-]. split; [done|]. by exists prov, r0.
Qed.

Lemma askParticipant_Rejected (self : Orchestra.t) (prompt p : string)
    (e : Thrown) :
  askParticipant self prompt p = Rejected e →
  (ProviderRegistry.get (resolveName self p) (registry self) = None
   ∧ e = Error ("Provider " +:+ resolveName self p +:+ " not found"))
  ∨ ∃ prov,
      ProviderRegistry.get (resolveName self p) (registry self) = Some prov
      ∧ IProvider.complete prov prompt
          (Some (QueryOptions.mk (Some p) None None None)) = Rejected e.
Proof.
  unfold askParticipant, query. cbn [mbind option_bind QueryOptions.provider].
  fold (resolveName self p).
  destruct (ProviderRegistry.get (resolveName self p) (registry self))
    as [prov|]; [|intros [= <-]; by left].
  destruct (IProvider.complete prov prompt _) as [r0|e'] eqn:E; simpl; [done|].
  intros [= <-]. right. by exists prov.
Qed.

Section rounds.
Context (race : Scheduler) (self : Orchestra.t) (threshold : Q)
        (maxRounds : nat) (providers : list string).

(** The round that a successful turn records holds the answers of the
    participants, in their order. *)
Lemma debateRound_answers (st st' : Loop) :
  debateRound race self threshold maxRounds providers st = Fulfilled st' →
  ∃ responses,
    askParticipant self (prompt st) <$> providers = Fulfilled <$> responses
    ∧ rounds st'
      = rounds st ++ [DebateRound.mk (S (round st)) responses
                        (calculateAgreement responses) None].
Proof.
  unfold debateRound.
  destruct (Promise_all race _) as [responses|e] eqn:Hall; simpl; [|done].
  apply Promise_all_Fulfilled in Hall.
  destruct (_ && _); simpl.
  - destruct (buildDebatePrompt _ _); simpl; [|done].
    intros [= <-]. by exists responses.
  - intros [= <-]. by exists responses.
Qed.

Lemma debateRound_Rejected (st : Loop) (e : Thrown) :
  debateRound race self threshold maxRounds providers st = Rejected e →
  picks race →
  ∃ p, p ∈ providers ∧ askParticipant self (prompt st) p = Rejected e.
Proof.
  unfold debateRound. intros H Hrace.
  destruct (Promise_all race _) as [responses|e'] eqn:Hall; simpl in H.
  - destruct (_ && _); simpl in H; [|done].
    unfold buildDebatePrompt in H. rewrite last_snoc in H. done.
  - injection H as ->. apply (Promise_all_Rejected race _ _ Hrace) in Hall.
    apply list_elem_of_fmap in Hall as (p & Hp & Hin). by exists p.
Qed.

(** A property of every recorded round that each turn establishes holds
    of all rounds at the end. *)
Lemma debateLoop_rounds (P : DebateRound.t → Prop) :
  (∀ st st',
     debateRound race self threshold maxRounds providers st = Fulfilled st' →
     ∃ r, rounds st' = rounds st ++ [r] ∧ P r) →
  ∀ fuel st st',
    Forall P (rounds st) →
    debateLoop race self threshold maxRounds providers fuel st
      = Some (Fulfilled st') →
    Forall P (rounds st').
Proof.
  intros Hstep. induction fuel as [|fuel IH]; intros st st' HP; simpl;
    destruct (_ && _); try done; try by intros [= <-].
  destruct (debateRound race self threshold maxRounds providers st)
    as [st1|e] eqn:E; [|done].
  apply IH. destruct (Hstep st st1 E) as (r & -> & Hr).
  apply Forall_app. split; [done|]. by constructor.
Qed.

(** A rejection of the loop is the rejection of one of its turns. *)
Lemma debateLoop_Rejected (fuel : nat) (st : Loop) (e : Thrown) :
  debateLoop race self threshold maxRounds providers fuel st
    = Some (Rejected e) →
  ∃ st0, debateRound race self threshold maxRounds providers st0 = Rejected e.
Proof.
  revert st. induction fuel as [|fuel IH]; intros st; simpl;
    destruct (_ && _); try done.
  destruct (debateRound race self threshold maxRounds providers st)
    as [st1|e'] eqn:E; [apply IH|].
  intros [= <-]. by exists st.
Qed.

End rounds.

Lemma synthesizeDecision_Some (rounds : list DebateRound.t) (d : string) :
  synthesizeDecision rounds = Some d
  ↔ ∃ r first, last rounds = Some r
               ∧ head (DebateRound.arguments r) = Some first
               ∧ d = content first.
Proof.
  unfold synthesizeDecision. split.
  - destruct (last rounds) as [r|]; simpl; [|done].
    destruct (head (DebateRound.arguments r)) as [first|] eqn:Hh; simpl;
      [|done].
    intros [= <-]. by exists r, first.
  - intros (r & first & -> & Hh & ->). simpl. by rewrite Hh.
Qed.

End DebateFacts.

(** X9. In the result of a debate every round holds one argument per
    participant, in the order of the participants, and each argument
    carries the name under which its participant was queried (the
    participant's own name when it is not empty).  There is at least one
    participant, and the decision is the content of the first argument of
    the last round. *)
Theorem debate_rounds_follow_participants (race : Scheduler)
    (self : Orchestra.t) (prompt : string) (options : option DebateOptions.t)
    (res : DebateResult.t) :
  Orchestra.debate race self prompt options = Some (Fulfilled res) →
  DebateResult.participants res = Orchestra.participantsOf self options
  ∧ DebateResult.participants res ≠ []
  ∧ (∀ r, r ∈ DebateResult.rounds res →
       length (DebateRound.arguments r) = length (DebateResult.participants res)
       ∧ provider <$> DebateRound.arguments r
         = DebateFacts.resolveName self <$> DebateResult.participants res
       ∧ ∀ i p a, DebateResult.participants res !! i = Some p →
                  DebateRound.arguments r !! i = Some a →
                  p ≠ EmptyString → provider a = p)
  ∧ ∃ r first,
      last (DebateResult.rounds res) = Some r
      ∧ head (DebateRound.arguments r) = Some first
      ∧ DebateResult.decision res = content first.
Proof.
  intros (st & Hloop & Hdec & Hrounds & _ & _ & Hpart)%Debate.debate_Fulfilled.
  rewrite Hpart, Hrounds.
  set (ps := Orchestra.participantsOf self options) in *.
  assert (Hall : Forall (λ r, provider <$> DebateRound.arguments r
                              = DebateFacts.resolveName self <$> ps)
                        (Orchestra.rounds st)).
  { eapply (DebateFacts.debateLoop_rounds race self _ _ ps);
      [| |exact Hloop]; [|by constructor].
    intros st0 st1 (responses & Hq & ->)%DebateFacts.debateRound_answers.
    eexists. split; [done|]. simpl.
    clear -Hq. revert responses Hq.
    induction ps as [|p ps IH]; intros [|r responses] Hq; try done.
    rewrite !fmap_cons in Hq. injection Hq as Hr Hq.
    rewrite !fmap_cons. f_equal; [|by apply IH].
    by apply DebateFacts.askParticipant_Fulfilled in Hr as [-> _]. }
  apply DebateFacts.synthesizeDecision_Some in Hdec
    as (r & first & Hlast & Hhead & Hd).
  assert (Hr : r ∈ Orchestra.rounds st) by by apply last_Some_elem_of.
  split; [done|]. split_and!.
  - intros E. rewrite Forall_forall in Hall. specialize (Hall r Hr).
    rewrite E in Hall. destruct (DebateRound.arguments r); done.
  - intros r' Hr'. rewrite Forall_forall in Hall. specialize (Hall r' Hr').
    split_and!; [|done|].
    + apply (f_equal length) in Hall. by rewrite !length_fmap in Hall.
    + intros i p a Hp Ha Hne.
      apply (f_equal (λ l, l !! i)) in Hall.
      rewrite !list_lookup_fmap, Hp, Ha in Hall. simpl in Hall.
      injection Hall as ->. unfold DebateFacts.resolveName.
      by destruct p.
  - by exists r, first.
Qed.

Definition threeMocks : Orchestra.t :=
  Orchestra.new
    (OrchestraConfig.mk
       [("a", sampleConfig); ("b", sampleConfig); ("c", sampleConfig)]
       None None None None None).

Definition threeMocksDebate : DebateResult.t :=
  match Orchestra.debate Fanout.firstOf threeMocks "q" None with
  | Some (Fulfilled res) => res
  | _ => DebateResult.mk EmptyString [] 0 [] 0
  end.

Lemma debate_rounds_follow_participants_mocks :
  DebateResult.participants threeMocksDebate
    = Orchestra.participantsOf threeMocks None
  ∧ DebateResult.participants threeMocksDebate ≠ []
  ∧ (∀ r, r ∈ DebateResult.rounds threeMocksDebate →
       length (DebateRound.arguments r)
         = length (DebateResult.participants threeMocksDebate)
       ∧ provider <$> DebateRound.arguments r
         = DebateFacts.resolveName threeMocks
             <$> DebateResult.participants threeMocksDebate
       ∧ ∀ i p a, DebateResult.participants threeMocksDebate !! i = Some p →
                  DebateRound.arguments r !! i = Some a →
                  p ≠ EmptyString → provider a = p)
  ∧ ∃ r first,
      last (DebateResult.rounds threeMocksDebate) = Some r
      ∧ head (DebateRound.arguments r) = Some first
      ∧ DebateResult.decision threeMocksDebate = content first.
Proof.
  apply (debate_rounds_follow_participants Fanout.firstOf threeMocks "q" None).
  by vm_compute.
Defined.

(** X10. A debate without participants, or with a threshold that is not
    positive, never returns a result: no round holds an argument to take
    the decision from, and the call throws a TypeError. *)
Theorem debate_without_arguments_throws (race : Scheduler)
    (self : Orchestra.t) (prompt : string) (options : option DebateOptions.t) :
  (Orchestra.participantsOf self options = [] →
     Orchestra.debate race self prompt options = Some (Rejected TypeError))
  ∧ ((Orchestra.thresholdOf self options <= 0)%Q →
       Orchestra.debate race self prompt options = Some (Rejected TypeError)).
Proof.
  split.
  - intros Hps. unfold Orchestra.debate, Orchestra.debateWith. cbv zeta.
    rewrite Hps.
    set (t := Orchestra.thresholdOf self options).
    set (n := Orchestra.maxRoundsOf self options).
    destruct (Debate.debateLoop_ends race self t n [] n _
                (Debate.invariant_start t n prompt))
      as (out & Hout & _); [simpl; lia|].
    rewrite Hout. simpl. f_equal.
    destruct out as [st|e].
    + simpl.
      assert (Hall : Forall (λ r, DebateRound.arguments r = [])
                            (Orchestra.rounds st)).
      { eapply (DebateFacts.debateLoop_rounds race self t n []);
          [| |exact Hout]; [|by constructor].
        intros st0 st1 (responses & Hq & ->)%DebateFacts.debateRound_answers.
        eexists. split; [done|]. simpl. by destruct responses. }
      unfold Orchestra.synthesizeDecision.
      destruct (last (Orchestra.rounds st)) as [r|] eqn:Hlast; [|done].
      apply last_Some_elem_of in Hlast. rewrite Forall_forall in Hall.
      simpl. by rewrite (Hall r Hlast).
    + exfalso. apply DebateFacts.debateLoop_Rejected in Hout as [st0 Hst0].
      unfold Orchestra.debateRound in Hst0. simpl in Hst0.
      destruct (_ && _); simpl in Hst0; [|done].
      unfold Orchestra.buildDebatePrompt in Hst0.
      by rewrite last_snoc in Hst0.
  - intros Ht. unfold Orchestra.debate, Orchestra.debateWith. cbv zeta.
    assert (Hc : Qltb 0 (Orchestra.thresholdOf self options) = false).
    { apply not_true_iff_false. rewrite Qltb_lt. by apply Qle_not_lt. }
    destruct (Orchestra.maxRoundsOf self options); simpl; by rewrite Hc.
Qed.

(** A negative threshold: the loop makes no turn. *)
Example debate_negative_threshold :
  Orchestra.debate Fanout.firstOf threeMocks "q"
    (Some (DebateOptions.mk None None (Some (-1 # 2)) None))
  = Some (Rejected TypeError).
Proof. by vm_compute. Qed.

(** ** Strings *)

Module JsFacts.

Lemma append_cons (c : ascii) (a b : string) :
  String c a +:+ b = String c (a +:+ b).
Proof. done. Qed.

Lemma append_nil_l (a : string) : EmptyString +:+ a = a.
Proof. done. Qed.

Lemma length_append (a b : string) :
  String.length (a +:+ b) = String.length a + String.length b.
Proof.
  induction a as [|c a IH]; [done|]. rewrite append_cons. simpl.
  by rewrite IH.
Qed.

Lemma append_assoc (a b c : string) : (a +:+ b) +:+ c = a +:+ (b +:+ c).
Proof.
  induction a as [|x a IH]; [done|]. rewrite !append_cons. by rewrite IH.
Qed.

Lemma append_nil_r (a : string) : a +:+ EmptyString = a.
Proof.
  induction a as [|x a IH]; [done|]. rewrite append_cons. by rewrite IH.
Qed.

Lemma toLowerCase_append (a b : string) :
  Js.toLowerCase (a +:+ b) = Js.toLowerCase a +:+ Js.toLowerCase b.
Proof.
  induction a as [|c a IH]; [done|]. rewrite append_cons. simpl.
  by rewrite IH, append_cons.
Qed.

Lemma length_substring0 (n : nat) (s : string) :
  String.length (Js.substring0 n s) = n `min` String.length s.
Proof.
  revert s. induction n as [|n IH]; intros [|c s]; simpl; try done.
  by rewrite IH.
Qed.

Lemma substring0_prefix (n : nat) (s : string) :
  ∃ rest, s = Js.substring0 n s +:+ rest.
Proof.
  revert s. induction n as [|n IH]; intros [|c s]; simpl; try by eexists.
  destruct (IH s) as [rest E]. exists rest. by rewrite append_cons, <- E.
Qed.

Lemma length_join (sep : string) (xs : list string) :
  String.length (Js.join sep xs) + String.length sep
  ≤ sum_list ((λ x, String.length x + String.length sep) <$> xs)
    + String.length sep
  ∧ sum_list (String.length <$> xs) ≤ String.length (Js.join sep xs).
Proof.
  induction xs as [|x xs IH]; simpl; [lia|].
  destruct xs as [|y xs]; simpl in *; [lia|].
  rewrite !length_append. lia.
Qed.

(** A string without whitespace. *)
Fixpoint hasSpace (s : string) : bool :=
  match s with
  | EmptyString => false
  | String c s' => Js.is_space c || hasSpace s'
  end.

Lemma is_space_lower (c : ascii) : Js.is_space (Js.lower_char c) = Js.is_space c.
Proof. destruct c as [[] [] [] [] [] [] [] []]; by vm_compute. Qed.

Lemma hasSpace_lower (s : string) : hasSpace (Js.toLowerCase s) = hasSpace s.
Proof.
  induction s as [|c s IH]; simpl; [done|]. by rewrite is_space_lower, IH.
Qed.

(** Splitting a string that starts with [s1]: the pieces that end within
    [s1], the piece that is open at its end, and whether [s1] ends with
    whitespace. *)
Fixpoint scan (cur : string) (in_run : bool) (s : string)
    : list string * string * bool :=
  match s with
  | EmptyString => ([], cur, in_run)
  | String c s' =>
      if Js.is_space c then
        if in_run then scan cur true s'
        else let '(ts, cur', r') := scan EmptyString true s' in
             (cur :: ts, cur', r')
      else scan (cur +:+ String c EmptyString) false s'
  end.

Lemma split_from_append (s1 s2 cur : string) (in_run : bool) :
  Js.split_from cur in_run (s1 +:+ s2)
  = let '(ts, cur', r') := scan cur in_run s1 in
    ts ++ Js.split_from cur' r' s2.
Proof.
  revert cur in_run. induction s1 as [|c s1 IH]; intros cur in_run;
    [done|].
  rewrite append_cons. simpl.
  destruct (Js.is_space c); [destruct in_run|]; rewrite ?IH; try done.
  by destruct (scan EmptyString true s1) as [[ts cur'] r'].
Qed.

(** A stretch without whitespace, followed by a colon, extends the open
    piece. *)
Lemma split_from_word (w rest cur : string) (in_run : bool) :
  hasSpace w = false →
  Js.split_from cur in_run (w +:+ String ":" rest)
  = Js.split_from (cur +:+ w +:+ ":") false rest.
Proof.
  revert cur in_run. induction w as [|c w IH]; intros cur in_run Hw.
  { by rewrite append_nil_l. }
  simpl in Hw. apply orb_false_iff in Hw as [Hc Hw].
  rewrite append_cons. simpl. rewrite Hc.
  rewrite (IH _ false Hw). by rewrite !append_assoc.
Qed.

End JsFacts.

(** ** The mock providers *)

Module MockFacts.

(** What the mock provider [name] answers to [prompt]. *)
Definition mockResponse (name prompt : string) : Response :=
  {| content := "Response from " +:+ name
                  +:+ ": This is a simulated response to "
                  +:+ Js.dquote +:+ prompt +:+ Js.dquote;
     provider := name;
     model := None;
     tokens := Some (String.length prompt, 50, String.length prompt + 50);
     cost := Some Double.milli |}.

Lemma createProvider_complete (name : string) (c : ProviderConfig.t)
    (prompt : string) (options : option QueryOptions.t) :
  IProvider.complete (ProviderRegistry.createProvider name c) prompt options
  = Fulfilled (mockResponse name prompt).
Proof. done. Qed.

(** The tokens that any two mock answers to one prompt share. *)
Definition frame : gset string :=
  {[ "response"; "from"; "this"; "is"; "a"; "simulated"; "to" ]}.

Definition quoted (prompt : string) : gset string :=
  list_to_set
    (Js.split_from EmptyString true
       (Js.toLowerCase (Js.dquote +:+ prompt +:+ Js.dquote))).

Lemma wordsOf_mockResponse (name prompt : string) :
  JsFacts.hasSpace name = false →
  wordsOf (mockResponse name prompt)
  = {[ Js.toLowerCase name +:+ ":" ]} ∪ (frame ∪ quoted prompt).
Proof.
  intros Hname. unfold wordsOf, wordSet, Js.split_ws, mockResponse.
  cbn [content].
  rewrite !JsFacts.toLowerCase_append.
  change (Js.toLowerCase "Response from ") with "response from ".
  change (Js.toLowerCase ": This is a simulated response to ")
    with (String ":" " this is a simulated response to ").
  rewrite <- !JsFacts.toLowerCase_append.
  set (T := Js.toLowerCase (Js.dquote +:+ prompt +:+ Js.dquote)).
  assert (E1 : JsFacts.scan EmptyString false "response from "
               = (["response"; "from"], EmptyString, true)) by by vm_compute.
  assert (E2 : ∀ cur, JsFacts.scan cur false " this is a simulated response to "
                      = ([cur; "this"; "is"; "a"; "simulated"; "response"; "to"],
                         EmptyString, true))
    by (intros cur; by vm_compute).
  rewrite (JsFacts.split_from_append "response from "), E1.
  rewrite (JsFacts.append_cons ":").
  rewrite (JsFacts.split_from_word (Js.toLowerCase name));
    [|by rewrite JsFacts.hasSpace_lower].
  rewrite (JsFacts.split_from_append " this is a simulated response to " T), E2.
  rewrite JsFacts.append_nil_l.
  unfold quoted, frame. fold T.
  apply set_eq. intros w.
  rewrite !elem_of_list_to_set, !elem_of_app, !elem_of_cons, elem_of_nil.
  rewrite !elem_of_union, !elem_of_singleton, elem_of_list_to_set.
  tauto.
Qed.

End MockFacts.

Module MockSimilarity.
Import MockFacts.

(** The sizes of the intersection and of the union decide [areSimilar]
    and bound the ratio from below. *)
Lemma jaccard_sizes (A B : gset string) (m n : nat) :
  A ≠ ∅ → 0 < n →
  m * size (A ∪ B) ≤ n * size (A ∩ B) →
  (Qnat m / Qnat n <= jaccard A B)%Q.
Proof.
  intros HA Hn Hle. unfold jaccard. rewrite decide_False by tauto.
  assert (Hpos : 0 < size (A ∪ B)).
  { destruct (decide (size (A ∪ B) = 0)) as [Hz|]; [|lia].
    apply size_empty_iff in Hz. apply leibniz_equiv in Hz.
    destruct HA. apply set_eq. intros x.
    split; [|by intros ?%not_elem_of_empty]. intros Hx.
    rewrite <- Hz, elem_of_union. tauto. }
  apply Qnat_pos in Hpos. apply Qnat_pos in Hn.
  apply Qle_shift_div_l; [done|]. unfold Qdiv.
  rewrite <- Qmult_assoc, (Qmult_comm (/ _)), Qmult_assoc.
  apply Qle_shift_div_r; [done|].
  unfold Qle, Qnat. simpl. nia.
Qed.

Lemma frame_size : size frame = 7.
Proof. by vm_compute. Qed.

(** The token sets of two mock answers to one prompt share the frame and
    the quoted prompt, and differ in the two name tokens at most. *)
Lemma mock_overlap (n1 n2 prompt : string) :
  JsFacts.hasSpace n1 = false → JsFacts.hasSpace n2 = false →
  let A := wordsOf (mockResponse n1 prompt) in
  let B := wordsOf (mockResponse n2 prompt) in
  9 * size (A ∩ B) ≥ 7 * size (A ∪ B).
Proof.
  intros H1 H2 A B. unfold A, B.
  rewrite !wordsOf_mockResponse by done.
  set (C := frame ∪ quoted prompt).
  set (t1 := Js.toLowerCase n1 +:+ ":"). set (t2 := Js.toLowerCase n2 +:+ ":").
  assert (HC : 7 ≤ size C).
  { rewrite <- frame_size. apply subseteq_size, union_subseteq_l. }
  assert (Hinter : size C ≤ size (({[t1]} ∪ C) ∩ ({[t2]} ∪ C))).
  { apply subseteq_size. intros x Hx.
    rewrite elem_of_intersection, !elem_of_union. tauto. }
  assert (Hunion : size (({[t1]} ∪ C) ∪ ({[t2]} ∪ C)) ≤ 2 + size C).
  { transitivity (size (({[t1]} ∪ {[t2]}) ∪ C)).
    - apply subseteq_size. intros x.
      rewrite !elem_of_union. tauto.
    - rewrite size_union_alt.
      pose proof (subseteq_size (C ∖ ({[t1]} ∪ {[t2]})) C) as Hd.
      pose proof (size_union_alt ({[t1]} : gset string) {[t2]}) as Ht.
      pose proof (subseteq_size (({[t2]} : gset string) ∖ {[t1]}) {[t2]}) as Ht2.
      rewrite !size_singleton in *.
      assert (C ∖ ({[t1]} ∪ {[t2]}) ⊆ C)
        by (intros x; rewrite elem_of_difference; tauto).
      assert (({[t2]} : gset string) ∖ {[t1]} ⊆ {[t2]})
        by (intros x; rewrite elem_of_difference; tauto).
      specialize (Hd ltac:(done)). specialize (Ht2 ltac:(done)). lia. }
  lia.
Qed.

Lemma areSimilar_sizes (a b : Response) :
  ConsensusEngine.areSimilar a b = true
  ↔ 3 * size (wordsOf a ∪ wordsOf b) < 5 * size (wordsOf a ∩ wordsOf b).
Proof.
  unfold ConsensusEngine.areSimilar. rewrite Qltb_lt, similarity_jaccard.
  unfold jaccard, wordsOf.
  rewrite decide_False by (intros [E _]; by apply wordSet_nonempty in E).
  pose proof (union_size_pos (Js.toLowerCase (content a))
                             (Js.toLowerCase (content b))) as Hpos.
  apply Qnat_pos in Hpos.
  set (m := size (_ ∩ _)) in *. set (n := size (_ ∪ _)) in *.
  assert (Hiff : ((6 # 10) * Qnat n < Qnat m)%Q ↔ 3 * n < 5 * m).
  { unfold Qlt, Qnat. simpl. lia. }
  rewrite <- Hiff. split.
  - intros H. apply (Qmult_lt_r _ _ _ Hpos) in H.
    unfold Qdiv in H. by rewrite <- Qmult_assoc, (Qmult_comm (/ _)),
      Qmult_inv_r, Qmult_1_r in H
      by (intros E; rewrite E in Hpos; by apply Qlt_irrefl in Hpos).
  - intros H. by apply Qlt_shift_div_l.
Qed.

Lemma mock_similar (n1 n2 prompt : string) (r1 r2 : Response) :
  JsFacts.hasSpace n1 = false → JsFacts.hasSpace n2 = false →
  content r1 = content (mockResponse n1 prompt) →
  content r2 = content (mockResponse n2 prompt) →
  ConsensusEngine.areSimilar r1 r2 = true
  ∧ (7 # 9 <= jaccard (wordsOf r1) (wordsOf r2))%Q.
Proof.
  intros H1 H2 E1 E2.
  assert (W1 : wordsOf r1 = wordsOf (mockResponse n1 prompt))
    by (unfold wordsOf; by rewrite E1).
  assert (W2 : wordsOf r2 = wordsOf (mockResponse n2 prompt))
    by (unfold wordsOf; by rewrite E2).
  pose proof (mock_overlap n1 n2 prompt H1 H2) as Hov. cbv zeta in Hov.
  rewrite <- W1, <- W2 in Hov.
  assert (Hsub : size (wordsOf r1 ∩ wordsOf r2) ≤ size (wordsOf r1 ∪ wordsOf r2)).
  { apply subseteq_size. intros x.
    rewrite elem_of_intersection, elem_of_union. tauto. }
  split.
  - apply areSimilar_sizes.
    assert (0 < size (wordsOf r1 ∪ wordsOf r2)) by apply union_size_pos.
    lia.
  - assert (E : (7 # 9 == Qnat 7 / Qnat 9)%Q) by done.
    rewrite E. apply jaccard_sizes; [apply wordSet_nonempty|lia..].
Qed.

End MockSimilarity.

(** X11. Two mock providers whose names hold no whitespace give similar
    answers to the same prompt: their token sets differ in the name token
    only, and the similarity is at least 7/9. *)
Theorem mock_answers_are_similar (n1 n2 prompt : string)
    (c1 c2 : ProviderConfig.t) (o1 o2 : option QueryOptions.t) :
  JsFacts.hasSpace n1 = false → JsFacts.hasSpace n2 = false →
  ∃ r1 r2,
    IProvider.complete (ProviderRegistry.createProvider n1 c1) prompt o1
      = Fulfilled r1
    ∧ IProvider.complete (ProviderRegistry.createProvider n2 c2) prompt o2
      = Fulfilled r2
    ∧ ConsensusEngine.areSimilar r1 r2 = true
    ∧ (7 # 9 <= ConsensusEngine.similarity r1 r2)%Q.
Proof.
  intros H1 H2. eexists _, _. split; [done|]. split; [done|].
  rewrite similarity_jaccard.
  by apply (MockSimilarity.mock_similar n1 n2 prompt).
Qed.

Lemma mock_answers_are_similar_sample :
  ∃ r1 r2,
    IProvider.complete (ProviderRegistry.createProvider "openai" sampleConfig)
      "Which database?" None = Fulfilled r1
    ∧ IProvider.complete (ProviderRegistry.createProvider "claude" sampleConfig)
        "Which database?" None = Fulfilled r2
    ∧ ConsensusEngine.areSimilar r1 r2 = true
    ∧ (7 # 9 <= ConsensusEngine.similarity r1 r2)%Q.
Proof.
  apply (mock_answers_are_similar "openai" "claude" "Which database?");
    reflexivity.
Defined.

(** ** Instances built through the public interface

    The field [registry] is private and starts empty.  Providers are
    registered by the steps of [initialize] and by [addProvider], which
    both call [registry.register], and are removed by [removeProvider];
    [initialize] is not awaited by the constructor, so that its steps
    and these calls can come in any order. *)
Module Instances.
Import MockFacts.

Inductive reachable : Orchestra.t → Prop :=
| reach_created (config : OrchestraConfig.t) :
    reachable (Orchestra.mk config ProviderRegistry.empty)
| reach_add (self : Orchestra.t) (name : string) (c : ProviderConfig.t) :
    reachable self → reachable (Orchestra.addProvider self name c)
| reach_remove (self : Orchestra.t) (name : string) :
    reachable self → reachable (Orchestra.removeProvider self name).

(** The instance on which [initialize] has run to its end. *)
Lemma reachable_new (config : OrchestraConfig.t) :
  reachable (Orchestra.new config).
Proof.
  unfold Orchestra.new.
  assert (H : ∀ configs m,
             reachable (Orchestra.mk config m) →
             reachable
               (Orchestra.mk config
                  (foldl (λ reg '(name, c), ProviderRegistry.register name c reg)
                         m configs))).
  { induction configs as [|[name c] configs IH]; intros m Hm; [done|].
    simpl. apply IH. apply (reach_add (Orchestra.mk config m) name c Hm). }
  apply H. constructor.
Qed.

Lemma NoDup_register (name : string) (c : ProviderConfig.t)
    (m : ProviderRegistry.t) :
  NoDup (ProviderRegistry.list m) →
  NoDup (ProviderRegistry.list (ProviderRegistry.register name c m)).
Proof.
  intros Hnd. unfold ProviderRegistry.register.
  rewrite RegistryFacts.list_set_order.
  case_decide; [done|]. apply NoDup_app.
  split_and!; [done| |apply NoDup_singleton].
  intros x Hx ->%list_elem_of_singleton. done.
Qed.

Lemma reachable_NoDup (self : Orchestra.t) :
  reachable self → NoDup (Orchestra.getProviders self).
Proof.
  unfold Orchestra.getProviders.
  induction 1 as [config|self name c _ IH|self name _ IH]; simpl.
  - constructor.
  - by apply NoDup_register.
  - rewrite RegistryFacts.list_remove_filter. by apply NoDup_filter.
Qed.

Lemma reachable_allMocks (self : Orchestra.t) :
  reachable self → RegistryFacts.allMocks (Orchestra.registry self).
Proof.
  induction 1 as [config|self name c _ IH|self name _ IH]; simpl.
  - intros n p. done.
  - by apply RegistryFacts.allMocks_register.
  - by apply RegistryFacts.allMocks_remove.
Qed.

(** A listed name of a registry of mocks resolves to the mock of that
    name. *)
Lemma allMocks_get (m : ProviderRegistry.t) (n : string) :
  RegistryFacts.allMocks m → n ∈ ProviderRegistry.list m →
  ∃ c, ProviderRegistry.get n m = Some (ProviderRegistry.createProvider n c).
Proof.
  intros Hm [p Hp]%Registry.get_is_Some.
  destruct (Hm n p Hp) as [c ->]. by exists c.
Qed.

(** The answers that the fan-out collects from a registry of mocks. *)
Definition mockAnswers (prompt : string) (names : list string) : list Obj :=
  imap (λ i n, mkObj i (mockResponse n prompt)) names.

Lemma getResponses_mocks (race : Scheduler) (m : ProviderRegistry.t)
    (prompt : string) (names : list string) :
  RegistryFacts.allMocks m →
  (∀ n, n ∈ names → n ∈ ProviderRegistry.list m) →
  ConsensusEngine.getResponses race m prompt names
  = Fulfilled (mockAnswers prompt names).
Proof.
  intros Hm Hin. unfold ConsensusEngine.getResponses.
  apply Promise_all_Fulfilled. unfold mockAnswers. rewrite fmap_imap.
  apply imap_ext. intros i n Hi. simpl.
  destruct (allMocks_get m n Hm) as [c Hc].
  { apply Hin, list_elem_of_lookup. eauto. }
  unfold ConsensusEngine.callProvider. by rewrite Hc.
Qed.

Lemma mockAnswers_length (prompt : string) (names : list string) :
  length (mockAnswers prompt names) = length names.
Proof. unfold mockAnswers. by rewrite length_imap. Qed.

Lemma mockAnswers_elem (prompt : string) (names : list string) (r : Obj) :
  r ∈ mockAnswers prompt names
  ↔ ∃ i n, names !! i = Some n ∧ r = mkObj i (mockResponse n prompt).
Proof. apply elem_of_imap. Qed.

Lemma mockAnswers_identified (prompt : string) (names : list string) :
  Grouping.identified (mockAnswers prompt names).
Proof.
  intros a b (i & n & Hi & ->)%mockAnswers_elem
             (j & n' & Hj & ->)%mockAnswers_elem. simpl. intros <-.
  congruence.
Qed.

(** The total cost of mock answers: 0.001 is added once per answer. *)
Lemma mockAnswers_cost (prompt : string) (names : list string) :
  ∀ (k : nat) (acc : float),
    foldl (λ sum (r : Obj), sum + Double.or (cost (fields r)) 0)%float acc
          (imap (λ i n, mkObj (k + i) (mockResponse n prompt)) names)
    = foldl PrimFloat.add acc ((λ _, Double.milli) <$> names).
Proof.
  induction names as [|n names IH]; intros k acc; [done|].
  cbn [imap foldl fmap list_fmap].
  rewrite (imap_ext _ (λ i n, mkObj (S k + i) (mockResponse n prompt)))
    by (intros; simpl; f_equal; lia).
  by rewrite IH.
Qed.

(** Mock answers of providers whose names hold no whitespace form one
    group. *)
Lemma mockAnswers_one_group (prompt first : string) (others : list string) :
  (∀ n, n ∈ first :: others → JsFacts.hasSpace n = false) →
  ConsensusEngine.groupSimilarResponses (mockAnswers prompt (first :: others))
  = [mockAnswers prompt (first :: others)].
Proof.
  intros Hns. rewrite Grouping.groupSimilarResponses_greedy.
  unfold mockAnswers. simpl. apply GroupingFacts.greedyGroups_single.
  intros r (i & n & Hi & ->)%elem_of_imap. simpl.
  apply (MockSimilarity.mock_similar first n prompt); try done.
  - apply Hns. by left.
  - apply Hns. right. apply list_elem_of_lookup. eauto.
Qed.

End Instances.

(** X12. An instance whose registry was filled by [initialize] and
    [addProvider] and emptied by [removeProvider], in any order, holds
    mock providers under distinct names: the
    health check reports every listed provider other than [__proto__],
    and nothing else, as healthy; [query] answers with the mock's sentence
    when the name it resolves is listed, and is rejected with "Provider
    ... not found" otherwise. *)
Theorem built_instance_serves_mocks (self : Orchestra.t) (prompt : string)
    (options : option QueryOptions.t) :
  Instances.reachable self →
  let name :=
    orString (options ≫= QueryOptions.provider)
      (orString (OrchestraConfig.defaultProvider (Orchestra.config self))
                "openai") in
  NoDup (Orchestra.getProviders self)
  ∧ (∃ health,
       Orchestra.healthCheck self = Fulfilled health
       ∧ ∀ n, health !! n
              = if decide (n ∈ Orchestra.getProviders self
                           ∧ n ≠ "__proto__")
                then Some true else None)
  ∧ (name ∈ Orchestra.getProviders self →
     Orchestra.query self prompt options
     = Fulfilled (MockFacts.mockResponse name prompt))
  ∧ (name ∉ Orchestra.getProviders self →
     Orchestra.query self prompt options
     = Rejected (Error ("Provider " +:+ name +:+ " not found"))).
Proof.
  intros Hr name.
  pose proof (Instances.reachable_allMocks self Hr) as Hm.
  split_and!.
  - by apply Instances.reachable_NoDup.
  - eexists. split; [done|]. intros n.
    rewrite Health.healthCheck_loop, lookup_empty.
    unfold Orchestra.getProviders. case_decide as Hin; [|done].
    destruct Hin as [Hin _].
    destruct (Instances.allMocks_get _ n Hm Hin) as [c Hc].
    unfold Health.entry, Orchestra.probe. by rewrite Hc.
  - intros Hin. destruct (Instances.allMocks_get _ name Hm Hin) as [c Hc].
    unfold Orchestra.query. fold name. by rewrite Hc.
  - intros Hout. unfold Orchestra.query. fold name.
    destruct (ProviderRegistry.get name (Orchestra.registry self)) eqn:E;
      [|done].
    destruct Hout. apply Registry.get_is_Some. by rewrite E.
Qed.

Definition builtSample : Orchestra.t :=
  Orchestra.removeProvider
    (Orchestra.addProvider
       (Orchestra.new
          (OrchestraConfig.mk [("openai", sampleConfig); ("claude", sampleConfig)]
             None None None None None))
       "gemini" sampleConfig)
    "openai".

Lemma builtSample_reachable : Instances.reachable builtSample.
Proof. do 2 constructor. apply Instances.reachable_new. Qed.

Lemma built_instance_serves_mocks_sample :
  NoDup (Orchestra.getProviders builtSample)
  ∧ (∃ health,
       Orchestra.healthCheck builtSample = Fulfilled health
       ∧ ∀ n, health !! n
              = if decide (n ∈ Orchestra.getProviders builtSample
                           ∧ n ≠ "__proto__")
                then Some true else None)
  ∧ ("openai" ∈ Orchestra.getProviders builtSample →
     Orchestra.query builtSample "hello" None
     = Fulfilled (MockFacts.mockResponse "openai" "hello"))
  ∧ ("openai" ∉ Orchestra.getProviders builtSample →
     Orchestra.query builtSample "hello" None
     = Rejected (Error ("Provider " +:+ "openai" +:+ " not found"))).
Proof.
  apply (built_instance_serves_mocks builtSample "hello" None).
  exact builtSample_reachable.
Defined.

(** X13. On an instance built through the public interface, a consensus
    over listed names is rejected only when there is no name to ask;
    otherwise it is fulfilled, whatever the timing: it reports the names
    asked, one round, as total cost the double that adding 0.001 once per
    name gives, and the sentence of one of the mocks asked as its
    result. *)
Theorem built_instance_consensus (race : Scheduler) (self : Orchestra.t)
    (prompt : string) (options : option ConsensusOptions.t) :
  Instances.reachable self →
  (∀ n, n ∈ ConsensusEngine.providerNamesOf (Orchestra.registry self) options →
        n ∈ Orchestra.getProviders self) →
  let names := ConsensusEngine.providerNamesOf (Orchestra.registry self) options in
  (names = [] →
   Orchestra.consensus race self prompt options
   = Rejected (Error "No providers available for consensus"))
  ∧ (names ≠ [] →
     ∃ r, Orchestra.consensus race self prompt options = Fulfilled r
          ∧ ConsensusEngine.providers r = names
          ∧ ConsensusEngine.rounds r = 1
          ∧ ConsensusEngine.totalCost r
            = Double.sum ((λ _, Double.milli) <$> names)
          ∧ ∃ n, n ∈ names
                 ∧ ConsensusEngine.result (ConsensusEngine.consensus r)
                   = content (MockFacts.mockResponse n prompt)).
Proof.
  intros Hr Hin names.
  pose proof (Instances.reachable_allMocks self Hr) as Hm.
  unfold Orchestra.consensus, ConsensusEngine.buildConsensus. fold names.
  split.
  - by intros ->.
  - intros Hne.
    assert (Hlen : (length names =? 0) = false).
    { apply Nat.eqb_neq. by intros ?%length_zero_iff_nil. }
    rewrite Hlen.
    rewrite (Instances.getResponses_mocks race _ prompt names Hm Hin).
    cbn [mbind Outcome_bind].
    set (mode := default democratic (options ≫= ConsensusOptions.mode)).
    assert (Hrs : Instances.mockAnswers prompt names ≠ []).
    { intros E. apply Hne, length_zero_iff_nil.
      by rewrite <- (Instances.mockAnswers_length prompt), E. }
    destruct (ConsensusFacts.calculateConsensus_majority
                (Instances.mockAnswers prompt names) mode options Hrs
                (Instances.mockAnswers_identified prompt names))
      as (k & seed & rest & dis & Hk & _ & Hperm & _ & ->).
    cbn [orThrow]. eexists. split; [done|]. cbn.
    split_and!; [done..| |].
    + apply (Instances.mockAnswers_cost prompt names 0 0%float).
    + assert (Hseed : seed ∈ Instances.mockAnswers prompt names).
      { rewrite <- Hperm. by left. }
      apply Instances.mockAnswers_elem in Hseed as (i & n & Hi & ->).
      exists n. split; [|done]. apply list_elem_of_lookup. eauto.
Qed.

Lemma built_instance_consensus_sample :
  (ConsensusEngine.providerNamesOf (Orchestra.registry builtSample) None = [] →
   Orchestra.consensus Fanout.firstOf builtSample "hello" None
   = Rejected (Error "No providers available for consensus"))
  ∧ (ConsensusEngine.providerNamesOf (Orchestra.registry builtSample) None
     ≠ [] →
     ∃ r, Orchestra.consensus Fanout.firstOf builtSample "hello" None
          = Fulfilled r
          ∧ ConsensusEngine.providers r
            = ConsensusEngine.providerNamesOf (Orchestra.registry builtSample)
                None
          ∧ ConsensusEngine.rounds r = 1
          ∧ ConsensusEngine.totalCost r
            = Double.sum
                ((λ _, Double.milli)
                   <$> ConsensusEngine.providerNamesOf
                         (Orchestra.registry builtSample) None)
          ∧ ∃ n, n ∈ ConsensusEngine.providerNamesOf
                       (Orchestra.registry builtSample) None
                 ∧ ConsensusEngine.result (ConsensusEngine.consensus r)
                   = content (MockFacts.mockResponse n "hello")).
Proof.
  apply (built_instance_consensus Fanout.firstOf builtSample "hello" None).
  - exact builtSample_reachable.
  - intros n Hn. exact Hn.
Defined.

(** X14. When the names asked hold no whitespace, the consensus of a
    built instance is unanimous: the result is the sentence of the first
    mock asked, the agreement and the confidence are 1 and nothing
    dissents. *)
Theorem built_instance_consensus_unanimous (race : Scheduler)
    (self : Orchestra.t) (prompt : string)
    (options : option ConsensusOptions.t) (first : string)
    (others : list string) :
  Instances.reachable self →
  ConsensusEngine.providerNamesOf (Orchestra.registry self) options
  = first :: others →
  (∀ n, n ∈ first :: others →
        n ∈ Orchestra.getProviders self ∧ JsFacts.hasSpace n = false) →
  ∃ r, Orchestra.consensus race self prompt options = Fulfilled r
       ∧ ConsensusEngine.result (ConsensusEngine.consensus r)
         = content (MockFacts.mockResponse first prompt)
       ∧ (ConsensusEngine.agreement (ConsensusEngine.consensus r) == 1)%Q
       ∧ (ConsensusEngine.confidence (ConsensusEngine.consensus r) == 1)%Q
       ∧ ConsensusEngine.dissenting (ConsensusEngine.consensus r) = None.
Proof.
  intros Hr Hnames Hall.
  pose proof (Instances.reachable_allMocks self Hr) as Hm.
  unfold Orchestra.consensus, ConsensusEngine.buildConsensus.
  rewrite Hnames. cbn [length Nat.eqb].
  rewrite (Instances.getResponses_mocks race _ prompt (first :: others) Hm)
    by (intros n Hn; by apply Hall).
  cbn [mbind Outcome_bind].
  unfold ConsensusEngine.calculateConsensus.
  rewrite Instances.mockAnswers_one_group by (intros n Hn; by apply Hall).
  set (rs := Instances.mockAnswers prompt (first :: others)).
  assert (Hhead : head rs = Some (mkObj 0 (MockFacts.mockResponse first prompt)))
    by done.
  assert (Hlen : 0 < length rs).
  { unfold rs. rewrite Instances.mockAnswers_length. simpl. lia. }
  clearbody rs.
  cbn [ConsensusEngine.largest foldl mbind option_bind].
  unfold ConsensusEngine.synthesizeResponse. rewrite Hhead.
  cbn [fmap option_fmap option_map mbind option_bind orThrow].
  eexists. split; [done|].
  cbn [ConsensusEngine.consensus ConsensusEngine.result
       ConsensusEngine.agreement ConsensusEngine.confidence
       ConsensusEngine.dissenting].
  split_and!; [done| | |].
  - by apply Qnat_div_same.
  - by apply confidence_unanimous.
  - rewrite filter_none; [done|].
    intros r Hin Hn. apply Hn, Grouping.includes_spec. by exists r.
Qed.

Lemma built_instance_consensus_unanimous_sample :
  ∃ r, Orchestra.consensus Fanout.firstOf builtSample "hello" None
       = Fulfilled r
       ∧ ConsensusEngine.result (ConsensusEngine.consensus r)
         = content (MockFacts.mockResponse "claude" "hello")
       ∧ (ConsensusEngine.agreement (ConsensusEngine.consensus r) == 1)%Q
       ∧ (ConsensusEngine.confidence (ConsensusEngine.consensus r) == 1)%Q
       ∧ ConsensusEngine.dissenting (ConsensusEngine.consensus r) = None.
Proof.
  apply (built_instance_consensus_unanimous Fanout.firstOf builtSample "hello"
           None "claude" ["gemini"]).
  - exact builtSample_reachable.
  - reflexivity.
  - intros n Hn. split.
    + exact Hn.
    + apply elem_of_cons in Hn as [->|Hn]; [reflexivity|].
      apply list_elem_of_singleton in Hn as ->. reflexivity.
Defined.

Module RoundTrip.

Lemma set_absent (name : string) (p : IProvider.t) (m : ProviderRegistry.t) :
  name ∉ ProviderRegistry.list m →
  ProviderRegistry.set name p m = m ++ [(name, p)].
Proof.
  unfold ProviderRegistry.list.
  induction m as [|[k v] m IH]; intros Hin; [done|].
  rewrite fmap_cons, not_elem_of_cons in Hin. destruct Hin as [Hk Hin].
  cbn [ProviderRegistry.set]. simpl in Hk.
  rewrite decide_False by done. simpl. f_equal. by apply IH.
Qed.

Lemma remove_set (name : string) (p : IProvider.t) (m : ProviderRegistry.t) :
  ProviderRegistry.remove name (ProviderRegistry.set name p m)
  = ProviderRegistry.remove name m.
Proof.
  unfold ProviderRegistry.remove, ProviderRegistry.t.
  induction m as [|[k v] m IH]; cbn [ProviderRegistry.set].
  - by rewrite filter_cons_False by (simpl; tauto).
  - destruct (decide (k = name)) as [->|Hk].
    + by rewrite !filter_cons_False by (simpl; tauto).
    + rewrite !filter_cons_True by done. by rewrite IH.
Qed.

End RoundTrip.

(** X15. Once [initialize] has run to its end, the instance lists the
    names of the configuration in their order when they are distinct.
    Adding a provider and removing it again
    leaves the instance as [removeProvider] alone would, and leaves it
    unchanged when the name was not listed before; removing a name that is
    not listed changes nothing. *)
Theorem add_then_remove_provider (self : Orchestra.t) (name : string)
    (c : ProviderConfig.t) (config : OrchestraConfig.t) :
  (NoDup (OrchestraConfig.providers config).*1 →
   Orchestra.getProviders (Orchestra.new config)
   = (OrchestraConfig.providers config).*1)
  ∧ Orchestra.removeProvider (Orchestra.addProvider self name c) name
    = Orchestra.removeProvider self name
  ∧ (name ∉ Orchestra.getProviders self →
     Orchestra.removeProvider (Orchestra.addProvider self name c) name = self
     ∧ Orchestra.removeProvider self name = self
     ∧ Orchestra.getProviders (Orchestra.addProvider self name c)
       = Orchestra.getProviders self ++ [name])
  ∧ (name ∈ Orchestra.getProviders self →
     Orchestra.getProviders (Orchestra.addProvider self name c)
     = Orchestra.getProviders self).
Proof.
  assert (Hrm : Orchestra.removeProvider (Orchestra.addProvider self name c) name
                = Orchestra.removeProvider self name).
  { unfold Orchestra.removeProvider, Orchestra.addProvider. simpl.
    unfold ProviderRegistry.register. by rewrite RoundTrip.remove_set. }
  split_and!.
  - intros Hnd. unfold Orchestra.getProviders, Orchestra.new. simpl.
    by rewrite RegistryFacts.list_registered_order.
  - done.
  - intros Hout.
    assert (Hself : Orchestra.removeProvider self name = self).
    { unfold Orchestra.removeProvider.
      rewrite RegistryFacts.remove_absent by done. by destruct self. }
    split_and!; [by rewrite Hrm|done|].
    unfold Orchestra.getProviders, Orchestra.addProvider. simpl.
    unfold ProviderRegistry.register. rewrite RegistryFacts.list_set_order.
    by rewrite decide_False.
  - intros Hin. unfold Orchestra.getProviders, Orchestra.addProvider. simpl.
    unfold ProviderRegistry.register. rewrite RegistryFacts.list_set_order.
    by rewrite decide_True.
Qed.

Module PromptFacts.

(** One line of the perspectives of [buildDebatePrompt]. *)
Definition perspective (arg : Response) : string :=
  provider arg +:+ ": " +:+ Js.substring0 200 (content arg) +:+ "...".

Lemma perspective_length (arg : Response) :
  String.length (provider arg) + 5 ≤ String.length (perspective arg)
  ∧ String.length (perspective arg) ≤ String.length (provider arg) + 205.
Proof.
  unfold perspective. rewrite !JsFacts.length_append, JsFacts.length_substring0.
  cbn [String.length]. lia.
Qed.

Lemma perspectives_length (args : list Response) :
  String.length (Js.join Js.nl (map perspective args))
  ≤ sum_list ((λ a, String.length (provider a) + 206) <$> args).
Proof.
  pose proof (JsFacts.length_join Js.nl (map perspective args)) as [Hj _].
  assert (Hs : sum_list ((λ x, String.length x + String.length Js.nl)
                           <$> map perspective args)
               ≤ sum_list ((λ a, String.length (provider a) + 206) <$> args)).
  { clear Hj. induction args as [|a args IH]; [done|].
    pose proof (perspective_length a) as [_ Ha].
    cbn [map]. rewrite !fmap_cons. cbn [sum_list sum_list_with].
    change (String.length Js.nl) with 1 in *. unfold id.
    apply Nat.add_le_mono; [lia|exact IH]. }
  change (String.length Js.nl) with 1 in *. lia.
Qed.

End PromptFacts.

(** X16. [buildDebatePrompt] fails on an empty array of rounds only, and
    reads the last round only.  The prompt it builds embeds the previous
    prompt after the words "Original question: " and is longer than it by
    181 fixed characters and by the perspectives, each of which adds the
    provider's name and at most 206 characters: the answers are cut at 200
    characters. *)
Theorem debate_prompt_embeds_question (p : string)
    (rounds : list DebateRound.t) (r : DebateRound.t) :
  (Orchestra.buildDebatePrompt p rounds = None ↔ rounds = [])
  ∧ Orchestra.buildDebatePrompt p (rounds ++ [r])
    = Orchestra.buildDebatePrompt p [r]
  ∧ ∃ q post,
      Orchestra.buildDebatePrompt p (rounds ++ [r]) = Some q
      ∧ q = Js.nl +:+ "Original question: " +:+ p +:+ post
      ∧ String.length p + 181 ≤ String.length q
      ∧ String.length q
        ≤ String.length p + 181
          + sum_list ((λ a, String.length (provider a) + 206)
                        <$> DebateRound.arguments r).
Proof.
  split_and!.
  - unfold Orchestra.buildDebatePrompt. split.
    + destruct rounds as [|r0 rounds _] using rev_ind; [done|].
      by rewrite last_snoc.
    + by intros ->.
  - unfold Orchestra.buildDebatePrompt. by rewrite last_snoc.
  - unfold Orchestra.buildDebatePrompt. rewrite last_snoc.
    cbn [mbind option_bind].
    fold PromptFacts.perspective.
    pose proof (PromptFacts.perspectives_length (DebateRound.arguments r)) as Hp.
    set (ps := Js.join Js.nl (map PromptFacts.perspective
                                  (DebateRound.arguments r))) in *.
    eexists _, _. split; [done|]. split; [done|].
    rewrite !JsFacts.length_append. simpl. lia.
Qed.

Module MockDebate.
Import Orchestra MockFacts.





End MockDebate.



(** X18. A provider that inherits the health check of the base class
    [Provider], registered under a name other than [__proto__], is
    reported by [Orchestra.healthCheck] as healthy exactly when its
    one-token test completion is fulfilled: a rejection of [complete]
    becomes the entry [false], never a rejection of the health check. *)
Theorem base_class_health_check (self : Orchestra.t) (name : string)
    (complete : string → option QueryOptions.t → Outcome Response) :
  ProviderRegistry.get name (Orchestra.registry self)
  = Some (Provider.extend name complete) →
  name ≠ "__proto__" →
  ∃ health,
    Orchestra.healthCheck self = Fulfilled health
    ∧ Orchestra.probe self name
      = Fulfilled
          (match complete "test"
                   (Some (QueryOptions.mk None (Some 1) None None)) with
           | Fulfilled _ => true
           | Rejected _ => false
           end)
    ∧ health !! name
      = Some (match complete "test"
                      (Some (QueryOptions.mk None (Some 1) None None)) with
              | Fulfilled _ => true
              | Rejected _ => false
              end).
Proof.
  intros Hget Hname. eexists. split; [done|].
  assert (Hprobe : Orchestra.probe self name
                   = Fulfilled
                       (match complete "test"
                                (Some (QueryOptions.mk None (Some 1) None None))
                        with
                        | Fulfilled _ => true
                        | Rejected _ => false
                        end)).
  { unfold Orchestra.probe. rewrite Hget. simpl. unfold Provider.healthCheck.
    by destruct (complete _ _). }
  split; [done|].
  rewrite Health.healthCheck_loop.
  rewrite decide_True
    by (split; [apply Registry.get_is_Some; by rewrite Hget|done]).
  unfold Health.entry. by rewrite Hprobe.
Qed.

Definition offline : Orchestra.t :=
  Orchestra.mk
    (OrchestraConfig.mk [] None None None None None)
    [("up", Provider.extend "up" (IProvider.complete (mock "up")));
     ("down", Provider.extend "down" (λ _ _, Rejected (Error "offline")))].

Lemma base_class_health_check_offline :
  ∃ health,
    Orchestra.healthCheck offline = Fulfilled health
    ∧ Orchestra.probe offline "down" = Fulfilled false
    ∧ health !! "down" = Some false.
Proof.
  apply (base_class_health_check offline "down"
           (λ _ _, Rejected (Error "offline"))).
  - reflexivity.
  - apply (bool_decide_unpack _). reflexivity.
Defined.

(** X19. The options of a debate are read with [||]: a [maxRounds] of 0
    and a [threshold] of 0 count as not given, and the debate runs as it
    does without them.  The number of rounds in force is therefore at
    least 1 and the threshold in force is never 0. *)
Theorem zero_debate_options_are_unset (race : Scheduler) (self : Orchestra.t)
    (prompt : string) (options : option DebateOptions.t)
    (ps : option (list string)) (mr : option nat) (th : option Q)
    (st : option bool) (zero : Q) :
  Orchestra.debate race self prompt (Some (DebateOptions.mk ps (Some 0) th st))
  = Orchestra.debate race self prompt (Some (DebateOptions.mk ps None th st))
  ∧ ((zero == 0)%Q →
     Orchestra.debate race self prompt
       (Some (DebateOptions.mk ps mr (Some zero) st))
     = Orchestra.debate race self prompt
         (Some (DebateOptions.mk ps mr None st)))
  ∧ 1 ≤ Orchestra.maxRoundsOf self options
  ∧ ¬ (Orchestra.thresholdOf self options == 0)%Q.
Proof.
  split_and!.
  - done.
  - intros Hz. unfold Orchestra.debate, Orchestra.debateWith,
      Orchestra.thresholdOf, Orchestra.maxRoundsOf, Orchestra.participantsOf.
    cbn [mbind option_bind DebateOptions.threshold DebateOptions.maxRounds
         DebateOptions.providers].
    assert (E : ∀ d, orQ (Some zero) d = d).
    { intros d. unfold orQ. by rewrite (proj2 (Qeq_bool_iff zero 0) Hz). }
    by rewrite E.
  - apply Debate.maxRoundsOf_pos.
  - unfold Orchestra.thresholdOf.
    assert (E : ∀ a d, ¬ (d == 0)%Q → ¬ (orQ a d == 0)%Q).
    { intros [x|] d Hd; simpl; [|done].
      destruct (Qeq_bool x 0) eqn:Ex; [done|].
      intros Hx. apply Qeq_bool_iff in Hx. congruence. }
    apply E, E. done.
Qed.

(** ** Doubles at work *)

(** The sum of the similarities is a sum of doubles, which depends on the
    order of the responses: the same three responses give 0.5 in one
    order and 0.49999999999999994 in another. *)
Example agreement_depends_on_order :
  Float64.calculateAgreement
    [mkResponse "d" "a" None None None; mkResponse "b c d" "b" None None None;
     mkResponse "c d" "c" None None None]
  = 0x1p-1%float
  ∧ Float64.calculateAgreement
      [mkResponse "c d" "c" None None None; mkResponse "d" "a" None None None;
       mkResponse "b c d" "b" None None None]
    = 0x1.fffffffffffffp-2%float.
Proof. split; by vm_compute. Qed.

(** Three providers whose answers share 14 tokens out of 20, pair by
    pair. *)
Definition fourteen : string :=
  "t1 t2 t3 t4 t5 t6 t7 t8 t9 t10 t11 t12 t13 t14".

Definition closeCall : Orchestra.t :=
  Orchestra.mk
    (OrchestraConfig.mk
       [("a", sampleConfig); ("b", sampleConfig); ("c", sampleConfig)]
       None None None None None)
    [("a", says "a" (fourteen +:+ " a1 a2 a3"));
     ("b", says "b" (fourteen +:+ " b1 b2 b3"));
     ("c", says "c" (fourteen +:+ " c1 c2 c3"))].

(** The three ratios are 14/20 each.  Their sum as doubles, divided by 3,
    is 0.6999999999999998, below the default threshold 0.7: the debate
    does not stop after the first round and uses its three rounds. *)
Example rounding_costs_a_round :
  match Float64.debate Fanout.firstOf closeCall "q" None with
  | Some (Fulfilled res) =>
      Float64.Result.agreement res = 0x1.6666666666665p-1%float
      ∧ Float64.thresholdOf closeCall None = 0x1.6666666666666p-1%float
      ∧ length (Float64.Result.rounds res) = 3
  | _ => False
  end.
Proof. by vm_compute. Qed.

(** Three mocks agree on 8 tokens out of 10, pair by pair: the agreement
    is 0.8000000000000002 and one round is enough. *)
Example mocks_settle_in_doubles :
  match Float64.debate Fanout.firstOf threeMocks "q" None with
  | Some (Fulfilled res) =>
      Float64.Result.agreement res = 0x1.999999999999bp-1%float
      ∧ length (Float64.Result.rounds res) = 1
      ∧ Float64.Result.decision res
        = content (MockFacts.mockResponse "a" "q")
  | _ => False
  end.
Proof. by vm_compute. Qed.

(** Nine mocks cost 0.009000000000000001: nine additions of the double
    0.001, which is not the double nearest to 9/1000. *)
Example cost_of_nine_mocks :
  Double.sum ((λ _, Double.milli) <$> seq 0 9) = 0x1.26e978d4fdf3cp-7%float
  ∧ Double.ofQ (9 # 1000) = 0x1.26e978d4fdf3bp-7%float.
Proof. split; by vm_compute. Qed.
